(** * gcli: the scheduled-email store, its dispatcher and the fan-out merge

    A shallow embedding of the scheduled-email persistence layer
    (package gmail, scheduled emails), of the [mail schedule] and
    [mail scheduled send] commands (package cmd, mail.go) and of the
    calendar/mail listing merge (package cmd), with the properties of
    the design document stated and proved over it.

    Conventions.
    - A Go [error] is modelled by its message text; a call returning
      [(T, error)] returns a [result T].
    - [time.Time] is an instant counted in nanoseconds since the Unix
      epoch; [Before] is the strict order on instants.
    - The backing file is modelled by what reading it yields; its JSON
      encoding (encoding/json) is not re-modelled.
    - Every reading of the wall clock ([time.Now()]) is an explicit
      argument of the operation that takes it. *)

From Stdlib Require Import ZArith Ascii String List Lia Bool.
From Stdlib Require Import Decimal DecimalString DecimalPos DecimalZ.
From stdpp Require Import base tactics option list.

Open Scope string_scope.
Open Scope list_scope.
Open Scope Z_scope.

(* ================================================================= *)
(** ** Errors, time and identifiers *)

Inductive result (A : Type) : Type :=
| Ok (a : A)
| Err (msg : string).
Arguments Ok {A} a.
Arguments Err {A} msg.

(** [fmt.Errorf("prefix: %w", err)]: the message of the wrapped error
    follows the prefix. *)
Definition wrapErr (prefix msg : string) : string :=
  (prefix ++ msg)%string.

Definition Time := Z.

(** [t.Before(u)] *)
Definition Before (t u : Time) : bool := t <? u.

(** The zero value of [time.Time]: January 1, year 1, 00:00 UTC. *)
Definition zeroTime : Time := -62135596800 * 1000000000.

(** Two's-complement wrap-around of an [int64]. *)
Definition wrap64 (z : Z) : Z := (z + 2^63) mod 2^64 - 2^63.

(** [t.UnixNano()]: nanoseconds since the epoch as an [int64]. *)
Definition UnixNano (t : Time) : Z := wrap64 t.

(** [fmt.Sprintf("%d", n)]: decimal digits, with a leading minus sign
    for a negative number. *)
Definition Sprintf_d (n : Z) : string := NilZero.string_of_int (Z.to_int n).

(** [generateID], given the clock reading it takes. *)
Definition generateID (now : Time) : string := Sprintf_d (UnixNano now).

(* ================================================================= *)
(** ** Package config and package output: the types the commands share *)

Module config.

(** The per-account settings, with the fields that packages auth and
    calendar read (package config itself is outside this
    development). *)
Record AccountConfig : Type := mkAccountConfig {
  ClientID : string;
  ClientSecret : string;
  CalendarID : string
}.

End config.

Module output.

Record EmailSummary : Type := mkEmailSummary {
  ID : string;
  Account : string;
  From : string;
  Subject : string;
  Date : Time;
  Snippet : string;
  HasAttach : bool
}.

(** [ID], [Account] and [End] of the source are [evID], [evAccount]
    and [End_] here: the first two name fields of [EmailSummary]
    already, the last is a keyword. *)
Record CalendarEventSummary : Type := mkCalendarEventSummary {
  evID : string;
  evAccount : string;
  CalendarID : string;
  Summary : string;
  Start : Time;
  End_ : Time;
  Location : string;
  Status : string;
  AllDay : bool
}.

End output.

(* ================================================================= *)
(** ** The persisted record *)

Record ScheduledEmailData : Type := mkScheduledEmailData {
  ID : string;
  Account : string;
  DraftID : string;
  To : list string;
  CC : list string;
  BCC : list string;
  Subject : string;
  Body : string;
  IsHTML : bool;
  ScheduledAt : Time;
  CreatedAt : Time;
  Sent : bool;
  SentAt : Time;
  Error : string
}.

Definition set_ID (v : string) (e : ScheduledEmailData) :=
  mkScheduledEmailData v (Account e) (DraftID e) (To e) (CC e) (BCC e)
    (Subject e) (Body e) (IsHTML e) (ScheduledAt e) (CreatedAt e) (Sent e)
    (SentAt e) (Error e).
Definition set_CreatedAt (v : Time) (e : ScheduledEmailData) :=
  mkScheduledEmailData (ID e) (Account e) (DraftID e) (To e) (CC e) (BCC e)
    (Subject e) (Body e) (IsHTML e) (ScheduledAt e) v (Sent e)
    (SentAt e) (Error e).
Definition set_Sent (v : bool) (e : ScheduledEmailData) :=
  mkScheduledEmailData (ID e) (Account e) (DraftID e) (To e) (CC e) (BCC e)
    (Subject e) (Body e) (IsHTML e) (ScheduledAt e) (CreatedAt e) v
    (SentAt e) (Error e).
Definition set_SentAt (v : Time) (e : ScheduledEmailData) :=
  mkScheduledEmailData (ID e) (Account e) (DraftID e) (To e) (CC e) (BCC e)
    (Subject e) (Body e) (IsHTML e) (ScheduledAt e) (CreatedAt e) (Sent e)
    v (Error e).
Definition set_Error (v : string) (e : ScheduledEmailData) :=
  mkScheduledEmailData (ID e) (Account e) (DraftID e) (To e) (CC e) (BCC e)
    (Subject e) (Body e) (IsHTML e) (ScheduledAt e) (CreatedAt e) (Sent e)
    (SentAt e) v.

(* ================================================================= *)
(** ** The backing file *)

(** What [os.ReadFile] followed by [json.Unmarshal] yields on the
    store file. *)
Inductive FileState : Type :=
| NoFile                                        (* os.IsNotExist *)
| Stored (emails : list ScheduledEmailData)     (* a well-formed collection *)
| Garbled (msg : string)                        (* json.Unmarshal fails *)
| Unreadable (msg : string).                    (* any other read error *)

(** The part of the machine the store touches.  [pathErr] and
    [ensureErr] are the failures of [config.GetConfigDir] and
    [config.EnsureConfigDir], [marshalErr] the failure of [json.MarshalIndent]
    on a collection (the encoder refuses, for one, a time whose year
    has more than four digits), [writeErr] the failure of
    [os.WriteFile], together with the parse error the file yields
    from then on when the failed write has truncated it
    ([os.WriteFile] truncates before it writes); [writes] counts the
    calls of [os.WriteFile] that went through. *)
Record Disk : Type := mkDisk {
  file : FileState;
  pathErr : option string;
  ensureErr : option string;
  marshalErr : list ScheduledEmailData -> option string;
  writeErr : option (string * option string);
  writes : nat
}.

(** The disk after a write that failed. *)
Definition afterFailedWrite (residue : option string) (d : Disk) : Disk :=
  match residue with
  | None => d
  | Some m =>
      mkDisk (Garbled m) (pathErr d) (ensureErr d) (marshalErr d) (writeErr d)
        (writes d)
  end.

(** [getScheduledPath] *)
Definition getScheduledPath (d : Disk) : result unit :=
  match pathErr d with
  | Some m => Err m
  | None => Ok tt
  end.

(** [LoadScheduledEmails] *)
Definition LoadScheduledEmails (d : Disk) : result (list ScheduledEmailData) :=
  match getScheduledPath d with
  | Err m => Err m
  | Ok _ =>
      match file d with
      | NoFile => Ok []
      | Unreadable m => Err (wrapErr "failed to read scheduled emails: " m)
      | Garbled m => Err (wrapErr "failed to parse scheduled emails: " m)
      | Stored emails => Ok emails
      end
  end.

(** [SaveScheduledEmails]: a full rewrite of the collection. *)
Definition SaveScheduledEmails (emails : list ScheduledEmailData) (d : Disk)
  : result unit * Disk :=
  match ensureErr d with
  | Some m => (Err m, d)
  | None =>
      match getScheduledPath d with
      | Err m => (Err m, d)
      | Ok _ =>
          match marshalErr d emails with
          | Some m =>
              (Err (wrapErr "failed to marshal scheduled emails: " m), d)
          | None =>
              match writeErr d with
              | Some (m, residue) =>
                  (Err (wrapErr "failed to write scheduled emails: " m),
                   afterFailedWrite residue d)
              | None =>
                  (Ok tt, mkDisk (Stored emails) (pathErr d) (ensureErr d)
                            (marshalErr d) (writeErr d) (S (writes d)))
              end
          end
      end
  end.

(* ================================================================= *)
(** ** Store operations *)

(** [AddScheduledEmail]; [tID] is the clock reading taken inside
    [generateID], [tCreated] the one taken for [CreatedAt]. *)
Definition AddScheduledEmail (tID tCreated : Time) (email : ScheduledEmailData)
  (d : Disk) : result unit * Disk :=
  match LoadScheduledEmails d with
  | Err m => (Err m, d)
  | Ok emails =>
      let email := set_ID (generateID tID) email in
      let email := set_CreatedAt tCreated email in
      let email := set_Sent false email in
      SaveScheduledEmails (emails ++ [email]) d
  end.

(** The loop of [GetPendingScheduledEmails]: [pending] is the slice
    built so far. *)
Fixpoint pendingLoop (accountName : string) (now : Time)
  (emails pending : list ScheduledEmailData) : list ScheduledEmailData :=
  match emails with
  | [] => pending
  | e :: rest =>
      if negb (Sent e) && (Error e =? "")%string && Before (ScheduledAt e) now
      then
        if (accountName =? "")%string || (Account e =? accountName)%string
        then pendingLoop accountName now rest (pending ++ [e])
        else pendingLoop accountName now rest pending
      else pendingLoop accountName now rest pending
  end.

(** [GetPendingScheduledEmails]; [now] is its reading of the clock. *)
Definition GetPendingScheduledEmails (accountName : string) (now : Time)
  (d : Disk) : result (list ScheduledEmailData) :=
  match LoadScheduledEmails d with
  | Err m => Err m
  | Ok emails => Ok (pendingLoop accountName now emails [])
  end.

(** The search loop of [UpdateScheduledEmail]: the first record whose
    [ID] is [id] is updated in place and the loop breaks; [None] is
    [found == false]. *)
Fixpoint updateLoop (id : string)
  (updateFn : ScheduledEmailData -> ScheduledEmailData)
  (emails : list ScheduledEmailData) : option (list ScheduledEmailData) :=
  match emails with
  | [] => None
  | e :: rest =>
      if (ID e =? id)%string then Some (updateFn e :: rest)
      else
        match updateLoop id updateFn rest with
        | Some rest' => Some (e :: rest')
        | None => None
        end
  end.

(** [UpdateScheduledEmail] *)
Definition UpdateScheduledEmail (id : string)
  (updateFn : ScheduledEmailData -> ScheduledEmailData) (d : Disk)
  : result unit * Disk :=
  match LoadScheduledEmails d with
  | Err m => (Err m, d)
  | Ok emails =>
      match updateLoop id updateFn emails with
      | None => (Err ("scheduled email '" ++ id ++ "' not found")%string, d)
      | Some emails' => SaveScheduledEmails emails' d
      end
  end.

(** [MarkScheduledEmailSent]; [now] is the clock reading stored in
    [SentAt].  The [messageID] argument is not used by the body. *)
Definition MarkScheduledEmailSent (id messageID : string) (now : Time)
  (d : Disk) : result unit * Disk :=
  UpdateScheduledEmail id (fun e => set_SentAt now (set_Sent true e)) d.

(** [MarkScheduledEmailError] *)
Definition MarkScheduledEmailError (id errMsg : string) (d : Disk)
  : result unit * Disk :=
  UpdateScheduledEmail id (fun e => set_Error errMsg e) d.

(** The loop of [ClearSentScheduledEmails]. *)
Fixpoint clearSentLoop (accountName : string)
  (emails remaining : list ScheduledEmailData) : list ScheduledEmailData :=
  match emails with
  | [] => remaining
  | e :: rest =>
      if negb (Sent e)
         || (negb (accountName =? "")%string
             && negb (Account e =? accountName)%string)
      then clearSentLoop accountName rest (remaining ++ [e])
      else clearSentLoop accountName rest remaining
  end.

(** [ClearSentScheduledEmails] *)
Definition ClearSentScheduledEmails (accountName : string) (d : Disk)
  : result unit * Disk :=
  match LoadScheduledEmails d with
  | Err m => (Err m, d)
  | Ok emails => SaveScheduledEmails (clearSentLoop accountName emails []) d
  end.

(** The loop of [ClearAllScheduledEmails]. *)
Fixpoint clearAllLoop (accountName : string)
  (emails remaining : list ScheduledEmailData) : list ScheduledEmailData :=
  match emails with
  | [] => remaining
  | e :: rest =>
      if negb (Account e =? accountName)%string
      then clearAllLoop accountName rest (remaining ++ [e])
      else clearAllLoop accountName rest remaining
  end.

(** [ClearAllScheduledEmails] *)
Definition ClearAllScheduledEmails (accountName : string) (d : Disk)
  : result unit * Disk :=
  match LoadScheduledEmails d with
  | Err m => (Err m, d)
  | Ok emails =>
      if (accountName =? "")%string then SaveScheduledEmails [] d
      else SaveScheduledEmails (clearAllLoop accountName emails []) d
  end.

(* ================================================================= *)
(** ** The collaborators: configuration, sessions, remote services *)

(** [DraftEmail]; its fields carry a [d] in front, their names being
    those of [ScheduledEmailData] fields. *)
Record DraftEmail : Type := mkDraftEmail {
  dTo : list string;
  dCC : list string;
  dBCC : list string;
  dSubject : string;
  dBody : string;
  dIsHTML : bool
}.

(** What lies outside the program: the configuration file as
    [config.Load] reads it, the token store and OAuth endpoint behind
    [auth.GetClient], the Google services, and the [time] package's
    parser.  Each is a function of its arguments for the duration of
    one command. *)
Record World : Type := mkWorld {
  HttpClient : Type;
  GmailService : Type;
  CalendarService : Type;
  (* config.Load: its error, if it fails *)
  config_Load : option string;
  (* methods of the loaded configuration *)
  cfg_HasAccounts : bool;
  cfg_GetAllAccounts : list string;
  cfg_GetAccount : string -> result (string * config.AccountConfig);
  (* auth.GetClient *)
  auth_GetClient : string -> config.AccountConfig -> result HttpClient;
  (* google.golang.org/api/gmail/v1 *)
  gmail_NewService : HttpClient -> result GmailService;
  Drafts_Create : GmailService -> DraftEmail -> result string;
  Drafts_Send : GmailService -> string -> result string;
  Messages_List :
    GmailService -> string -> string -> Z -> result (list output.EmailSummary);
  (* google.golang.org/api/calendar/v3 *)
  calendar_NewService : HttpClient -> result CalendarService;
  Events_List :
    CalendarService -> string -> string -> Time -> Time -> Z ->
    result (list output.CalendarEventSummary);
  (* time.Parse(layout, value) and the reading of a parsed wall-clock
     time in the local zone, time.Date(..., 0, time.Local) *)
  time_Parse : string -> string -> result Time;
  time_Local : Time -> Time
}.

(** The Gmail client of package gmail. *)
Record Client (W : World) : Type := mkClient {
  service : GmailService W;
  accountName : string
}.
Arguments mkClient {W} _ _.
Arguments service {W} _.
Arguments accountName {W} _.

(** [gmail.NewClient].  [auth_GetClient] stands for [auth.GetClient],
    of which the client it returns is used here; the token file it may
    rewrite on the way is no part of [Disk], the store of scheduled
    emails, and is the subject of [GetClient] below. *)
Definition NewClient (W : World) (name : string) (account : config.AccountConfig)
  : result (Client W) :=
  match auth_GetClient W name account with
  | Err m => Err (wrapErr "failed to get authenticated client: " m)
  | Ok httpClient =>
      match gmail_NewService W httpClient with
      | Err m => Err (wrapErr "failed to create Gmail service: " m)
      | Ok svc => Ok (mkClient svc name)
      end
  end.

(** [Client.ListMessages]: the adapter's list operation; the
    per-message fetches behind it are left to [Messages_List]. *)
Definition ListMessages {W : World} (c : Client W) (query : string) (maxResults : Z)
  : result (list output.EmailSummary) :=
  match Messages_List W (service c) (accountName c) query maxResults with
  | Err m => Err (wrapErr "failed to list messages: " m)
  | Ok summaries => Ok summaries
  end.

(** [Client.CreateDraft]; the raw message that [buildRawMessage]
    makes of the draft is left to [Drafts_Create]. *)
Definition CreateDraft {W : World} (c : Client W) (draft : DraftEmail)
  : result string :=
  match Drafts_Create W (service c) draft with
  | Err m => Err (wrapErr "failed to create draft: " m)
  | Ok id => Ok id
  end.

(** [Client.SendDraft] *)
Definition SendDraft {W : World} (c : Client W) (draftID : string)
  : result string :=
  match Drafts_Send W (service c) draftID with
  | Err m => Err (wrapErr "failed to send draft: " m)
  | Ok id => Ok id
  end.

Module calendar.

(** The Calendar client of package calendar. *)
Record Client (W : World) : Type := mkClient {
  service : CalendarService W;
  accountName : string;
  calendarID : string
}.
Arguments mkClient {W} _ _ _.
Arguments service {W} _.
Arguments accountName {W} _.
Arguments calendarID {W} _.

(** [calendar.NewClient] *)
Definition NewClient (W : World) (name : string) (account : config.AccountConfig)
  : result (Client W) :=
  match auth_GetClient W name account with
  | Err m => Err (wrapErr "failed to get authenticated client: " m)
  | Ok httpClient =>
      match calendar_NewService W httpClient with
      | Err m => Err (wrapErr "failed to create Calendar service: " m)
      | Ok svc =>
          let calendarID := config.CalendarID account in
          let calendarID :=
            if (calendarID =? "")%string then "primary" else calendarID in
          Ok (mkClient svc name calendarID)
      end
  end.

(** [Client.ListEvents]: the adapter's list operation; the request
    and the conversion of its items are left to [Events_List]. *)
Definition ListEvents {W : World} (c : Client W) (from to : Time) (maxResults : Z)
  : result (list output.CalendarEventSummary) :=
  match Events_List W (service c) (calendarID c) (accountName c)
          from to maxResults with
  | Err m => Err (wrapErr "failed to list events: " m)
  | Ok summaries => Ok summaries
  end.

End calendar.

(* ================================================================= *)
(** ** Package cmd: the mail commands *)

(** The calls a command makes on its collaborators and on the store,
    in the order it makes them. *)
Inductive Call : Type :=
| CallConfigLoad
| CallGetAccount (name : string)
| CallNewClient (name : string)
| CallCreateDraft (name : string) (draft : DraftEmail)
| CallSendDraft (name draftID : string)
| CallAddScheduledEmail (email : ScheduledEmailData)
| CallMarkSent (id messageID : string)
| CallMarkError (id errMsg : string).

(** The layouts [parseDateTime] tries, in order; the first is
    [time.RFC3339]. *)
Definition dateTimeFormats : list string :=
  [ "2006-01-02T15:04:05Z07:00";
    "2006-01-02T15:04:05";
    "2006-01-02 15:04:05";
    "2006-01-02T15:04";
    "2006-01-02 15:04" ].

(** The loop of [parseDateTime] over the layouts still to try. *)
Fixpoint parseDateTimeLoop (W : World) (formats : list string) (s : string)
  : result Time :=
  match formats with
  | [] => Err ("could not parse datetime: " ++ s)%string
  | format :: rest =>
      match time_Parse W format s with
      | Ok t =>
          if (format =? "2006-01-02T15:04:05")%string
             || (format =? "2006-01-02 15:04:05")%string
             || (format =? "2006-01-02T15:04")%string
             || (format =? "2006-01-02 15:04")%string
          then Ok (time_Local W t)
          else Ok t
      | Err _ => parseDateTimeLoop W rest s
      end
  end.

(** [parseDateTime] *)
Definition parseDateTime (W : World) (s : string) : result Time :=
  parseDateTimeLoop W dateTimeFormats s.

(** The flags of [gcli mail schedule]. *)
Record ScheduleFlags : Type := mkScheduleFlags {
  flagAccount : string;
  flagTo : list string;
  flagCc : list string;
  flagBcc : list string;
  flagSubject : string;
  flagBody : string;
  flagHtml : bool;
  flagAt : string
}.

(** [mailScheduleCmd]: [now] is the clock reading of the future-time
    check, [tID] and [tCreated] the two readings [AddScheduledEmail]
    takes.  The result carries the calls made on the way. *)
Definition mailScheduleCmd (W : World) (fl : ScheduleFlags)
  (now tID tCreated : Time) (d : Disk) : result unit * list Call * Disk :=
  if (length (flagTo fl) =? 0)%nat
  then (Err "at least one recipient is required (--to)", [], d)
  else if (flagSubject fl =? "")%string
  then (Err "subject is required (--subject)", [], d)
  else if (flagBody fl =? "")%string
  then (Err "body is required (--body)", [], d)
  else if (flagAt fl =? "")%string
  then (Err "schedule time is required (--at)", [], d)
  else
  match parseDateTime W (flagAt fl) with
  | Err m => (Err (wrapErr "invalid schedule time: " m), [], d)
  | Ok scheduledAt =>
  if Before scheduledAt now
  then (Err "schedule time must be in the future", [], d)
  else
  match config_Load W with
  | Some m => (Err (wrapErr "failed to load config: " m), [CallConfigLoad], d)
  | None =>
  match cfg_GetAccount W (flagAccount fl) with
  | Err m => (Err m, [CallConfigLoad; CallGetAccount (flagAccount fl)], d)
  | Ok (name, acc) =>
  match NewClient W name acc with
  | Err m =>
      (Err m,
       [CallConfigLoad; CallGetAccount (flagAccount fl); CallNewClient name], d)
  | Ok client =>
  let draft :=
    mkDraftEmail (flagTo fl) (flagCc fl) (flagBcc fl) (flagSubject fl)
      (flagBody fl) (flagHtml fl) in
  match CreateDraft client draft with
  | Err m =>
      (Err m,
       [CallConfigLoad; CallGetAccount (flagAccount fl); CallNewClient name;
        CallCreateDraft name draft], d)
  | Ok draftID =>
  let scheduled :=
    mkScheduledEmailData "" name draftID (flagTo fl) (flagCc fl) (flagBcc fl)
      (flagSubject fl) (flagBody fl) (flagHtml fl) scheduledAt zeroTime false
      zeroTime "" in
  let calls :=
    [CallConfigLoad; CallGetAccount (flagAccount fl); CallNewClient name;
     CallCreateDraft name draft; CallAddScheduledEmail scheduled] in
  match AddScheduledEmail tID tCreated scheduled d with
  | (Err m, d') => (Err (wrapErr "failed to schedule email: " m), calls, d')
  | (Ok _, d') => (Ok tt, calls, d')
  end
  end
  end
  end
  end
  end.

(** What one run of [gcli mail scheduled send] did: its return value,
    the due records it found, the calls it made, and the two counts of
    its summary line when that line is printed. *)
Record SendReport : Type := mkSendReport {
  ret : result unit;
  found : list ScheduledEmailData;
  calls : list Call;
  summary : option (nat * nat)
}.

(** The loop of [mailScheduledSendCmd] over the due records.  [i]
    counts the iterations and [clock i] is the reading of the clock
    that [MarkScheduledEmailSent] takes in iteration [i].  The results
    of the two Mark calls are dropped, as in the source. *)
Fixpoint sendLoop (W : World) (clock : nat -> Time) (i : nat)
  (pending : list ScheduledEmailData) (sentCount errorCount : nat)
  (log : list Call) (d : Disk) : nat * nat * list Call * Disk :=
  match pending with
  | [] => (sentCount, errorCount, log, d)
  | e :: rest =>
      match cfg_GetAccount W (Account e) with
      | Err err =>
          sendLoop W clock (S i) rest sentCount (S errorCount)
            (log ++ [CallGetAccount (Account e); CallMarkError (ID e) err])
            (snd (MarkScheduledEmailError (ID e) err d))
      | Ok (_, acc) =>
      match NewClient W (Account e) acc with
      | Err err =>
          sendLoop W clock (S i) rest sentCount (S errorCount)
            (log ++ [CallGetAccount (Account e); CallNewClient (Account e);
                     CallMarkError (ID e) err])
            (snd (MarkScheduledEmailError (ID e) err d))
      | Ok client =>
      match SendDraft client (DraftID e) with
      | Err err =>
          sendLoop W clock (S i) rest sentCount (S errorCount)
            (log ++ [CallGetAccount (Account e); CallNewClient (Account e);
                     CallSendDraft (Account e) (DraftID e);
                     CallMarkError (ID e) err])
            (snd (MarkScheduledEmailError (ID e) err d))
      | Ok msgID =>
          sendLoop W clock (S i) rest (S sentCount) errorCount
            (log ++ [CallGetAccount (Account e); CallNewClient (Account e);
                     CallSendDraft (Account e) (DraftID e);
                     CallMarkSent (ID e) msgID])
            (snd (MarkScheduledEmailSent (ID e) msgID (clock i) d))
      end
      end
      end
  end.

(** [mailScheduledSendCmd]: [now] is the clock reading taken by
    [GetPendingScheduledEmails]. *)
Definition mailScheduledSendCmd (W : World) (account : string) (dryRun : bool)
  (now : Time) (clock : nat -> Time) (d : Disk) : SendReport * Disk :=
  match GetPendingScheduledEmails account now d with
  | Err m => (mkSendReport (Err m) [] [] None, d)
  | Ok pending =>
      if (length pending =? 0)%nat
      then (mkSendReport (Ok tt) pending [] None, d)
      else if dryRun
      then (mkSendReport (Ok tt) pending [] None, d)
      else
        match config_Load W with
        | Some m =>
            (mkSendReport (Err (wrapErr "failed to load config: " m)) pending
               [CallConfigLoad] None, d)
        | None =>
            match sendLoop W clock 0 pending 0 0 [CallConfigLoad] d with
            | (sentCount, errorCount, log, d') =>
                (mkSendReport (Ok tt) pending log
                   (Some (sentCount, errorCount)), d')
            end
        end
  end.

(* ================================================================= *)
(** ** Package cmd: the multi-account listings *)

(** The accounts a listing queries. *)
Definition selectAccounts (W : World) (allAccounts : bool) (account : string)
  : result (list string) :=
  if allAccounts then Ok (cfg_GetAllAccounts W)
  else
    match cfg_GetAccount W account with
    | Err m => Err m
    | Ok (name, _) => Ok [name]
    end.

(** The fan-in of the per-account goroutines.  [finished] lists the
    accounts in the order in which their goroutines reach the end of
    their work; each one appends its results to the shared slice under
    the mutex, or sends its error on the channel.  [all] and [errs]
    are the shared slice and the channel's content so far. *)
Fixpoint fanIn {X : Type} (task : string -> result (list X))
  (finished : list string) (all : list X) (errs : list string)
  : list X * list string :=
  match finished with
  | [] => (all, errs)
  | name :: rest =>
      match task name with
      | Ok xs => fanIn task rest (all ++ xs) errs
      | Err m => fanIn task rest all (errs ++ [m])
      end
  end.

(** The body of the goroutine of [mailReadCmd]. *)
Definition mailReadTask (W : World) (query : string) (limit : Z) (name : string)
  : result (list output.EmailSummary) :=
  match cfg_GetAccount W name with
  | Err m => Err ("[" ++ name ++ "] " ++ m)%string
  | Ok (_, acc) =>
      match NewClient W name acc with
      | Err m => Err ("[" ++ name ++ "] " ++ m)%string
      | Ok client =>
          match ListMessages client query limit with
          | Err m => Err ("[" ++ name ++ "] " ++ m)%string
          | Ok emails => Ok emails
          end
      end
  end.

(** [mailReadCmd].  [sched] is the scheduler: it maps the accounts
    started to the order in which their goroutines finish.  The result
    is the list of errors reported and the list handed to
    [output.PrintEmailList]. *)
Definition mailReadCmd (W : World) (sched : list string -> list string)
  (account : string) (allAccounts : bool) (query : string) (limit : Z)
  : result (list string * list output.EmailSummary) :=
  match config_Load W with
  | Some m => Err (wrapErr "failed to load config: " m)
  | None =>
      if negb (cfg_HasAccounts W)
      then Err "no accounts configured. Run 'gcli auth add <name>' first"
      else
        match selectAccounts W allAccounts account with
        | Err m => Err m
        | Ok accounts =>
            match fanIn (mailReadTask W query limit) (sched accounts) [] [] with
            | (allEmails, errs) => Ok (errs, allEmails)
            end
        end
  end.

(** The body of the goroutine of [calListCmd]. *)
Definition calListTask (W : World) (from to : Time) (limit : Z) (name : string)
  : result (list output.CalendarEventSummary) :=
  match cfg_GetAccount W name with
  | Err m => Err ("[" ++ name ++ "] " ++ m)%string
  | Ok (_, acc) =>
      match calendar.NewClient W name acc with
      | Err m => Err ("[" ++ name ++ "] " ++ m)%string
      | Ok client =>
          match calendar.ListEvents client from to limit with
          | Err m => Err ("[" ++ name ++ "] " ++ m)%string
          | Ok events => Ok events
          end
      end
  end.

(** The body of the inner loop of [sortEventsByStart]:
    [if events[j].Start.Before(events[i].Start) { swap }].  Both
    indices are in range wherever the loops call it. *)
Definition swapIfBefore (i j : nat) (events : list output.CalendarEventSummary)
  : list output.CalendarEventSummary :=
  match events !! i, events !! j with
  | Some ei, Some ej =>
      if Before (output.Start ej) (output.Start ei)
      then <[j := ei]> (<[i := ej]> events)
      else events
  | _, _ => events
  end.

(** [for j := ...; j < len(events); j++], with [n] iterations left. *)
Fixpoint sortInner (i j n : nat) (events : list output.CalendarEventSummary)
  : list output.CalendarEventSummary :=
  match n with
  | O => events
  | S n' => sortInner i (S j) n' (swapIfBefore i j events)
  end.

(** [for i := ...; i < len(events)-1; i++], with [n] iterations left. *)
Fixpoint sortOuter (i n : nat) (events : list output.CalendarEventSummary)
  : list output.CalendarEventSummary :=
  match n with
  | O => events
  | S n' =>
      sortOuter (S i) n'
        (sortInner i (S i) (length events - S i) events)
  end.

(** [sortEventsByStart] *)
Definition sortEventsByStart (events : list output.CalendarEventSummary)
  : list output.CalendarEventSummary :=
  sortOuter 0 (length events - 1) events.

(** [calListCmd], from the parsed date range on.  The result is the
    list of errors reported and the list handed to
    [output.PrintCalendarEventList]. *)
Definition calListCmd (W : World) (sched : list string -> list string)
  (account : string) (allAccounts : bool) (from to : Time) (limit : Z)
  : result (list string * list output.CalendarEventSummary) :=
  match config_Load W with
  | Some m => Err (wrapErr "failed to load config: " m)
  | None =>
      if negb (cfg_HasAccounts W)
      then Err "no accounts configured. Run 'gcli auth add <name>' first"
      else
        match selectAccounts W allAccounts account with
        | Err m => Err m
        | Ok accounts =>
            match fanIn (calListTask W from to limit) (sched accounts) [] [] with
            | (allEvents, errs) => Ok (errs, sortEventsByStart allEvents)
            end
        end
  end.

(* ================================================================= *)
(** ** Specification-side predicates *)

(** A due record, in the words of the design document: not sent, no
    error, scheduled strictly before [now], and of the account asked
    for when one is asked for. *)
Definition isPending (accountName : string) (now : Time)
  (e : ScheduledEmailData) : Prop :=
  Sent e = false /\ Error e = "" /\ ScheduledAt e < now /\
  (accountName <> "" -> Account e = accountName).

Definition pendingb (accountName : string) (now : Time)
  (e : ScheduledEmailData) : bool :=
  negb (Sent e) && (Error e =? "")%string && (ScheduledAt e <? now)
  && ((accountName =? "")%string || (Account e =? accountName)%string).

(** A record that [ClearSent] keeps, in the words of the design
    document. *)
Definition keptByClearSent (accountName : string) (e : ScheduledEmailData)
  : Prop :=
  Sent e = false \/ (accountName <> "" /\ Account e <> accountName).

Definition keptb (accountName : string) (e : ScheduledEmailData) : bool :=
  negb (Sent e)
  || (negb (accountName =? "")%string && negb (Account e =? accountName)%string).

(** A disk on which every collection can be encoded and the store's
    directory and file written. *)
Definition writable (d : Disk) : Prop :=
  pathErr d = None /\ ensureErr d = None
  /\ (forall emails, marshalErr d emails = None) /\ writeErr d = None.

(** The disk after a successful rewrite of the collection. *)
Definition rewritten (emails : list ScheduledEmailData) (d : Disk) : Disk :=
  mkDisk (Stored emails) (pathErr d) (ensureErr d) (marshalErr d) (writeErr d)
    (S (writes d)).

(** The record [AddScheduledEmail] stores for an input item. *)
Definition addedRecord (tID tCreated : Time) (email : ScheduledEmailData)
  : ScheduledEmailData :=
  mkScheduledEmailData (generateID tID) (Account email) (DraftID email)
    (To email) (CC email) (BCC email) (Subject email) (Body email)
    (IsHTML email) (ScheduledAt email) tCreated false (SentAt email)
    (Error email).

(** A sequence of [Add] calls, each with its two clock readings and its
    item; a failing call leaves the disk as it was. *)
Fixpoint addAll (adds : list (Time * Time * ScheduledEmailData)) (d : Disk)
  : Disk :=
  match adds with
  | [] => d
  | (tID, tCreated, email) :: rest =>
      addAll rest (snd (AddScheduledEmail tID tCreated email d))
  end.

(** The ids a store holds. *)
Definition storeIDs (d : Disk) : list string :=
  match LoadScheduledEmails d with
  | Ok emails => map ID emails
  | Err _ => []
  end.

(** Two records that agree on every field but [Sent] and [SentAt]. *)
Definition sameButSent (e e' : ScheduledEmailData) : Prop :=
  ID e' = ID e /\ Account e' = Account e /\ DraftID e' = DraftID e /\
  To e' = To e /\ CC e' = CC e /\ BCC e' = BCC e /\ Subject e' = Subject e /\
  Body e' = Body e /\ IsHTML e' = IsHTML e /\ ScheduledAt e' = ScheduledAt e /\
  CreatedAt e' = CreatedAt e /\ Error e' = Error e.

(** The message of the error [UpdateScheduledEmail] returns for an id
    it does not find. *)
Definition notFound (id : string) : string :=
  ("scheduled email '" ++ id ++ "' not found")%string.

(** Sample data for the worked instances below. *)
Definition mail (id account : string) (scheduledAt : Time) (sent : bool)
  (err : string) : ScheduledEmailData :=
  mkScheduledEmailData id account ("draft-" ++ id)%string ["a@example.com"] []
    [] "Hello" "Message" false scheduledAt 0 sent zeroTime err.

Definition diskOf (emails : list ScheduledEmailData) : Disk :=
  mkDisk (Stored emails) None None (fun _ => None) None 0.

Definition sampleStore : list ScheduledEmailData :=
  [ mail "1" "work" 5 false "";
    mail "2" "work" 10 false "";
    mail "3" "personal" 3 true "";
    mail "4" "work" 4 true "";
    mail "5" "personal" 2 false "quota exceeded";
    mail "6" "personal" 6 false "" ].

(** How the attempt on one due record ends: the draft is sent and
    the service returns a message id, or one of the three steps
    (account resolution, session, send) fails with an error text. *)
Inductive Attempt : Type :=
| Delivered (msgID : string)
| Failed (err : string).

Definition attemptOf (W : World) (e : ScheduledEmailData) : Attempt :=
  match cfg_GetAccount W (Account e) with
  | Err err => Failed err
  | Ok (_, acc) =>
      match NewClient W (Account e) acc with
      | Err err => Failed err
      | Ok client =>
          match SendDraft client (DraftID e) with
          | Err err => Failed err
          | Ok msgID => Delivered msgID
          end
      end
  end.

Definition deliveredb (W : World) (e : ScheduledEmailData) : bool :=
  match attemptOf W e with Delivered _ => true | Failed _ => false end.

Definition failedb (W : World) (e : ScheduledEmailData) : bool :=
  negb (deliveredb W e).

(** The collaborator calls one attempt makes before its Mark call. *)
Definition stepsOf (W : World) (e : ScheduledEmailData) : list Call :=
  match cfg_GetAccount W (Account e) with
  | Err _ => [CallGetAccount (Account e)]
  | Ok (_, acc) =>
      match NewClient W (Account e) acc with
      | Err _ => [CallGetAccount (Account e); CallNewClient (Account e)]
      | Ok _ =>
          [CallGetAccount (Account e); CallNewClient (Account e);
           CallSendDraft (Account e) (DraftID e)]
      end
  end.

(** The Mark call an attempt ends with. *)
Definition markOf (W : World) (e : ScheduledEmailData) : Call :=
  match attemptOf W e with
  | Delivered msgID => CallMarkSent (ID e) msgID
  | Failed err => CallMarkError (ID e) err
  end.

(** All the calls of one iteration of the loop. *)
Definition callsOf (W : World) (e : ScheduledEmailData) : list Call :=
  stepsOf W e ++ [markOf W e].

(** The disk after the Mark call of one iteration, its result dropped. *)
Definition markStep (W : World) (t : Time) (e : ScheduledEmailData) (d : Disk)
  : Disk :=
  match attemptOf W e with
  | Delivered msgID => snd (MarkScheduledEmailSent (ID e) msgID t d)
  | Failed err => snd (MarkScheduledEmailError (ID e) err d)
  end.

Fixpoint markSteps (W : World) (clock : nat -> Time) (i : nat)
  (pending : list ScheduledEmailData) (d : Disk) : Disk :=
  match pending with
  | [] => d
  | e :: rest => markSteps W clock (S i) rest (markStep W (clock i) e d)
  end.

(** What the Mark call of an attempt writes into the record it finds. *)
Definition markUpd (W : World) (t : Time) (e : ScheduledEmailData)
  : ScheduledEmailData -> ScheduledEmailData :=
  match attemptOf W e with
  | Delivered _ => fun r => set_SentAt t (set_Sent true r)
  | Failed err => fun r => set_Error err r
  end.

(** A record [e'] that is [e] after the Mark call of its own attempt. *)
Definition markedAs (W : World) (e e' : ScheduledEmailData) : Prop :=
  match attemptOf W e with
  | Delivered _ => sameButSent e e' /\ Sent e' = true
  | Failed err => e' = set_Error err e
  end.

(** The send calls in a log, each with its account and draft. *)
Fixpoint sendsOf (log : list Call) : list (string * string) :=
  match log with
  | [] => []
  | CallSendDraft name draftID :: rest => (name, draftID) :: sendsOf rest
  | _ :: rest => sendsOf rest
  end.

(** The Mark calls in a log. *)
Fixpoint marksOf (log : list Call) : list Call :=
  match log with
  | [] => []
  | CallMarkSent id m :: rest => CallMarkSent id m :: marksOf rest
  | CallMarkError id m :: rest => CallMarkError id m :: marksOf rest
  | _ :: rest => marksOf rest
  end.

(** What the Mark calls of the attempts on [pending], taken in order
    from iteration [i] on, make of a record [r] of the store when ids
    identify records. *)
Fixpoint applyMarks (W : World) (clock : nat -> Time) (i : nat)
  (pending : list ScheduledEmailData) (r : ScheduledEmailData)
  : ScheduledEmailData :=
  match pending with
  | [] => r
  | x :: rest =>
      applyMarks W clock (S i) rest
        (if (ID r =? ID x)%string then markUpd W (clock i) x r else r)
  end.

(** An attempt that gets as far as the send call. *)
Definition reachesSend (W : World) (e : ScheduledEmailData) : bool :=
  match cfg_GetAccount W (Account e) with
  | Err _ => false
  | Ok (_, acc) =>
      match NewClient W (Account e) acc with
      | Err _ => false
      | Ok _ => true
      end
  end.

(** A list of events in ascending order of start time. *)
Definition ascendingByStart (events : list output.CalendarEventSummary) : Prop :=
  forall p q a b,
    (p < q)%nat -> events !! p = Some a -> events !! q = Some b ->
    output.Start a <= output.Start b.

(** A list of emails in ascending order of message date. *)
Definition ascendingByDate (emails : list output.EmailSummary) : Prop :=
  forall p q a b,
    (p < q)%nat -> emails !! p = Some a -> emails !! q = Some b ->
    output.Date a <= output.Date b.

(** The invariant of the outer loop of [sortEventsByStart] before
    iteration [i]: every event at an index below [i] starts no later
    than every event after it. *)
Definition sortedUpTo (i : nat) (events : list output.CalendarEventSummary)
  : Prop :=
  forall p q a b,
    (p < i)%nat -> (p < q)%nat ->
    events !! p = Some a -> events !! q = Some b ->
    output.Start a <= output.Start b.

(** Sample mailboxes, as the mail service lists them (newest first),
    and sample agendas, as the calendar service lists them (by start
    time). *)
Definition message (id account : string) (date : Time) : output.EmailSummary :=
  output.mkEmailSummary id account "someone@example.com" "Hello" date "" false.

Definition event (id account : string) (start : Time)
  : output.CalendarEventSummary :=
  output.mkCalendarEventSummary id account "primary" "Meeting" start
    (start + 3600) "" "confirmed" false.

Definition sampleInbox (name : string) : list output.EmailSummary :=
  if (name =? "work")%string
  then [message "m2" "work" 200; message "m1" "work" 100]
  else [message "m3" name 150].

Definition sampleAgenda (name : string) : list output.CalendarEventSummary :=
  if (name =? "work")%string
  then [event "e2" "work" 30; event "e4" "work" 50]
  else [event "e1" name 10; event "e3" name 40].

(** Sample worlds.  Sessions open, and every draft is sent except
    ["draft-2"], which the service refuses; [load] is the error of
    [config.Load], if any, and [getAccount] the account lookup. *)
Definition sampleWorldWith (load : option string)
  (getAccount : string -> result (string * config.AccountConfig)) : World :=
  mkWorld unit unit unit
    load true ["work"; "personal"]
    getAccount
    (fun _ _ => Ok tt)
    (fun _ => Ok tt)
    (fun _ _ => Ok "draft-new")
    (fun _ draftID =>
       if (draftID =? "draft-2")%string then Err "quota exceeded"
       else Ok ("msg-" ++ draftID)%string)
    (fun _ name _ _ => Ok (sampleInbox name))
    (fun _ => Ok tt)
    (fun _ _ name _ _ _ => Ok (sampleAgenda name))
    (fun layout value =>
       if (layout =? "2006-01-02T15:04:05")%string
       then
         if (value =? "2024-12-25T10:00:00")%string
         then Ok 1735120800000000000
         else Err "parsing time"
       else Err "parsing time")
    (fun t => t).

(** The accounts [work] and [personal] are configured. *)
Definition sampleAccounts (name : string)
  : result (string * config.AccountConfig) :=
  if (name =? "work")%string || (name =? "personal")%string
  then Ok (name, config.mkAccountConfig "id" "secret" "")
  else Err ("account '" ++ name ++ "' not found")%string.

Definition sampleWorld : World := sampleWorldWith None sampleAccounts.

Definition sampleClock (i : nat) : Time := 1000 + Z.of_nat i.

Definition sampleFlags : ScheduleFlags :=
  mkScheduleFlags "work" ["user@example.com"] [] [] "Hello" "Message" false
    "2024-12-25T10:00:00".

(* ================================================================= *)
(** ** Package gmail: listing the store; package cmd: list and clear *)

Module outputScheduled.

(** [output.ScheduledEmail], in a module of its own for its field
    names. *)
Record ScheduledEmail : Type := mkScheduledEmail {
  ID : string;
  Account : string;
  DraftID : string;
  To : list string;
  Subject : string;
  ScheduledAt : Time;
  CreatedAt : Time;
  Sent : bool;
  SentAt : Time;
  Error : string
}.

End outputScheduled.

(** The element [GetScheduledEmailsByAccount] appends for a record. *)
Definition toListing (e : ScheduledEmailData) : outputScheduled.ScheduledEmail :=
  outputScheduled.mkScheduledEmail (ID e) (Account e) (DraftID e) (To e)
    (Subject e) (ScheduledAt e) (CreatedAt e) (Sent e) (SentAt e) (Error e).

(** The loop of [GetScheduledEmailsByAccount]. *)
Fixpoint byAccountLoop (accountName : string) (emails : list ScheduledEmailData)
  (result : list outputScheduled.ScheduledEmail)
  : list outputScheduled.ScheduledEmail :=
  match emails with
  | [] => result
  | e :: rest =>
      if (accountName =? "")%string || (Account e =? accountName)%string
      then byAccountLoop accountName rest (result ++ [toListing e])
      else byAccountLoop accountName rest result
  end.

(** [GetScheduledEmailsByAccount] *)
Definition GetScheduledEmailsByAccount (accountName : string) (d : Disk)
  : result (list outputScheduled.ScheduledEmail) :=
  match LoadScheduledEmails d with
  | Err m => Err m
  | Ok emails => Ok (byAccountLoop accountName emails [])
  end.

(** The [--pending] loop of [mailScheduledListCmd]. *)
Fixpoint pendingOnlyLoop (emails pending : list outputScheduled.ScheduledEmail)
  : list outputScheduled.ScheduledEmail :=
  match emails with
  | [] => pending
  | e :: rest =>
      if negb (outputScheduled.Sent e)
         && (outputScheduled.Error e =? "")%string
      then pendingOnlyLoop rest (pending ++ [e])
      else pendingOnlyLoop rest pending
  end.

(** [mailScheduledListCmd]: the list it hands to
    [output.PrintScheduledEmails]. *)
Definition mailScheduledListCmd (accountName : string) (pendingOnly : bool)
  (d : Disk) : result (list outputScheduled.ScheduledEmail) :=
  match GetScheduledEmailsByAccount accountName d with
  | Err m => Err m
  | Ok emails =>
      if pendingOnly then Ok (pendingOnlyLoop emails []) else Ok emails
  end.

(** The status cell [output.PrintScheduledEmails] prints for a row. *)
Definition scheduledStatus (email : outputScheduled.ScheduledEmail) : string :=
  if outputScheduled.Sent email then "✅ Sent"
  else if negb (outputScheduled.Error email =? "")%string then "❌ Error"
  else "⏳ Pending".

(** [mailScheduledClearCmd] with its flags [--account], [--sent] and
    [--all]. *)
Definition mailScheduledClearCmd (accountName : string) (sentOnly all : bool)
  (d : Disk) : result unit * Disk :=
  if sentOnly then
    match ClearSentScheduledEmails accountName d with
    | (Err m, d') => (Err m, d')
    | (Ok _, d') => (Ok tt, d')
    end
  else if all then
    match ClearAllScheduledEmails accountName d with
    | (Err m, d') => (Err m, d')
    | (Ok _, d') => (Ok tt, d')
    end
  else
    (Err "specify --sent to clear sent emails or --all to clear all", d).

(* ================================================================= *)
(** ** Package output and package cmd: cutting strings *)

(** [s[:n]], for [n] within the bounds of [s]. *)
Definition sliceTo (n : nat) (s : string) : string := String.substring 0 n s.

(** [output.truncate]; [None] is the run-time panic of [s[:maxLen]] on
    a negative [maxLen]. *)
Definition truncate (s : string) (maxLen : Z) : option string :=
  if Z.of_nat (String.length s) <=? maxLen then Some s
  else if maxLen <=? 3 then
    if maxLen <? 0 then None else Some (sliceTo (Z.to_nat maxLen) s)
  else Some (sliceTo (Z.to_nat (maxLen - 3)) s ++ "...")%string.

(** [truncateString] of package cmd, with the same reading of [None]. *)
Definition truncateString (s : string) (maxLen : Z) : option string :=
  if Z.of_nat (String.length s) <=? maxLen then Some s
  else if maxLen <? 0 then None else Some (sliceTo (Z.to_nat maxLen) s).

(* ================================================================= *)
(** ** Package gmail: reading a message *)

(** A Unicode code point, as the [range] over a string yields them. *)
Definition rune := Z.

(** The loop of [stripHTML] over the runes of its argument; [result]
    is what the builder holds.  [60] is ['<'] and [62] is ['>']. *)
Fixpoint stripHTMLLoop (inTag : bool) (runes result : list rune) : list rune :=
  match runes with
  | [] => result
  | r :: rest =>
      if r =? 60 then stripHTMLLoop true rest result
      else if r =? 62 then stripHTMLLoop false rest result
      else if negb inTag then stripHTMLLoop inTag rest (result ++ [r])
      else stripHTMLLoop inTag rest result
  end.

(** [stripHTML], on the runes of the string. *)
Definition stripHTMLRunes (runes : list rune) : list rune :=
  stripHTMLLoop false runes [].





Module gmailapi.

(** [gmail.MessagePart] of the Google API, with the fields the package
    reads; [Body] is the [Data] of the part's body, [None] when the
    part has no body. *)
#[warnings="-register-all"]
Inductive MessagePart : Type :=
| mkMessagePart (MimeType Filename : string) (Body : option string)
    (Parts : list MessagePart).

Definition MimeType (p : MessagePart) : string :=
  match p with mkMessagePart m _ _ _ => m end.
Definition Filename (p : MessagePart) : string :=
  match p with mkMessagePart _ f _ _ => f end.
Definition Body (p : MessagePart) : option string :=
  match p with mkMessagePart _ _ b _ => b end.
Definition Parts (p : MessagePart) : list MessagePart :=
  match p with mkMessagePart _ _ _ ps => ps end.

End gmailapi.

(** [extractAttachmentNames] *)
Fixpoint extractAttachmentNames (payload : gmailapi.MessagePart) : list string :=
  match payload with
  | gmailapi.mkMessagePart _ filename _ parts =>
      let names := if negb (filename =? "")%string then [filename] else [] in
      (fix loop (ps : list gmailapi.MessagePart) (names : list string)
         : list string :=
         match ps with
         | [] => names
         | part :: rest => loop rest (names ++ extractAttachmentNames part)
         end) parts names
  end.

(** The attachment check of [getMessageSummary]: the loop over the
    parts of the payload, which stops at the first part with a file
    name. *)
Fixpoint hasAttachLoop (parts : list gmailapi.MessagePart) : bool :=
  match parts with
  | [] => false
  | part :: rest =>
      if negb (gmailapi.Filename part =? "")%string then true
      else hasAttachLoop rest
  end.

Definition summaryHasAttach (payload : gmailapi.MessagePart) : bool :=
  hasAttachLoop (gmailapi.Parts payload).

(** A loop of [extractBody] over the parts: the first part of the MIME
    type asked for whose body decodes. *)
Fixpoint firstBodyOfType (decode : string -> option string) (mime : string)
  (parts : list gmailapi.MessagePart) : option string :=
  match parts with
  | [] => None
  | part :: rest =>
      if (gmailapi.MimeType part =? mime)%string then
        match gmailapi.Body part with
        | Some data =>
            if negb (data =? "")%string then
              match decode data with
              | Some text => Some text
              | None => firstBodyOfType decode mime rest
              end
            else firstBodyOfType decode mime rest
        | None => firstBodyOfType decode mime rest
        end
      else firstBodyOfType decode mime rest
  end.

(** [extractBody] on a payload that is not nil.  [decode] is
    [base64.URLEncoding.DecodeString], [strip] is [stripHTML] as a
    function on strings. *)
Fixpoint extractBody (decode : string -> option string)
  (strip : string -> string) (payload : gmailapi.MessagePart) : string :=
  match payload with
  | gmailapi.mkMessagePart _ _ body parts =>
      let direct :=
        match body with
        | Some data =>
            if negb (data =? "")%string then decode data else None
        | None => None
        end in
      match direct with
      | Some text => text
      | None =>
          match firstBodyOfType decode "text/plain" parts with
          | Some text => text
          | None =>
              match firstBodyOfType decode "text/html" parts with
              | Some text => strip text
              | None =>
                  (fix nested (ps : list gmailapi.MessagePart) : string :=
                     match ps with
                     | [] => ""
                     | part :: rest =>
                         let body := extractBody decode strip part in
                         if negb (body =? "")%string then body
                         else nested rest
                     end) parts
              end
          end
      end
  end.

(* ================================================================= *)
(** ** Package calendar: converting and updating events *)

Module gcal.

(** [calendar.EventDateTime] and [calendar.Event] of the Google API,
    with the fields the package reads or writes; [Start] and [End_]
    are [None] for a nil pointer, [Attendees] holds the attendees'
    addresses. *)
Record EventDateTime : Type := mkEventDateTime {
  DateTime : string;
  Date : string
}.

Record Event : Type := mkEvent {
  Id : string;
  Summary : string;
  Description : string;
  Location : string;
  Status : string;
  Start : option EventDateTime;
  End_ : option EventDateTime;
  Attendees : list string
}.

End gcal.

(** The start of [eventToSummary]: the time and the all-day mark it
    reads off [event.Start]. *)
Definition summaryStart (W : World) (start : option gcal.EventDateTime)
  : Time * bool :=
  match start with
  | None => (zeroTime, false)
  | Some s =>
      if negb (gcal.DateTime s =? "")%string then
        match time_Parse W "2006-01-02T15:04:05Z07:00" (gcal.DateTime s) with
        | Ok t => (t, false)
        | Err _ => (zeroTime, false)
        end
      else if negb (gcal.Date s =? "")%string then
        match time_Parse W "2006-01-02" (gcal.Date s) with
        | Ok t => (t, true)
        | Err _ => (zeroTime, false)
        end
      else (zeroTime, false)
  end.

(** The end of [eventToSummary]. *)
Definition summaryEnd (W : World) (end_ : option gcal.EventDateTime) : Time :=
  match end_ with
  | None => zeroTime
  | Some e =>
      if negb (gcal.DateTime e =? "")%string then
        match time_Parse W "2006-01-02T15:04:05Z07:00" (gcal.DateTime e) with
        | Ok t => t
        | Err _ => zeroTime
        end
      else if negb (gcal.Date e =? "")%string then
        match time_Parse W "2006-01-02" (gcal.Date e) with
        | Ok t => t
        | Err _ => zeroTime
        end
      else zeroTime
  end.

(** [eventToSummary] *)
Definition eventToSummary (W : World) (event : gcal.Event)
  : output.CalendarEventSummary :=
  output.mkCalendarEventSummary (gcal.Id event) "" "" (gcal.Summary event)
    (fst (summaryStart W (gcal.Start event)))
    (summaryEnd W (gcal.End_ event))
    (gcal.Location event) (gcal.Status event)
    (snd (summaryStart W (gcal.Start event))).

(** The loop of [ListEvents] over the items of the response. *)
Fixpoint listEventsLoop (W : World) (accountName calendarID : string)
  (items : list gcal.Event) (summaries : list output.CalendarEventSummary)
  : list output.CalendarEventSummary :=
  match items with
  | [] => summaries
  | ev :: rest =>
      let summary := eventToSummary W ev in
      let summary :=
        output.mkCalendarEventSummary (output.evID summary) accountName
          calendarID (output.Summary summary) (output.Start summary)
          (output.End_ summary) (output.Location summary)
          (output.Status summary) (output.AllDay summary) in
      listEventsLoop W accountName calendarID rest (summaries ++ [summary])
  end.

(** [calendar.EventInput] *)
Record EventInput : Type := mkEventInput {
  inSummary : string;
  inDescription : string;
  inLocation : string;
  inStart : Time;
  inEnd : Time;
  inAllDay : bool;
  inAttendees : list string
}.

(** [t.IsZero()] *)
Definition IsZero (t : Time) : bool := t =? zeroTime.

(** The date-time [UpdateEvent] and [CreateEvent] make of a time;
    [Format] is [t.Format(layout)]. *)
Definition inputDateTime (Format : string -> Time -> string) (allDay : bool)
  (t : Time) : gcal.EventDateTime :=
  if allDay then gcal.mkEventDateTime "" (Format "2006-01-02" t)
  else gcal.mkEventDateTime (Format "2006-01-02T15:04:05Z07:00" t) "".

(** The body of [UpdateEvent] between the fetch and the update call:
    what it makes of the event it fetched. *)
Definition updatedEvent (Format : string -> Time -> string)
  (event : gcal.Event) (input : EventInput) : gcal.Event :=
  gcal.mkEvent (gcal.Id event)
    (if negb (inSummary input =? "")%string then inSummary input
     else gcal.Summary event)
    (if negb (inDescription input =? "")%string then inDescription input
     else gcal.Description event)
    (if negb (inLocation input =? "")%string then inLocation input
     else gcal.Location event)
    (gcal.Status event)
    (if negb (IsZero (inStart input))
     then Some (inputDateTime Format (inAllDay input) (inStart input))
     else gcal.Start event)
    (if negb (IsZero (inEnd input))
     then Some (inputDateTime Format (inAllDay input) (inEnd input))
     else gcal.End_ event)
    (if (0 <? length (inAttendees input))%nat then inAttendees input
     else gcal.Attendees event).

(** [Client.UpdateEvent]; [Get] and [Update] are the calls
    [Events.Get] and [Events.Update] on the client's calendar.  The
    second component is the event submitted, if the call got that
    far. *)
Definition UpdateEvent (Get : string -> result gcal.Event)
  (Update : string -> gcal.Event -> result unit)
  (Format : string -> Time -> string) (eventID : string) (input : EventInput)
  : result unit * option gcal.Event :=
  match Get eventID with
  | Err m => (Err (wrapErr "failed to get event: " m), None)
  | Ok event =>
      let event := updatedEvent Format event input in
      match Update eventID event with
      | Err m => (Err (wrapErr "failed to update event: " m), Some event)
      | Ok _ => (Ok tt, Some event)
      end
  end.

(* ================================================================= *)
(** ** Package auth: the token files *)

Module oauth2.

(** [oauth2.Token] *)
Record Token : Type := mkToken {
  AccessToken : string;
  TokenType : string;
  RefreshToken : string;
  Expiry : Time
}.

End oauth2.

(** What reading a token file yields. *)
Inductive TokenFile : Type :=
| NoToken                              (* os.IsNotExist *)
| TokenStored (token : oauth2.Token)   (* a well-formed token *)
| TokenGarbled (msg : string)          (* json.Unmarshal fails *)
| TokenUnreadable (msg : string).      (* any other read error *)

(** The part of the machine package auth touches: [tokenPath] is
    [config.GetTokenPath], [tokenFiles] maps a path to its file,
    [tokenEnsureErr], [tokenMarshalErr], [tokenWriteErr] and
    [tokenRemoveErr] are the failures of [config.EnsureConfigDir],
    [json.MarshalIndent], [os.WriteFile] and [os.Remove] (on a file
    that is there). *)
Record TokenDisk : Type := mkTokenDisk {
  tokenPath : string -> result string;
  tokenFiles : string -> TokenFile;
  tokenEnsureErr : option string;
  tokenMarshalErr : oauth2.Token -> option string;
  tokenWriteErr : option string;
  tokenRemoveErr : option string
}.

(** The files with the one at [path] replaced. *)
Definition setTokenFile (path : string) (f : TokenFile) (td : TokenDisk)
  : TokenDisk :=
  mkTokenDisk (tokenPath td)
    (fun p => if (p =? path)%string then f else tokenFiles td p)
    (tokenEnsureErr td) (tokenMarshalErr td) (tokenWriteErr td)
    (tokenRemoveErr td).

(** [LoadToken] *)
Definition LoadToken (accountName : string) (td : TokenDisk)
  : result oauth2.Token :=
  match tokenPath td accountName with
  | Err m => Err m
  | Ok path =>
      match tokenFiles td path with
      | NoToken =>
          Err ("no token found for account '" ++ accountName
               ++ "' - run 'gcli auth add " ++ accountName ++ "' first")%string
      | TokenUnreadable m => Err (wrapErr "failed to read token: " m)
      | TokenGarbled m => Err (wrapErr "failed to parse token: " m)
      | TokenStored token => Ok token
      end
  end.

(** [SaveToken]; a write that fails is taken to leave the file as it
    was. *)
Definition SaveToken (accountName : string) (token : oauth2.Token)
  (td : TokenDisk) : result unit * TokenDisk :=
  match tokenEnsureErr td with
  | Some m => (Err m, td)
  | None =>
      match tokenPath td accountName with
      | Err m => (Err m, td)
      | Ok path =>
          match tokenMarshalErr td token with
          | Some m => (Err (wrapErr "failed to marshal token: " m), td)
          | None =>
              match tokenWriteErr td with
              | Some m => (Err (wrapErr "failed to write token: " m), td)
              | None => (Ok tt, setTokenFile path (TokenStored token) td)
              end
          end
      end
  end.

(** [TokenExists]; [os.Stat] succeeds on a file that is there. *)
Definition TokenExists (accountName : string) (td : TokenDisk) : bool :=
  match tokenPath td accountName with
  | Err _ => false
  | Ok path =>
      match tokenFiles td path with
      | NoToken => false
      | _ => true
      end
  end.

(** [RemoveToken] *)
Definition RemoveToken (accountName : string) (td : TokenDisk)
  : result unit * TokenDisk :=
  match tokenPath td accountName with
  | Err m => (Err m, td)
  | Ok path =>
      match tokenFiles td path with
      | NoToken =>
          (Err ("remove " ++ path ++ ": no such file or directory")%string, td)
      | _ =>
          match tokenRemoveErr td with
          | Some m => (Err m, td)
          | None => (Ok tt, setTokenFile path NoToken td)
          end
      end
  end.

(** [GetClient]; [refresh] is the token the token source gives for the
    stored one.  The result is the token the HTTP client carries. *)
Definition GetClient (refresh : oauth2.Token -> result oauth2.Token)
  (accountName : string) (td : TokenDisk) : result oauth2.Token * TokenDisk :=
  match LoadToken accountName td with
  | Err m => (Err m, td)
  | Ok token =>
      match refresh token with
      | Err m => (Err (wrapErr "failed to refresh token: " m), td)
      | Ok newToken =>
          if negb (oauth2.AccessToken newToken =? oauth2.AccessToken token)%string
          then (Ok newToken, snd (SaveToken accountName newToken td))
          else (Ok newToken, td)
      end
  end.

(* ================================================================= *)
(** ** Specification-side predicates for the further properties *)

(** A disk whose store, when it loads, has pairwise distinct ids. *)
Definition idsDistinct (d : Disk) : Prop :=
  forall emails, LoadScheduledEmails d = Ok emails -> List.NoDup (map ID emails).

(** A record that is not both sent and marked with an error. *)
Definition exclusive (e : ScheduledEmailData) : Prop :=
  Sent e = true -> Error e = "".

(** The account test of the listings. *)
Definition ofAccount (accountName : string) (e : ScheduledEmailData) : bool :=
  (accountName =? "")%string || (Account e =? accountName)%string.

(** What the accounts that answer contribute to a fan-in, and the
    errors of those that do not. *)
Definition resultsOf {X : Type} (task : string -> result (list X))
  (names : list string) : list X :=
  flat_map (fun name => match task name with Ok xs => xs | Err _ => [] end)
    names.

Definition failuresOf {X : Type} (task : string -> result (list X))
  (names : list string) : list string :=
  flat_map (fun name => match task name with Ok _ => [] | Err m => [m] end)
    names.

Definition failsFor {X : Type} (task : string -> result (list X))
  (name : string) : bool :=
  match task name with Ok _ => false | Err _ => true end.

(** Two due records that share an id, the second with a draft the
    sample service refuses. *)
Definition sharedIdStore : list ScheduledEmailData :=
  [ mkScheduledEmailData "7" "work" "draft-1" ["a@example.com"] [] []
      "Hello" "Message" false 1 0 false zeroTime "";
    mkScheduledEmailData "7" "work" "draft-2" ["a@example.com"] [] []
      "Hello" "Message" false 2 0 false zeroTime "" ].

(** The body of a part that [extractBody] can use: it is there, its
    data is not empty and decodes. *)
Definition usableBody (decode : string -> option string)
  (part : gmailapi.MessagePart) : option string :=
  match gmailapi.Body part with
  | Some data => if negb (data =? "")%string then decode data else None
  | None => None
  end.

(** The first string of a list that is not empty, or the empty
    string. *)
Fixpoint firstNonEmpty (bodies : list string) : string :=
  match bodies with
  | [] => ""
  | body :: rest => if negb (body =? "")%string then body else firstNonEmpty rest
  end.

(** [partOf q p]: the part [q] is [p] itself or lies in [p] at any
    depth. *)
Inductive partOf : gmailapi.MessagePart -> gmailapi.MessagePart -> Prop :=
| partOf_self p : partOf p p
| partOf_nested q child p :
    In child (gmailapi.Parts p) -> partOf q child -> partOf q p.

(** A message whose only attachment lies one level down. *)
Definition nestedAttachment : gmailapi.MessagePart :=
  gmailapi.mkMessagePart "multipart/mixed" "" None
    [ gmailapi.mkMessagePart "text/plain" "" (Some "aGVsbG8=") [];
      gmailapi.mkMessagePart "multipart/related" "" None
        [ gmailapi.mkMessagePart "application/pdf" "report.pdf" None [] ] ].

(** What [ListEvents] makes of an item of the response. *)
Definition stamped (W : World) (accountName calendarID : string)
  (ev : gcal.Event) : output.CalendarEventSummary :=
  let summary := eventToSummary W ev in
  output.mkCalendarEventSummary (output.evID summary) accountName calendarID
    (output.Summary summary) (output.Start summary) (output.End_ summary)
    (output.Location summary) (output.Status summary) (output.AllDay summary).

(** Sample data for the calendar and the token files. *)
Definition sampleEvent : gcal.Event :=
  gcal.mkEvent "ev-1" "Review" "Quarterly review" "Room 2" "confirmed"
    (Some (gcal.mkEventDateTime "2024-12-25T10:00:00Z" ""))
    (Some (gcal.mkEventDateTime "2024-12-25T11:00:00Z" ""))
    ["a@example.com"].

Definition sampleToken : oauth2.Token :=
  oauth2.mkToken "access-1" "Bearer" "refresh-1" 5000.

Definition sampleTokenDisk : TokenDisk :=
  mkTokenDisk (fun name => Ok ("tokens/" ++ name ++ ".json")%string)
    (fun _ => NoToken) None (fun _ => None) None None.

(** Two records that agree on every field but [Error]. *)
Definition sameButError (e e' : ScheduledEmailData) : Prop :=
  ID e' = ID e /\ Account e' = Account e /\ DraftID e' = DraftID e /\
  To e' = To e /\ CC e' = CC e /\ BCC e' = BCC e /\ Subject e' = Subject e /\
  Body e' = Body e /\ IsHTML e' = IsHTML e /\ ScheduledAt e' = ScheduledAt e /\
  CreatedAt e' = CreatedAt e /\ Sent e' = Sent e /\ SentAt e' = SentAt e.

(** What the store holds, field by field, for a due record [e] whose
    attempt has been recorded on it: after a delivery the record is
    sent and otherwise as it was, the time of sending apart; after a
    failure it carries the error text and is otherwise as it was. *)
Definition recordedAs (W : World) (e e' : ScheduledEmailData) : Prop :=
  match attemptOf W e with
  | Delivered _ => sameButSent e e' /\ Sent e' = true
  | Failed err => sameButError e e' /\ Error e' = err
  end.

(* ================================================================= *)
(** ** The store: basic facts *)

(** Membership and repetition in a list of literals. *)
Ltac not_in_literals :=
  simpl; intros H;
  repeat (destruct H as [H | H]; [discriminate H |]); exact H.

Ltac no_dup_literals :=
  repeat (constructor; [not_in_literals |]); constructor.

Lemma pendingb_spec accountName now e :
  pendingb accountName now e = true <-> isPending accountName now e.
Proof.
  unfold pendingb, isPending.
  rewrite !andb_true_iff, orb_true_iff, negb_true_iff, Z.ltb_lt, !String.eqb_eq.
  split.
  - intros [[[Hs He] Ht] Ha]. repeat split; auto.
    intros Hne. destruct Ha as [Ha | Ha]; [contradiction | exact Ha].
  - intros (Hs & He & Ht & Ha). repeat split; auto.
    destruct (String.eqb_spec accountName ""); auto.
Qed.

Lemma keptb_spec accountName e :
  keptb accountName e = true <-> keptByClearSent accountName e.
Proof.
  unfold keptb, keptByClearSent.
  rewrite orb_true_iff, andb_true_iff, !negb_true_iff, !String.eqb_neq.
  reflexivity.
Qed.

Lemma pendingLoop_filter accountName now emails pending :
  pendingLoop accountName now emails pending
  = pending ++ List.filter (pendingb accountName now) emails.
Proof.
  revert pending.
  induction emails as [| e rest IH]; intros pending; simpl.
  - now rewrite app_nil_r.
  - unfold pendingb at 1, Before.
    destruct (negb (Sent e) && (Error e =? "")%string && (ScheduledAt e <? now));
      simpl.
    + destruct ((accountName =? "")%string || (Account e =? accountName)%string);
        simpl; rewrite IH; [now rewrite <- app_assoc | reflexivity].
    + apply IH.
Qed.

Lemma clearSentLoop_filter accountName emails remaining :
  clearSentLoop accountName emails remaining
  = remaining ++ List.filter (keptb accountName) emails.
Proof.
  revert remaining.
  induction emails as [| e rest IH]; intros remaining; simpl.
  - now rewrite app_nil_r.
  - unfold keptb at 1.
    destruct (negb (Sent e)
              || negb (accountName =? "")%string
                 && negb (Account e =? accountName)%string);
      rewrite IH; [now rewrite <- app_assoc | reflexivity].
Qed.

Lemma Save_writable emails d :
  writable d -> SaveScheduledEmails emails d = (Ok tt, rewritten emails d).
Proof.
  intros (Hp & He & Hm & Hw).
  unfold SaveScheduledEmails, getScheduledPath, rewritten.
  now rewrite He, Hp, Hm, Hw.
Qed.

(** A save either rewrites the collection, or fails and leaves the
    disk as it was, or fails and leaves a file that no longer loads. *)
Lemma Save_cases emails d :
  SaveScheduledEmails emails d = (Ok tt, rewritten emails d)
  \/ exists m d',
       SaveScheduledEmails emails d = (Err m, d')
       /\ (d' = d \/ exists m', LoadScheduledEmails d' = Err m').
Proof.
  unfold SaveScheduledEmails, getScheduledPath, rewritten.
  destruct (ensureErr d); [right; eauto |].
  destruct (pathErr d) eqn:Hp; [right; eauto |].
  destruct (marshalErr d emails); [right; eauto |].
  destruct (writeErr d) as [[m [pm |]] |]; [| right; eauto | now left].
  right. eexists _, _. split; [reflexivity |]. right.
  unfold LoadScheduledEmails, getScheduledPath. simpl. rewrite Hp. eauto.
Qed.

Lemma Load_rewritten emails d :
  pathErr d = None -> LoadScheduledEmails (rewritten emails d) = Ok emails.
Proof.
  intros Hp. unfold LoadScheduledEmails, getScheduledPath, rewritten. simpl.
  now rewrite Hp.
Qed.

Lemma Load_Ok_pathErr d emails :
  LoadScheduledEmails d = Ok emails -> pathErr d = None.
Proof.
  unfold LoadScheduledEmails, getScheduledPath.
  destruct (pathErr d); [discriminate | reflexivity].
Qed.

Lemma updateLoop_None id updateFn emails :
  updateLoop id updateFn emails = None <-> ~ In id (map ID emails).
Proof.
  induction emails as [| e rest IH]; simpl.
  - tauto.
  - destruct (String.eqb_spec (ID e) id) as [Heq | Hne].
    + split; [discriminate | intros H; exfalso; apply H; now left].
    + destruct (updateLoop id updateFn rest) eqn:Hu.
      * split; [discriminate |].
        intros H. exfalso. apply H. right.
        destruct (in_dec string_dec id (map ID rest)) as [Hin | Hnin]; auto.
        apply IH in Hnin. discriminate.
      * split; auto. intros _ [Heq | Hin]; [congruence |].
        now apply IH in Hin.
Qed.

Lemma updateLoop_Forall2 id updateFn emails emails' :
  updateLoop id updateFn emails = Some emails' ->
  Forall2 (fun e e' => e' = e \/ e' = updateFn e) emails emails'.
Proof.
  revert emails'.
  induction emails as [| e rest IH]; intros emails'; simpl; [discriminate |].
  destruct (ID e =? id)%string.
  - intros [= <-]. constructor; [now right |].
    clear. induction rest; constructor; auto.
  - destruct (updateLoop id updateFn rest) as [rest' |]; [| discriminate].
    intros [= <-]. constructor; [now left | now apply IH].
Qed.

Lemma Forall2_same {A} (R : A -> A -> Prop) (l : list A) :
  (forall x, R x x) -> Forall2 R l l.
Proof. intros HR. induction l; constructor; auto. Qed.

(* ================================================================= *)
(** ** The store: the pending predicate, clearing, and marking *)

(** C2. [GetPendingScheduledEmails] returns, in store order, exactly
    the records that are not sent, carry no error, are scheduled
    strictly before [now] and, when an account is asked for, belong to
    it; a record scheduled at [now] exactly is not returned. *)
Theorem pending_predicate accountName now d emails :
  LoadScheduledEmails d = Ok emails ->
  exists pending,
    GetPendingScheduledEmails accountName now d = Ok pending
    /\ pending = List.filter (pendingb accountName now) emails
    /\ (forall e, In e pending <-> In e emails /\ isPending accountName now e)
    /\ (forall e, In e pending -> ScheduledAt e <> now).
Proof.
  intros Hload.
  exists (List.filter (pendingb accountName now) emails).
  split; [| split; [reflexivity | split]].
  - unfold GetPendingScheduledEmails. rewrite Hload.
    now rewrite pendingLoop_filter.
  - intros e. rewrite filter_In, pendingb_spec. reflexivity.
  - intros e Hin. apply filter_In in Hin as [_ Hp].
    apply pendingb_spec in Hp as (_ & _ & Hlt & _). lia.
Qed.

Lemma pending_predicate_witness :
  exists pending,
    GetPendingScheduledEmails "work" 10 (diskOf sampleStore) = Ok pending
    /\ pending = List.filter (pendingb "work" 10) sampleStore
    /\ (forall e, In e pending <-> In e sampleStore /\ isPending "work" 10 e)
    /\ (forall e, In e pending -> ScheduledAt e <> 10).
Proof.
  apply (pending_predicate "work" 10 (diskOf sampleStore) sampleStore).
  reflexivity.
Defined.

(** C3. [ClearSentScheduledEmails] rewrites the collection keeping, in
    order, exactly the records that are unsent or, under a non-empty
    filter, of another account.  What it removes is sent and matches
    the filter; an unsent record is never removed. *)
Theorem clear_sent_semantics accountName d emails :
  LoadScheduledEmails d = Ok emails ->
  let kept := List.filter (keptb accountName) emails in
  ClearSentScheduledEmails accountName d = SaveScheduledEmails kept d
  /\ (writable d ->
      ClearSentScheduledEmails accountName d = (Ok tt, rewritten kept d)
      /\ LoadScheduledEmails (rewritten kept d) = Ok kept)
  /\ (forall e, In e kept <-> In e emails /\ keptByClearSent accountName e)
  /\ (forall e, In e emails -> Sent e = false -> In e kept)
  /\ (forall e, In e emails -> ~ In e kept ->
        Sent e = true /\ (accountName = "" \/ Account e = accountName)).
Proof.
  intros Hload kept.
  assert (Hrun : ClearSentScheduledEmails accountName d
                 = SaveScheduledEmails kept d).
  { unfold ClearSentScheduledEmails. rewrite Hload.
    now rewrite clearSentLoop_filter. }
  split; [exact Hrun |].
  split; [| split; [| split]].
  - intros Hw. rewrite Hrun. split.
    + now apply Save_writable.
    + apply Load_rewritten. apply Hw.
  - intros e. unfold kept. rewrite filter_In, keptb_spec. reflexivity.
  - intros e Hin Hs. apply filter_In. split; [exact Hin |].
    apply keptb_spec. now left.
  - intros e Hin Hout.
    assert (Hk : keptb accountName e = false).
    { destruct (keptb accountName e) eqn:Hk; [| reflexivity].
      exfalso. apply Hout. apply filter_In. now split. }
    unfold keptb in Hk. apply orb_false_iff in Hk as [Hs Ha].
    apply negb_false_iff in Hs. split; [exact Hs |].
    destruct (String.eqb_spec accountName ""); [now left | right].
    simpl in Ha. apply negb_false_iff in Ha. now apply String.eqb_eq.
Qed.

Lemma clear_sent_semantics_witness :
  ClearSentScheduledEmails "work" (diskOf sampleStore)
  = (Ok tt,
     rewritten
       [mail "1" "work" 5 false ""; mail "2" "work" 10 false "";
        mail "3" "personal" 3 true "";
        mail "5" "personal" 2 false "quota exceeded";
        mail "6" "personal" 6 false ""]
       (diskOf sampleStore)).
Proof.
  apply (clear_sent_semantics "work" (diskOf sampleStore) sampleStore eq_refl).
  repeat split.
Defined.

(** C4. On an id the store does not hold, [MarkScheduledEmailSent] and
    [MarkScheduledEmailError] return the "not found" error and leave
    the disk as it was: nothing is written. *)
Theorem mark_not_found_atomic id messageID errMsg now d emails :
  LoadScheduledEmails d = Ok emails ->
  ~ In id (map ID emails) ->
  MarkScheduledEmailSent id messageID now d = (Err (notFound id), d)
  /\ MarkScheduledEmailError id errMsg d = (Err (notFound id), d).
Proof.
  intros Hload Hid.
  unfold MarkScheduledEmailSent, MarkScheduledEmailError, UpdateScheduledEmail.
  rewrite Hload.
  split.
  - apply (updateLoop_None id (fun e => set_SentAt now (set_Sent true e)))
      in Hid.
    now rewrite Hid.
  - apply (updateLoop_None id (fun e => set_Error errMsg e)) in Hid.
    now rewrite Hid.
Qed.

Lemma mark_not_found_atomic_witness :
  MarkScheduledEmailSent "9" "msg-1" 20 (diskOf sampleStore)
  = (Err "scheduled email '9' not found", diskOf sampleStore)
  /\ MarkScheduledEmailError "9" "boom" (diskOf sampleStore)
     = (Err "scheduled email '9' not found", diskOf sampleStore).
Proof.
  apply (mark_not_found_atomic "9" "msg-1" "boom" 20 (diskOf sampleStore)
           sampleStore eq_refl).
  not_in_literals.
Defined.

(** C10. The message id handed to [MarkScheduledEmailSent] does not
    reach the store: two calls that differ only in it give the same
    result and the same disk, and a record the call changes differs
    from what it was in [Sent] and [SentAt] only. *)
Theorem mark_sent_ignores_message_id id m1 m2 now d :
  MarkScheduledEmailSent id m1 now d = MarkScheduledEmailSent id m2 now d
  /\ forall emails emails',
       LoadScheduledEmails d = Ok emails ->
       LoadScheduledEmails (snd (MarkScheduledEmailSent id m1 now d))
       = Ok emails' ->
       Forall2 (fun e e' =>
                  e' = e
                  \/ (sameButSent e e' /\ Sent e' = true /\ SentAt e' = now))
         emails emails'.
Proof.
  split; [reflexivity |].
  intros emails emails' Hload.
  unfold MarkScheduledEmailSent, UpdateScheduledEmail. rewrite Hload.
  destruct (updateLoop id _ emails) as [upd |] eqn:Hupd; simpl.
  - destruct (Save_cases upd d) as [Hs | (m & d' & Hs & [-> | [m' Hd']])];
      rewrite Hs; simpl.
    + rewrite Load_rewritten by (eapply Load_Ok_pathErr; eauto).
      intros [= <-]. apply updateLoop_Forall2 in Hupd.
      eapply Forall2_impl; [exact Hupd |].
      intros e e' [-> | ->]; [now left | right].
      unfold sameButSent. simpl. repeat split.
    + rewrite Hload. intros [= <-]. apply Forall2_same. now left.
    + rewrite Hd'. discriminate.
  - rewrite Hload. intros [= <-]. apply Forall2_same. now left.
Qed.

(* ================================================================= *)
(** ** The store: adding records and their ids *)

Lemma Sprintf_d_inj n m : Sprintf_d n = Sprintf_d m -> n = m.
Proof.
  unfold Sprintf_d. intros Heq.
  assert (Hrt : forall z,
             NilZero.int_of_string (NilZero.string_of_int (Z.to_int z))
             = Some (Z.to_int z)).
  { intros z. apply NilZero.isi; destruct z; simpl; try discriminate;
      intros [= H]; now apply DecimalPos.Unsigned.to_uint_nonnil in H. }
  assert (Hint : Some (Z.to_int n) = Some (Z.to_int m)).
  { rewrite <- (Hrt n), <- (Hrt m). now rewrite Heq. }
  injection Hint as Hint.
  rewrite <- (DecimalZ.of_to n), <- (DecimalZ.of_to m). now rewrite Hint.
Qed.

(** Between the years 1678 and 2262 [UnixNano] is the instant itself. *)
Lemma UnixNano_in_range t : - 2^63 <= t < 2^63 -> UnixNano t = t.
Proof.
  intros Hr. unfold UnixNano, wrap64.
  rewrite Z.mod_small by lia. lia.
Qed.

Lemma generateID_inj t u :
  generateID t = generateID u <-> UnixNano t = UnixNano u.
Proof.
  unfold generateID. split; [apply Sprintf_d_inj | now intros ->].
Qed.

Lemma writable_rewritten emails d : writable d -> writable (rewritten emails d).
Proof. unfold writable, rewritten. simpl. tauto. Qed.

Lemma Add_unfold tID tCreated email d emails :
  LoadScheduledEmails d = Ok emails ->
  AddScheduledEmail tID tCreated email d
  = SaveScheduledEmails (emails ++ [addedRecord tID tCreated email]) d.
Proof.
  intros Hload. unfold AddScheduledEmail. now rewrite Hload.
Qed.

(** C7, as the code has it.  [AddScheduledEmail] stores the item at
    the end of the collection with its id generated from the clock,
    its creation time set and [Sent] forced to false; every other
    field, [Error] included, is the input's.  So the record is pending
    material (unsent, no error) exactly when the input carries no
    error.  On a writable disk the call succeeds whatever the item and
    whatever the store holds already; when it fails, creating the
    directory, encoding the collection or writing the file failed. *)
Theorem add_semantics tID tCreated email d emails :
  LoadScheduledEmails d = Ok emails ->
  let r := addedRecord tID tCreated email in
  AddScheduledEmail tID tCreated email d
  = SaveScheduledEmails (emails ++ [r]) d
  /\ (writable d ->
      AddScheduledEmail tID tCreated email d
      = (Ok tt, rewritten (emails ++ [r]) d)
      /\ LoadScheduledEmails (rewritten (emails ++ [r]) d) = Ok (emails ++ [r]))
  /\ (ID r = generateID tID /\ CreatedAt r = tCreated /\ Sent r = false
      /\ Error r = Error email)
  /\ (Sent r = false /\ Error r = "" <-> Error email = "")
  /\ (forall m,
        fst (AddScheduledEmail tID tCreated email d) = Err m ->
        ensureErr d = Some m
        \/ (exists m', marshalErr d (emails ++ [r]) = Some m'
                       /\ m = wrapErr "failed to marshal scheduled emails: " m')
        \/ (exists m' residue,
              writeErr d = Some (m', residue)
              /\ m = wrapErr "failed to write scheduled emails: " m')).
Proof.
  intros Hload r.
  split; [now apply Add_unfold |].
  split; [| split; [| split]].
  - intros Hw. rewrite (Add_unfold _ _ _ _ _ Hload). split.
    + now apply Save_writable.
    + apply Load_rewritten, Hw.
  - repeat split.
  - simpl. tauto.
  - intros m. rewrite (Add_unfold _ _ _ _ _ Hload). fold r.
    unfold SaveScheduledEmails, getScheduledPath.
    rewrite (Load_Ok_pathErr _ _ Hload).
    destruct (ensureErr d); [intros [= ->]; now left |].
    destruct (marshalErr d (emails ++ [r])) as [m' |];
      [intros [= <-]; right; left; eauto |].
    destruct (writeErr d) as [[m' residue] |]; [| discriminate].
    intros [= <-]. right; right; eauto.
Qed.

Lemma add_semantics_witness :
  AddScheduledEmail 100 200 (mail "" "work" 500 true "") (diskOf sampleStore)
  = (Ok tt,
     rewritten (sampleStore ++ [addedRecord 100 200 (mail "" "work" 500 true "")])
       (diskOf sampleStore)).
Proof.
  apply (add_semantics 100 200 (mail "" "work" 500 true "")
           (diskOf sampleStore) sampleStore eq_refl).
  repeat split.
Defined.

(** C7, as stated, fails: an item that carries an error text is stored
    with it, so the record it creates is unsent but not free of
    error. *)
Lemma add_keeps_input_error :
  exists r d',
    AddScheduledEmail 100 200 (mail "" "work" 500 false "boom") (diskOf [])
    = (Ok tt, d')
    /\ LoadScheduledEmails d' = Ok [r]
    /\ Sent r = false /\ Error r = "boom" /\ Error r <> "".
Proof.
  eexists _, _. split; [reflexivity |].
  split; [reflexivity |]. repeat split. discriminate.
Qed.

(** C8, as stated, fails: two [Add] calls whose clock readings
    coincide give two records with one id. *)
Lemma add_same_clock_same_id :
  exists r1 r2,
    LoadScheduledEmails
      (addAll [ (1700000000000000000, 1700000000000000001,
                 mail "" "work" 500 false "");
                (1700000000000000000, 1700000000000000002,
                 mail "" "personal" 600 false "") ]
         (diskOf []))
    = Ok [r1; r2]
    /\ Account r1 <> Account r2
    /\ ID r1 = "1700000000000000000"
    /\ ID r2 = "1700000000000000000".
Proof.
  eexists _, _. split; [vm_compute; reflexivity |].
  split; [discriminate |]. split; reflexivity.
Qed.

Lemma addAll_unloadable adds d m :
  LoadScheduledEmails d = Err m -> addAll adds d = d.
Proof.
  intros Hload. induction adds as [| [[tID tCreated] email] rest IH]; simpl;
    [reflexivity |].
  unfold AddScheduledEmail. rewrite Hload. simpl. exact IH.
Qed.

(** C8, as the code has it.  When the [UnixNano] values of the clock
    readings taken by [generateID] are pairwise distinct, and none of
    the ids they yield is in the store already, a sequence of [Add]
    calls leaves the ids of the store pairwise distinct; on a writable
    disk the store ends with one new record per call. *)
Theorem add_ids_distinct adds d emails :
  LoadScheduledEmails d = Ok emails ->
  List.NoDup (map ID emails) ->
  List.NoDup (map (fun a => UnixNano (fst (fst a))) adds) ->
  (forall a, In a adds -> ~ In (generateID (fst (fst a))) (map ID emails)) ->
  (forall emails',
     LoadScheduledEmails (addAll adds d) = Ok emails' ->
     List.NoDup (map ID emails'))
  /\ (writable d ->
      LoadScheduledEmails (addAll adds d)
      = Ok (emails
            ++ map (fun a => addedRecord (fst (fst a)) (snd (fst a)) (snd a))
                 adds)).
Proof.
  revert d emails.
  induction adds as [| [[tID tCreated] email] rest IH];
    intros d emails Hload Hnd Hclk Hfresh; simpl.
  - split.
    + intros emails'. rewrite Hload. now intros [= <-].
    + intros _. now rewrite app_nil_r.
  - simpl in Hclk. apply List.NoDup_cons_iff in Hclk as [Hhd Hclk].
    rewrite (Add_unfold _ _ _ _ _ Hload).
    set (r := addedRecord tID tCreated email).
    destruct (Save_cases (emails ++ [r]) d)
      as [Hs | (m & d' & Hs & [-> | [m' Hd']])]; rewrite Hs; simpl.
    + destruct (IH (rewritten (emails ++ [r]) d) (emails ++ [r]))
        as (Hnd' & Hw').
      * apply Load_rewritten. eapply Load_Ok_pathErr; eauto.
      * rewrite map_app. simpl.
        apply NoDup_ListNoDup, NoDup_app. split; [| split].
        -- now apply NoDup_ListNoDup.
        -- intros x Hx Hx'. apply list_elem_of_In in Hx, Hx'.
           destruct Hx' as [<- | []].
           apply (Hfresh (tID, tCreated, email)); [now left | exact Hx].
        -- apply NoDup_ListNoDup. constructor; [intros [] | constructor].
      * exact Hclk.
      * intros a Ha. rewrite map_app, in_app_iff. simpl.
        intros [Hin | [Heq | []]].
        -- apply (Hfresh a); [now right | exact Hin].
        -- apply generateID_inj in Heq. apply Hhd.
           rewrite Heq. apply (in_map (fun a => UnixNano (fst (fst a)))).
           exact Ha.
      * split; [exact Hnd' |].
        intros Hw. rewrite Hw' by now apply writable_rewritten.
        now rewrite <- app_assoc.
    + destruct (IH d emails Hload Hnd Hclk) as (Hnd' & Hw').
      * intros a Ha. apply Hfresh. now right.
      * split; [exact Hnd' |].
        intros Hw. exfalso.
        rewrite (Save_writable _ _ Hw) in Hs. discriminate.
    + rewrite (addAll_unloadable rest d' m' Hd'). split.
      * intros emails'. rewrite Hd'. discriminate.
      * intros Hw. exfalso.
        rewrite (Save_writable _ _ Hw) in Hs. discriminate.
Qed.

Lemma add_ids_distinct_witness :
  let adds :=
    [ (1700000000000000000, 1700000000000000001, mail "" "work" 500 false "");
      (1700000000000000005, 1700000000000000006,
       mail "" "personal" 600 false "") ] in
  (forall emails',
     LoadScheduledEmails (addAll adds (diskOf sampleStore)) = Ok emails' ->
     List.NoDup (map ID emails'))
  /\ (writable (diskOf sampleStore) ->
      LoadScheduledEmails (addAll adds (diskOf sampleStore))
      = Ok (sampleStore
            ++ map (fun a => addedRecord (fst (fst a)) (snd (fst a)) (snd a))
                 adds)).
Proof.
  apply (add_ids_distinct _ (diskOf sampleStore) sampleStore eq_refl).
  - simpl. no_dup_literals.
  - vm_compute. no_dup_literals.
  - intros a Ha. simpl in Ha.
    destruct Ha as [<- | [<- | []]]; vm_compute; not_in_literals.
Defined.

(* ================================================================= *)
(** ** The dispatcher: the loop, call by call *)

Lemma sendLoop_cons W clock i e rest sentCount errorCount log d :
  sendLoop W clock i (e :: rest) sentCount errorCount log d
  = sendLoop W clock (S i) rest
      (if deliveredb W e then S sentCount else sentCount)
      (if deliveredb W e then errorCount else S errorCount)
      (log ++ callsOf W e) (markStep W (clock i) e d).
Proof.
  simpl. unfold deliveredb, callsOf, stepsOf, markOf, markStep, attemptOf.
  destruct (cfg_GetAccount W (Account e)) as [[name acc] | err]; simpl;
    [| reflexivity].
  destruct (NewClient W (Account e) acc) as [client | err]; simpl;
    [| reflexivity].
  destruct (SendDraft client (DraftID e)) as [msgID | err]; reflexivity.
Qed.

Lemma sendLoop_spec W clock pending :
  forall i sentCount errorCount log d,
    sendLoop W clock i pending sentCount errorCount log d
    = ((sentCount + length (List.filter (deliveredb W) pending))%nat,
       (errorCount + length (List.filter (failedb W) pending))%nat,
       log ++ flat_map (callsOf W) pending,
       markSteps W clock i pending d).
Proof.
  induction pending as [| e rest IH]; intros i sentCount errorCount log d.
  - simpl. now rewrite !Nat.add_0_r, app_nil_r.
  - rewrite sendLoop_cons, IH. simpl. unfold failedb.
    destruct (deliveredb W e); simpl; rewrite <- app_assoc;
      repeat f_equal; lia.
Qed.

Lemma filter_split_length {A} (f : A -> bool) (l : list A) :
  (length (List.filter f l) + length (List.filter (fun x => negb (f x)) l)
   = length l)%nat.
Proof.
  induction l as [| x l IH]; simpl; [reflexivity |].
  destruct (f x); simpl; lia.
Qed.

Lemma marksOf_app l1 l2 : marksOf (l1 ++ l2) = marksOf l1 ++ marksOf l2.
Proof.
  induction l1 as [| ev l1 IH]; simpl; [reflexivity |].
  destruct ev; simpl; now rewrite ?IH.
Qed.

Lemma sendsOf_app l1 l2 : sendsOf (l1 ++ l2) = sendsOf l1 ++ sendsOf l2.
Proof.
  induction l1 as [| ev l1 IH]; simpl; [reflexivity |].
  destruct ev; simpl; now rewrite ?IH.
Qed.

Lemma marksOf_callsOf W e : marksOf (callsOf W e) = [markOf W e].
Proof.
  unfold callsOf. rewrite marksOf_app.
  assert (Hs : marksOf (stepsOf W e) = []).
  { unfold stepsOf.
    destruct (cfg_GetAccount W (Account e)) as [[name acc] |]; [| reflexivity].
    destruct (NewClient W (Account e) acc); reflexivity. }
  rewrite Hs. unfold markOf. destruct (attemptOf W e); reflexivity.
Qed.

Lemma marksOf_flat_map W pending :
  marksOf (flat_map (callsOf W) pending) = map (markOf W) pending.
Proof.
  induction pending as [| e rest IH]; simpl; [reflexivity |].
  now rewrite marksOf_app, marksOf_callsOf, IH.
Qed.

Lemma sendsOf_callsOf W e :
  sendsOf (callsOf W e)
  = if reachesSend W e then [(Account e, DraftID e)] else [].
Proof.
  unfold callsOf. rewrite sendsOf_app.
  assert (Hm : sendsOf [markOf W e] = []).
  { unfold markOf. destruct (attemptOf W e); reflexivity. }
  rewrite Hm, app_nil_r. unfold stepsOf, reachesSend.
  destruct (cfg_GetAccount W (Account e)) as [[name acc] |]; [| reflexivity].
  destruct (NewClient W (Account e) acc); reflexivity.
Qed.

Lemma sendsOf_flat_map W pending :
  sendsOf (flat_map (callsOf W) pending)
  = map (fun e => (Account e, DraftID e)) (List.filter (reachesSend W) pending).
Proof.
  induction pending as [| e rest IH]; simpl; [reflexivity |].
  rewrite sendsOf_app, sendsOf_callsOf, IH.
  destruct (reachesSend W e); reflexivity.
Qed.

(** A run that is not a dry run, on a loadable store and a loadable
    configuration, with at least one due record. *)
Lemma send_run W account now clock d pending :
  GetPendingScheduledEmails account now d = Ok pending ->
  pending <> [] ->
  config_Load W = None ->
  mailScheduledSendCmd W account false now clock d
  = (mkSendReport (Ok tt) pending
       ([CallConfigLoad] ++ flat_map (callsOf W) pending)
       (Some (length (List.filter (deliveredb W) pending),
              length (List.filter (failedb W) pending))),
     markSteps W clock 0 pending d).
Proof.
  intros Hp Hne Hcfg. unfold mailScheduledSendCmd. rewrite Hp.
  destruct pending as [| e rest]; [contradiction |].
  cbn [length Nat.eqb]. rewrite Hcfg, sendLoop_spec. reflexivity.
Qed.

(** A run that finds nothing due. *)
Lemma send_run_nothing W account dryRun now clock d :
  GetPendingScheduledEmails account now d = Ok [] ->
  mailScheduledSendCmd W account dryRun now clock d
  = (mkSendReport (Ok tt) [] [] None, d).
Proof.
  intros Hp. unfold mailScheduledSendCmd. now rewrite Hp.
Qed.

(* ================================================================= *)
(** ** The dispatcher: what a run leaves in the store *)

Lemma map_upd_notin id (f : ScheduledEmailData -> ScheduledEmailData) l :
  ~ In id (map ID l) ->
  map (fun e => if (ID e =? id)%string then f e else e) l = l.
Proof.
  induction l as [| e rest IH]; simpl; intros Hnin; [reflexivity |].
  destruct (String.eqb_spec (ID e) id) as [Heq | Hne].
  - exfalso. apply Hnin. now left.
  - f_equal. apply IH. intros Hin. apply Hnin. now right.
Qed.

Lemma updateLoop_unique id f l :
  List.NoDup (map ID l) ->
  In id (map ID l) ->
  updateLoop id f l
  = Some (map (fun e => if (ID e =? id)%string then f e else e) l).
Proof.
  induction l as [| e rest IH]; simpl; intros Hnd Hin; [contradiction |].
  apply List.NoDup_cons_iff in Hnd as [Hhd Hnd].
  destruct (String.eqb_spec (ID e) id) as [Heq | Hne].
  - subst id. now rewrite map_upd_notin.
  - destruct Hin as [Heq | Hin]; [contradiction |].
    now rewrite IH.
Qed.

Lemma ID_unique l a b :
  List.NoDup (map ID l) -> In a l -> In b l -> ID a = ID b -> a = b.
Proof.
  induction l as [| e rest IH]; simpl; intros Hnd Ha Hb Heq; [contradiction |].
  apply List.NoDup_cons_iff in Hnd as [Hhd Hnd].
  destruct Ha as [<- | Ha], Hb as [<- | Hb]; auto.
  - exfalso. apply Hhd. rewrite Heq. now apply in_map.
  - exfalso. apply Hhd. rewrite <- Heq. now apply in_map.
Qed.

Lemma markUpd_ID W t e r : ID (markUpd W t e r) = ID r.
Proof. unfold markUpd. destruct (attemptOf W e); reflexivity. Qed.

Lemma map_ID_upd W t x l :
  map ID (map (fun r => if (ID r =? ID x)%string then markUpd W t x r else r) l)
  = map ID l.
Proof.
  rewrite map_map. apply map_ext. intros r.
  destruct (ID r =? ID x)%string; [apply markUpd_ID | reflexivity].
Qed.

Lemma Update_unique id f d cur :
  writable d ->
  LoadScheduledEmails d = Ok cur ->
  List.NoDup (map ID cur) ->
  In id (map ID cur) ->
  UpdateScheduledEmail id f d
  = (Ok tt,
     rewritten (map (fun e => if (ID e =? id)%string then f e else e) cur) d).
Proof.
  intros Hw Hload Hnd Hin. unfold UpdateScheduledEmail.
  rewrite Hload, (updateLoop_unique _ _ _ Hnd Hin).
  now apply Save_writable.
Qed.

Lemma markStep_unique W t x d cur :
  writable d ->
  LoadScheduledEmails d = Ok cur ->
  List.NoDup (map ID cur) ->
  In (ID x) (map ID cur) ->
  markStep W t x d
  = rewritten
      (map (fun r => if (ID r =? ID x)%string then markUpd W t x r else r) cur)
      d.
Proof.
  intros Hw Hload Hnd Hin. unfold markStep, markUpd.
  unfold MarkScheduledEmailSent, MarkScheduledEmailError.
  destruct (attemptOf W x);
    now rewrite (Update_unique _ _ _ _ Hw Hload Hnd Hin).
Qed.

Lemma markSteps_unique W clock pending :
  forall i d cur,
    writable d ->
    LoadScheduledEmails d = Ok cur ->
    List.NoDup (map ID cur) ->
    (forall x, In x pending -> In (ID x) (map ID cur)) ->
    writable (markSteps W clock i pending d)
    /\ LoadScheduledEmails (markSteps W clock i pending d)
       = Ok (map (applyMarks W clock i pending) cur).
Proof.
  induction pending as [| x rest IH]; intros i d cur Hw Hload Hnd Hin; simpl.
  - split; [exact Hw |]. rewrite Hload. f_equal. symmetry. apply map_id.
  - rewrite (markStep_unique W (clock i) x d cur Hw Hload Hnd)
      by (apply Hin; now left).
    set (cur1 := map _ cur).
    destruct (IH (S i) (rewritten cur1 d) cur1) as [Hw' Hl'].
    + now apply writable_rewritten.
    + apply Load_rewritten, Hw.
    + unfold cur1. now rewrite map_ID_upd.
    + intros y Hy. unfold cur1. rewrite map_ID_upd. apply Hin. now right.
    + split; [exact Hw' |]. rewrite Hl'. unfold cur1. now rewrite map_map.
Qed.

Lemma applyMarks_notin W clock pending :
  forall i r, ~ In (ID r) (map ID pending) ->
              applyMarks W clock i pending r = r.
Proof.
  induction pending as [| x rest IH]; intros i r Hnin; simpl; [reflexivity |].
  simpl in Hnin.
  destruct (String.eqb_spec (ID r) (ID x)) as [Heq | Hne].
  - exfalso. apply Hnin. now left.
  - apply IH. intros Hin. apply Hnin. now right.
Qed.

Lemma applyMarks_in W clock pending :
  forall i x r,
    List.NoDup (map ID pending) -> In x pending -> ID r = ID x ->
    exists t, applyMarks W clock i pending r = markUpd W t x r.
Proof.
  induction pending as [| y rest IH]; intros i x r Hnd Hin Hid;
    [contradiction |].
  simpl in Hnd. apply List.NoDup_cons_iff in Hnd as [Hhd Hnd]. simpl.
  destruct Hin as [-> | Hin].
  - rewrite Hid, String.eqb_refl. exists (clock i).
    apply applyMarks_notin. now rewrite markUpd_ID, Hid.
  - destruct (String.eqb_spec (ID r) (ID y)) as [Heq | Hne].
    + exfalso. apply Hhd. rewrite <- Heq, Hid. now apply in_map.
    + now apply IH.
Qed.

Lemma markUpd_markedAs W t e : markedAs W e (markUpd W t e e).
Proof.
  unfold markedAs, markUpd. destruct (attemptOf W e); [| reflexivity].
  split; [| reflexivity]. unfold sameButSent. simpl. repeat split.
Qed.

Lemma NoDup_map_filter {A B} (f : A -> B) (p : A -> bool) (l : list A) :
  List.NoDup (map f l) -> List.NoDup (map f (List.filter p l)).
Proof.
  induction l as [| x l IH]; simpl; intros Hnd; [constructor |].
  apply List.NoDup_cons_iff in Hnd as [Hhd Hnd].
  destruct (p x); simpl; [| now apply IH].
  constructor; [| now apply IH].
  intros Hin. apply Hhd. apply in_map_iff in Hin as (y & Hy & Hin).
  apply filter_In in Hin as [Hin _]. rewrite <- Hy. now apply in_map.
Qed.

Lemma Forall2_map_pointwise {A} (R : A -> A -> Prop) (g : A -> A) (l : list A) :
  (forall x, In x l -> R x (g x)) -> Forall2 R l (map g l).
Proof.
  induction l as [| x l IH]; intros H; simpl; constructor.
  - apply H. now left.
  - apply IH. intros y Hy. apply H. now right.
Qed.

(** The store after the Mark calls of a run, when ids identify
    records and the disk takes the writes: every due record is as its
    own attempt marked it, every other record is as it was. *)
Lemma markSteps_store W account now clock d emails :
  LoadScheduledEmails d = Ok emails ->
  writable d ->
  List.NoDup (map ID emails) ->
  let pending := List.filter (pendingb account now) emails in
  exists emails',
    LoadScheduledEmails (markSteps W clock 0 pending d) = Ok emails'
    /\ writable (markSteps W clock 0 pending d)
    /\ Forall2 (fun e e' =>
                  if pendingb account now e then markedAs W e e' else e' = e)
         emails emails'.
Proof.
  intros Hload Hw Hnd pending.
  destruct (markSteps_unique W clock pending 0 d emails Hw Hload Hnd)
    as [Hw' Hl'].
  { intros x Hx. apply in_map. now apply filter_In in Hx as [Hx _]. }
  exists (map (applyMarks W clock 0 pending) emails).
  split; [exact Hl' |]. split; [exact Hw' |].
  assert (Hpnd : List.NoDup (map ID pending))
    by now apply NoDup_map_filter.
  assert (Hall : forall e, In e emails ->
            if pendingb account now e
            then markedAs W e (applyMarks W clock 0 pending e)
            else applyMarks W clock 0 pending e = e).
  { intros e He. destruct (pendingb account now e) eqn:Hp.
    - assert (Hin : In e pending) by (apply filter_In; now split).
      destruct (applyMarks_in W clock pending 0 e e Hpnd Hin eq_refl)
        as [t ->].
      apply markUpd_markedAs.
    - apply applyMarks_notin. intros Hin.
      apply in_map_iff in Hin as (x & Hid & Hx).
      assert (Hx' := Hx). apply filter_In in Hx' as [Hxe Hxp].
      assert (x = e) by exact (ID_unique emails x e Hnd Hxe He Hid).
      subst x. congruence. }
  now apply Forall2_map_pointwise.
Qed.

Lemma GetPending_filter account now d emails :
  LoadScheduledEmails d = Ok emails ->
  GetPendingScheduledEmails account now d
  = Ok (List.filter (pendingb account now) emails).
Proof.
  intros Hload. unfold GetPendingScheduledEmails.
  now rewrite Hload, pendingLoop_filter.
Qed.

Lemma GetPending_Load account now d pending :
  GetPendingScheduledEmails account now d = Ok pending ->
  exists emails,
    LoadScheduledEmails d = Ok emails
    /\ pending = List.filter (pendingb account now) emails.
Proof.
  unfold GetPendingScheduledEmails.
  destruct (LoadScheduledEmails d) as [emails |] eqn:Hload; [| discriminate].
  intros [= <-]. exists emails. split; [reflexivity |].
  now rewrite pendingLoop_filter.
Qed.

Lemma markOf_attempt W W' e :
  attemptOf W' e = attemptOf W e -> markOf W' e = markOf W e.
Proof. unfold markOf. now intros ->. Qed.

Lemma attempt_err_nonempty W e err :
  (forall name m, cfg_GetAccount W name = Err m -> m <> "") ->
  attemptOf W e = Failed err -> err <> "".
Proof.
  intros Hacc. unfold attemptOf.
  destruct (cfg_GetAccount W (Account e)) as [[name acc] | m] eqn:Ha.
  - unfold NewClient.
    destruct (auth_GetClient W (Account e) acc); [| intros [= <-]; discriminate].
    destruct (gmail_NewService W a); [| intros [= <-]; discriminate].
    unfold SendDraft. simpl.
    destruct (Drafts_Send W a0 (DraftID e)); [discriminate |].
    intros [= <-]. discriminate.
  - intros [= <-]. eapply Hacc; eauto.
Qed.

Lemma marked_not_pending W account now e e' :
  (forall name m, cfg_GetAccount W name = Err m -> m <> "") ->
  markedAs W e e' -> pendingb account now e' = false.
Proof.
  intros Hacc. unfold markedAs.
  destruct (attemptOf W e) as [msgID | err] eqn:Hat.
  - intros [_ Hs]. unfold pendingb. now rewrite Hs.
  - intros ->. unfold pendingb. simpl.
    apply (attempt_err_nonempty W e err Hacc) in Hat.
    apply String.eqb_neq in Hat. rewrite Hat.
    now rewrite andb_false_r.
Qed.

Lemma settled_store_none_pending W account now emails emails' :
  (forall name m, cfg_GetAccount W name = Err m -> m <> "") ->
  Forall2 (fun e e' =>
             if pendingb account now e then markedAs W e e' else e' = e)
    emails emails' ->
  List.filter (pendingb account now) emails' = [].
Proof.
  intros Hacc HF. induction HF as [| e e' l l' Hee' _ IH]; [reflexivity |].
  simpl. destruct (pendingb account now e) eqn:Hp.
  - now rewrite (marked_not_pending W account now e e' Hacc Hee').
  - subst e'. now rewrite Hp.
Qed.

Lemma markedAs_recordedAs W e e' : markedAs W e e' -> recordedAs W e e'.
Proof.
  unfold markedAs, recordedAs.
  destruct (attemptOf W e) as [msgID | err]; [auto |].
  intros ->. unfold sameButError. simpl. repeat split.
Qed.

Lemma Forall2_In_left {A B} (R : A -> B -> Prop) l l' x :
  Forall2 R l l' -> In x l -> exists y, In y l' /\ R x y.
Proof.
  induction 1 as [| a b l l' Hab _ IH]; simpl; [contradiction |].
  intros [<- | Hin]; [eauto |].
  destruct (IH Hin) as (y & Hy & Hxy). eauto.
Qed.

(* ================================================================= *)
(** ** The dispatcher: error isolation and re-invocation *)

(** C5, as the code has it.  In a run over the due records
    [before ++ k :: after] in which the attempt on [k] fails with text
    [err]: the run returns without error; every due record is
    attempted, in order; [k] gets the call
    [MarkScheduledEmailError (ID k) err]; each other record gets the
    one Mark call its own attempt decides, the same as in any world
    that treats those records alike whatever it does with [k]; and the
    summary reports both counts, which add up to the number of due
    records.  When the ids of the store are pairwise distinct and the
    disk takes the writes, the store then holds [k] with the error
    text [err], unsent and otherwise as it was, every other due record
    as its own attempt left it, and the records that were not due
    unchanged. *)
Theorem dispatch_error_isolation W account now clock d before k after err :
  GetPendingScheduledEmails account now d = Ok (before ++ k :: after) ->
  config_Load W = None ->
  attemptOf W k = Failed err ->
  let run := mailScheduledSendCmd W account false now clock d in
  ret (fst run) = Ok tt
  /\ found (fst run) = before ++ k :: after
  /\ calls (fst run)
     = [CallConfigLoad] ++ flat_map (callsOf W) before ++ callsOf W k
       ++ flat_map (callsOf W) after
  /\ marksOf (calls (fst run))
     = map (markOf W) before ++ CallMarkError (ID k) err
       :: map (markOf W) after
  /\ (exists sentCount errorCount,
        summary (fst run) = Some (sentCount, errorCount)
        /\ sentCount = length (List.filter (deliveredb W) (before ++ after))
        /\ errorCount
           = S (length (List.filter (failedb W) (before ++ after)))
        /\ (sentCount + errorCount)%nat = length (before ++ k :: after))
  /\ (forall W',
        config_Load W' = None ->
        (forall e, In e (before ++ after) -> attemptOf W' e = attemptOf W e) ->
        marksOf
          (calls (fst (mailScheduledSendCmd W' account false now clock d)))
        = map (markOf W) before ++ markOf W' k :: map (markOf W) after)
  /\ (forall emails,
        LoadScheduledEmails d = Ok emails ->
        writable d ->
        List.NoDup (map ID emails) ->
        exists emails',
          LoadScheduledEmails (snd run) = Ok emails'
          /\ Forall2 (fun e e' =>
                        if pendingb account now e then recordedAs W e e'
                        else e' = e)
               emails emails'
          /\ exists k',
               In k' emails'
               /\ ID k' = ID k /\ Account k' = Account k
               /\ DraftID k' = DraftID k /\ To k' = To k /\ CC k' = CC k
               /\ BCC k' = BCC k /\ Subject k' = Subject k
               /\ Body k' = Body k /\ IsHTML k' = IsHTML k
               /\ ScheduledAt k' = ScheduledAt k
               /\ CreatedAt k' = CreatedAt k /\ SentAt k' = SentAt k
               /\ Sent k' = false
               /\ Error k' = err).
Proof.
  intros Hp Hcfg Hk run.
  assert (Hne : before ++ k :: after <> []) by now destruct before.
  assert (Hrun := send_run W account now clock d _ Hp Hne Hcfg).
  fold run in Hrun.
  assert (Hdk : deliveredb W k = false) by (unfold deliveredb; now rewrite Hk).
  rewrite Hrun. cbn [fst snd ret found calls summary].
  split; [reflexivity |]. split; [reflexivity |].
  split; [| split; [| split; [| split]]].
  - rewrite flat_map_app. simpl. reflexivity.
  - rewrite marksOf_app. simpl. rewrite marksOf_flat_map, map_app. simpl.
    unfold markOf at 2. now rewrite Hk.
  - eexists _, _. split; [reflexivity |].
    assert (Hfk : failedb W k = true) by (unfold failedb; now rewrite Hdk).
    rewrite !List.filter_app. cbn [List.filter]. rewrite Hdk, Hfk.
    rewrite !length_app. cbn [length].
    pose proof (filter_split_length (deliveredb W) before) as Hb.
    pose proof (filter_split_length (deliveredb W) after) as Ha.
    unfold failedb. split; [reflexivity |]. split; lia.
  - intros W' Hcfg' Hsame.
    rewrite (send_run W' account now clock d _ Hp Hne Hcfg').
    cbn [fst calls]. rewrite marksOf_app. simpl.
    rewrite marksOf_flat_map, map_app. simpl. f_equal; [| f_equal].
    + apply map_ext_in. intros e He. apply markOf_attempt, Hsame.
      apply in_or_app. now left.
    + apply map_ext_in. intros e He. apply markOf_attempt, Hsame.
      apply in_or_app. now right.
  - intros emails Hload Hw Hnd.
    rewrite (GetPending_filter account now d emails Hload) in Hp.
    injection Hp as Hp.
    destruct (markSteps_store W account now clock d emails Hload Hw Hnd)
      as (emails' & Hl' & _ & HF).
    assert (HR : Forall2 (fun e e' =>
                            if pendingb account now e then recordedAs W e e'
                            else e' = e) emails emails').
    { eapply List.Forall2_impl; [| exact HF]. intros e e' Hee'. simpl in Hee'.
      destruct (pendingb account now e); [| exact Hee'].
      now apply markedAs_recordedAs. }
    exists emails'. rewrite <- Hp. split; [exact Hl' |]. split; [exact HR |].
    assert (Hkin : In k (List.filter (pendingb account now) emails)).
    { rewrite Hp. apply in_or_app. right. now left. }
    apply filter_In in Hkin as [Hkin Hkp].
    destruct (Forall2_In_left _ _ _ k HR Hkin) as (k' & Hk' & Hkk').
    rewrite Hkp in Hkk'. unfold recordedAs in Hkk'. rewrite Hk in Hkk'.
    destruct Hkk' as [Hsame Herr].
    destruct Hsame
      as (H1 & H2 & H3 & H4 & H5 & H6 & H7 & H8 & H9 & H10 & H11 & H12 & H13).
    apply pendingb_spec in Hkp as (Hsent & _).
    exists k'. repeat split; auto. congruence.
Qed.

Lemma dispatch_error_isolation_witness :
  let run :=
    mailScheduledSendCmd sampleWorld "" false 11 sampleClock
      (diskOf sampleStore) in
  ret (fst run) = Ok tt
  /\ found (fst run)
     = [mail "1" "work" 5 false ""; mail "2" "work" 10 false "";
        mail "6" "personal" 6 false ""]
  /\ marksOf (calls (fst run))
     = [CallMarkSent "1" "msg-draft-1";
        CallMarkError "2" "failed to send draft: quota exceeded";
        CallMarkSent "6" "msg-draft-6"]
  /\ summary (fst run) = Some (2%nat, 1%nat)
  /\ exists emails' k',
       LoadScheduledEmails (snd run) = Ok emails'
       /\ In k' emails'
       /\ ID k' = "2" /\ Sent k' = false
       /\ Error k' = "failed to send draft: quota exceeded".
Proof.
  pose proof
    (dispatch_error_isolation sampleWorld "" 11 sampleClock
       (diskOf sampleStore)
       [mail "1" "work" 5 false ""] (mail "2" "work" 10 false "")
       [mail "6" "personal" 6 false ""]
       "failed to send draft: quota exceeded" eq_refl eq_refl eq_refl) as H.
  cbv zeta in H.
  destruct H as (H1 & H2 & _ & H4 & (s & f & H5 & -> & -> & _) & _ & Hstore).
  cbv zeta. split; [exact H1 |]. split; [exact H2 |].
  split; [exact H4 |]. split; [exact H5 |].
  destruct (Hstore sampleStore eq_refl)
    as (emails' & Hl' & _ & k' & Hin & Hid & Hrest); [repeat split | |].
  - simpl. no_dup_literals.
  - exists emails', k'. split; [exact Hl' |]. split; [exact Hin |].
    split; [exact Hid |].
    destruct Hrest as (_ & _ & _ & _ & _ & _ & _ & _ & _ & _ & _ & Hs & He).
    split; [exact Hs | exact He].
Defined.

(** C5, as stated, fails where two due records share an id, as the
    records of two [Add] calls that read the same clock do: the
    attempt on the second fails and [MarkScheduledEmailError] is
    called with its id and the error text, but the update lands on
    the first record with that id, and the second stays in the store
    without an error. *)
Lemma shared_id_failure_not_recorded :
  let d :=
    addAll [ (1700000000000000000, 1700000000000000001,
              mail "1" "work" 500 false "");
             (1700000000000000000, 1700000000000000002,
              mail "2" "work" 600 false "") ]
      (diskOf []) in
  let run := mailScheduledSendCmd sampleWorld "" false 1000 sampleClock d in
  exists j k j' k',
    found (fst run) = [j; k]
    /\ attemptOf sampleWorld j = Delivered "msg-draft-1"
    /\ attemptOf sampleWorld k = Failed "failed to send draft: quota exceeded"
    /\ marksOf (calls (fst run))
       = [CallMarkSent (ID j) "msg-draft-1";
          CallMarkError (ID k) "failed to send draft: quota exceeded"]
    /\ summary (fst run) = Some (1%nat, 1%nat)
    /\ LoadScheduledEmails (snd run) = Ok [j'; k']
    /\ k' = k /\ Error k' = "" /\ Sent k' = false
    /\ Sent j' = true /\ Error j' = "failed to send draft: quota exceeded".
Proof.
  eexists _, _, _, _. split; [vm_compute; reflexivity |].
  repeat split.
Qed.

(** The same happens on a disk that refuses the writes: the results
    of the Mark calls are dropped, the run reports its counts, and the
    store is as it was. *)
Example failure_not_recorded_on_readonly_disk :
  let d :=
    mkDisk (Stored sampleStore) None None (fun _ => None)
      (Some ("read-only file system", None)) 0 in
  let run := mailScheduledSendCmd sampleWorld "" false 11 sampleClock d in
  ret (fst run) = Ok tt
  /\ summary (fst run) = Some (2%nat, 1%nat)
  /\ In (CallMarkError "2" "failed to send draft: quota exceeded")
       (calls (fst run))
  /\ snd run = d.
Proof. vm_compute. repeat split. do 8 right. now left. Qed.

(** C1, as the code has it.  Take a store whose ids are pairwise
    distinct, on a disk that takes the writes, a configuration that
    loads, and account errors that carry a text.  After a first run
    that is not a dry run, a second run at the same clock reading,
    dry or not, finds no due record, makes no call, prints no summary
    and leaves the disk as the first run left it; over the two runs
    each due record of the first run is the object of at most one send
    call. *)
Theorem dispatch_twice W account now clock1 clock2 dryRun2 d emails :
  LoadScheduledEmails d = Ok emails ->
  writable d ->
  List.NoDup (map ID emails) ->
  config_Load W = None ->
  (forall name m, cfg_GetAccount W name = Err m -> m <> "") ->
  let run1 := mailScheduledSendCmd W account false now clock1 d in
  let run2 := mailScheduledSendCmd W account dryRun2 now clock2 (snd run1) in
  ret (fst run1) = Ok tt
  /\ found (fst run1) = List.filter (pendingb account now) emails
  /\ ret (fst run2) = Ok tt
  /\ found (fst run2) = []
  /\ calls (fst run2) = []
  /\ summary (fst run2) = None
  /\ snd run2 = snd run1
  /\ sendsOf (calls (fst run1) ++ calls (fst run2))
     = map (fun e => (Account e, DraftID e))
         (List.filter (reachesSend W) (found (fst run1)))
  /\ List.NoDup (map ID (found (fst run1))).
Proof.
  intros Hload Hw Hnd Hcfg Hacc run1 run2.
  pose proof (GetPending_filter account now d emails Hload) as Hp.
  set (pending := List.filter (pendingb account now) emails) in *.
  assert (Hpnd : List.NoDup (map ID pending)) by now apply NoDup_map_filter.
  assert (H1 : exists log1 sum1 d1,
             run1 = (mkSendReport (Ok tt) pending log1 sum1, d1)
             /\ sendsOf log1
                = map (fun e => (Account e, DraftID e))
                    (List.filter (reachesSend W) pending)
             /\ GetPendingScheduledEmails account now d1 = Ok []).
  { destruct pending as [| e rest] eqn:Hpe.
    - exists [], None, d. split; [| split; [reflexivity | exact Hp]].
      unfold run1. now apply send_run_nothing.
    - exists ([CallConfigLoad] ++ flat_map (callsOf W) (e :: rest)),
        (Some (length (List.filter (deliveredb W) (e :: rest)),
               length (List.filter (failedb W) (e :: rest)))),
        (markSteps W clock1 0 (e :: rest) d).
      split; [| split].
      + unfold run1. apply (send_run W account now clock1 d _ Hp); [| exact Hcfg].
        discriminate.
      + rewrite sendsOf_app.
        change (sendsOf [CallConfigLoad]) with (@nil (string * string)).
        rewrite app_nil_l. apply sendsOf_flat_map.
      + destruct (markSteps_store W account now clock1 d emails Hload Hw Hnd)
          as (emails' & Hl' & _ & HF).
        cbv zeta in Hl'. fold pending in Hl'. rewrite Hpe in Hl'.
        rewrite (GetPending_filter account now _ emails' Hl').
        f_equal. eapply settled_store_none_pending; eauto. }
  destruct H1 as (log1 & sum1 & d1 & Hr1 & Hsends & Hp2).
  assert (Hr2 : run2 = (mkSendReport (Ok tt) [] [] None, d1)).
  { unfold run2. rewrite Hr1. cbn [snd]. now apply send_run_nothing. }
  rewrite Hr2, Hr1. cbn [fst snd ret found calls summary].
  rewrite app_nil_r. repeat split; assumption.
Qed.

Lemma sampleWorld_account_errors name m :
  cfg_GetAccount sampleWorld name = Err m -> m <> "".
Proof.
  simpl. unfold sampleAccounts.
  destruct ((name =? "work")%string || (name =? "personal")%string);
    [discriminate |].
  intros [= <-]. discriminate.
Qed.

Lemma sampleStore_ids_distinct : List.NoDup (map ID sampleStore).
Proof. simpl. no_dup_literals. Qed.

Lemma dispatch_twice_witness :
  let run1 :=
    mailScheduledSendCmd sampleWorld "" false 11 sampleClock
      (diskOf sampleStore) in
  let run2 :=
    mailScheduledSendCmd sampleWorld "" false 11 sampleClock (snd run1) in
  ret (fst run1) = Ok tt
  /\ found (fst run1) = List.filter (pendingb "" 11) sampleStore
  /\ ret (fst run2) = Ok tt
  /\ found (fst run2) = []
  /\ calls (fst run2) = []
  /\ summary (fst run2) = None
  /\ snd run2 = snd run1
  /\ sendsOf (calls (fst run1) ++ calls (fst run2))
     = map (fun e => (Account e, DraftID e))
         (List.filter (reachesSend sampleWorld) (found (fst run1)))
  /\ List.NoDup (map ID (found (fst run1))).
Proof.
  apply (dispatch_twice sampleWorld "" 11 sampleClock sampleClock false
           (diskOf sampleStore) sampleStore eq_refl).
  - repeat split.
  - exact sampleStore_ids_distinct.
  - reflexivity.
  - exact sampleWorld_account_errors.
Defined.

(** C1, as stated, fails.  A dry run is a run of the dispatcher that
    marks nothing: the run that follows it at the same clock reading
    finds the same record due and sends it. *)
Lemma dry_run_then_run_sends :
  let run1 :=
    mailScheduledSendCmd sampleWorld "work" true 10 sampleClock
      (diskOf sampleStore) in
  let run2 :=
    mailScheduledSendCmd sampleWorld "work" false 10 sampleClock (snd run1) in
  ret (fst run1) = Ok tt
  /\ snd run1 = diskOf sampleStore
  /\ found (fst run2) = [mail "1" "work" 5 false ""]
  /\ sendsOf (calls (fst run2)) = [("work", "draft-1")]
  /\ summary (fst run2) = Some (1%nat, 0%nat).
Proof. vm_compute. repeat split. Qed.

(** Two further ways in which a second run finds work to do; the
    statement of [dispatch_twice] rules both out by hypothesis.  When
    two due records share an id, both Mark calls land on the first
    one, and the second run sends the other again. *)
Lemma shared_id_sent_again :
  let store := [mail "7" "work" 1 false ""; mail "7" "work" 2 false ""] in
  let run1 :=
    mailScheduledSendCmd sampleWorld "" false 10 sampleClock (diskOf store) in
  let run2 :=
    mailScheduledSendCmd sampleWorld "" false 10 sampleClock (snd run1) in
  sendsOf (calls (fst run1)) = [("work", "draft-7"); ("work", "draft-7")]
  /\ found (fst run2) = [mail "7" "work" 2 false ""]
  /\ sendsOf (calls (fst run2)) = [("work", "draft-7")]
  /\ summary (fst run2) = Some (1%nat, 0%nat).
Proof. vm_compute. repeat split. Qed.

(** When the configuration does not load, the first run stops before
    the loop and the second finds the same record due. *)
Lemma config_failure_leaves_records_due :
  let W := sampleWorldWith (Some "no such file") sampleAccounts in
  let run1 :=
    mailScheduledSendCmd W "work" false 10 sampleClock (diskOf sampleStore) in
  let run2 := mailScheduledSendCmd W "work" false 10 sampleClock (snd run1) in
  ret (fst run1) = Err "failed to load config: no such file"
  /\ found (fst run2) = [mail "1" "work" 5 false ""].
Proof. vm_compute. repeat split. Qed.

(** When an account error carries no text, [MarkScheduledEmailError]
    writes the empty string, which is what "no error" is, and the
    second run attempts the record again. *)
Lemma silent_error_attempted_again :
  let W := sampleWorldWith None (fun _ => Err "") in
  let run1 :=
    mailScheduledSendCmd W "work" false 10 sampleClock (diskOf sampleStore) in
  let run2 := mailScheduledSendCmd W "work" false 10 sampleClock (snd run1) in
  marksOf (calls (fst run1)) = [CallMarkError "1" ""]
  /\ found (fst run2) = [mail "1" "work" 5 false ""]
  /\ summary (fst run2) = Some (0%nat, 1%nat).
Proof. vm_compute. repeat split. Qed.

(** When the disk refuses the write, the error of the Mark call is
    dropped, the record stays due, and the second run sends it
    again. *)
Lemma unwritable_disk_sent_again :
  let d :=
    mkDisk (Stored [mail "1" "work" 5 false ""]) None None (fun _ => None)
      (Some ("read-only file system", None)) 0 in
  let run1 := mailScheduledSendCmd sampleWorld "" false 10 sampleClock d in
  let run2 :=
    mailScheduledSendCmd sampleWorld "" false 10 sampleClock (snd run1) in
  ret (fst run1) = Ok tt
  /\ summary (fst run1) = Some (1%nat, 0%nat)
  /\ snd run1 = d
  /\ found (fst run2) = [mail "1" "work" 5 false ""]
  /\ sendsOf (calls (fst run2)) = [("work", "draft-1")]
  /\ summary (fst run2) = Some (1%nat, 0%nat).
Proof. vm_compute. repeat split. Qed.

(* ================================================================= *)
(** ** The schedule command *)

Lemma schedule_checks_pass W fl now tID tCreated d scheduledAt :
  flagTo fl <> [] ->
  flagSubject fl <> "" ->
  flagBody fl <> "" ->
  flagAt fl <> "" ->
  parseDateTime W (flagAt fl) = Ok scheduledAt ->
  mailScheduleCmd W fl now tID tCreated d
  = if Before scheduledAt now
    then (Err "schedule time must be in the future", [], d)
    else
      match config_Load W with
      | Some m =>
          (Err (wrapErr "failed to load config: " m), [CallConfigLoad], d)
      | None =>
      match cfg_GetAccount W (flagAccount fl) with
      | Err m => (Err m, [CallConfigLoad; CallGetAccount (flagAccount fl)], d)
      | Ok (name, acc) =>
      match NewClient W name acc with
      | Err m =>
          (Err m,
           [CallConfigLoad; CallGetAccount (flagAccount fl);
            CallNewClient name], d)
      | Ok client =>
      let draft :=
        mkDraftEmail (flagTo fl) (flagCc fl) (flagBcc fl) (flagSubject fl)
          (flagBody fl) (flagHtml fl) in
      match CreateDraft client draft with
      | Err m =>
          (Err m,
           [CallConfigLoad; CallGetAccount (flagAccount fl);
            CallNewClient name; CallCreateDraft name draft], d)
      | Ok draftID =>
      let scheduled :=
        mkScheduledEmailData "" name draftID (flagTo fl) (flagCc fl)
          (flagBcc fl) (flagSubject fl) (flagBody fl) (flagHtml fl)
          scheduledAt zeroTime false zeroTime "" in
      let calls :=
        [CallConfigLoad; CallGetAccount (flagAccount fl); CallNewClient name;
         CallCreateDraft name draft; CallAddScheduledEmail scheduled] in
      match AddScheduledEmail tID tCreated scheduled d with
      | (Err m, d') =>
          (Err (wrapErr "failed to schedule email: " m), calls, d')
      | (Ok _, d') => (Ok tt, calls, d')
      end
      end
      end
      end
      end.
Proof.
  intros Hto Hsub Hbody Hat Hparse. unfold mailScheduleCmd.
  destruct (flagTo fl) as [| t ts]; [contradiction |]. cbn [length Nat.eqb].
  apply String.eqb_neq in Hsub, Hbody, Hat. rewrite Hsub, Hbody, Hat, Hparse.
  reflexivity.
Qed.

(** C9. Once the four required flags are given and the schedule time
    parses: a time strictly before the clock reading makes the command
    fail with "schedule time must be in the future", having called no
    collaborator and left the disk untouched; a time at or after the
    reading, the reading itself included, passes the check and the
    command goes on to load the configuration. *)
Theorem schedule_rejects_past W fl now tID tCreated d scheduledAt :
  flagTo fl <> [] ->
  flagSubject fl <> "" ->
  flagBody fl <> "" ->
  flagAt fl <> "" ->
  parseDateTime W (flagAt fl) = Ok scheduledAt ->
  (scheduledAt < now ->
   mailScheduleCmd W fl now tID tCreated d
   = (Err "schedule time must be in the future", [], d))
  /\ (now <= scheduledAt ->
      exists r rest d',
        mailScheduleCmd W fl now tID tCreated d
        = (r, CallConfigLoad :: rest, d'))
  /\ (scheduledAt = now ->
      snd (fst (mailScheduleCmd W fl now tID tCreated d)) <> []).
Proof.
  intros Hto Hsub Hbody Hat Hparse.
  pose proof (schedule_checks_pass W fl now tID tCreated d scheduledAt
                Hto Hsub Hbody Hat Hparse) as Hrun.
  assert (Hge : now <= scheduledAt ->
                exists r rest d',
                  mailScheduleCmd W fl now tID tCreated d
                  = (r, CallConfigLoad :: rest, d')).
  { intros Hle. rewrite Hrun. unfold Before.
    destruct (Z.ltb_spec scheduledAt now) as [Hlt | _]; [lia |].
    destruct (config_Load W); [eexists _, _, _; reflexivity |].
    destruct (cfg_GetAccount W (flagAccount fl)) as [[name acc] |];
      [| eexists _, _, _; reflexivity].
    destruct (NewClient W name acc) as [client |];
      [| eexists _, _, _; reflexivity].
    cbv zeta.
    destruct (CreateDraft client _); [| eexists _, _, _; reflexivity].
    destruct (AddScheduledEmail tID tCreated _ d) as [[u | m] d'];
      eexists _, _, _; reflexivity. }
  split; [| split].
  - intros Hlt. rewrite Hrun. unfold Before.
    destruct (Z.ltb_spec scheduledAt now) as [_ | Hge']; [reflexivity | lia].
  - exact Hge.
  - intros Heq. destruct Hge as (r & rest & d' & ->); [lia |]. discriminate.
Qed.

Lemma schedule_rejects_past_witness :
  mailScheduleCmd sampleWorld sampleFlags 1735120800000000001 1 2
    (diskOf sampleStore)
  = (Err "schedule time must be in the future", [], diskOf sampleStore)
  /\ snd (fst (mailScheduleCmd sampleWorld sampleFlags 1735120800000000000
                 1 2 (diskOf sampleStore))) <> [].
Proof.
  split.
  - apply (schedule_rejects_past sampleWorld sampleFlags 1735120800000000001
             1 2 (diskOf sampleStore) 1735120800000000000);
      [discriminate | discriminate | discriminate | discriminate
      | reflexivity | lia].
  - apply (schedule_rejects_past sampleWorld sampleFlags 1735120800000000000
             1 2 (diskOf sampleStore) 1735120800000000000);
      [discriminate | discriminate | discriminate | discriminate
      | reflexivity | reflexivity].
Defined.

(** X4. A record created through the schedule command starts pending:
    the item the command builds carries no error, so the stored record
    is unsent and free of error, and it is not scheduled before the
    clock reading of the check. *)
Lemma schedule_creates_pending W fl now tID tCreated d log d' emails :
  LoadScheduledEmails d = Ok emails ->
  mailScheduleCmd W fl now tID tCreated d = (Ok tt, log, d') ->
  exists r,
    LoadScheduledEmails d' = Ok (emails ++ [r])
    /\ ID r = generateID tID /\ CreatedAt r = tCreated
    /\ Sent r = false /\ Error r = "" /\ now <= ScheduledAt r.
Proof.
  intros Hload. unfold mailScheduleCmd.
  destruct (length (flagTo fl) =? 0)%nat; [discriminate |].
  destruct (flagSubject fl =? "")%string; [discriminate |].
  destruct (flagBody fl =? "")%string; [discriminate |].
  destruct (flagAt fl =? "")%string; [discriminate |].
  destruct (parseDateTime W (flagAt fl)) as [scheduledAt |]; [| discriminate].
  unfold Before. destruct (Z.ltb_spec scheduledAt now) as [| Hge];
    [discriminate |].
  destruct (config_Load W); [discriminate |].
  destruct (cfg_GetAccount W (flagAccount fl)) as [[name acc] |];
    [| discriminate].
  destruct (NewClient W name acc) as [client |]; [| discriminate].
  cbv zeta. destruct (CreateDraft client _) as [draftID |]; [| discriminate].
  rewrite (Add_unfold _ _ _ _ _ Hload).
  match goal with |- context [SaveScheduledEmails ?l d] =>
    destruct (Save_cases l d) as [Hs | (m & d1 & Hs & _)]; rewrite Hs end;
    [| discriminate].
  intros [= <- <-]. eexists. split.
  - apply Load_rewritten. eapply Load_Ok_pathErr; eauto.
  - simpl. repeat split. exact Hge.
Qed.

(* ================================================================= *)
(** ** The listings: [sortEventsByStart] sorts *)

Section SortEvents.

Local Open Scope nat_scope.

Implicit Types events : list output.CalendarEventSummary.
Implicit Types a b : output.CalendarEventSummary.

Lemma insert_Permutation events j a b :
  events !! j = Some b -> b :: <[j := a]> events ≡ₚ a :: events.
Proof.
  revert j. induction events as [| x l IH]; intros [| j] Hj;
    simpl in *; try discriminate.
  - injection Hj as ->. apply Permutation_swap.
  - rewrite Permutation_swap. rewrite (IH j Hj). apply Permutation_swap.
Qed.

Lemma swap_Permutation events i j a b :
  i < j -> events !! i = Some a -> events !! j = Some b ->
  <[j := a]> (<[i := b]> events) ≡ₚ events.
Proof.
  revert i j. induction events as [| x l IH]; intros [| i] [| j] Hij Hi Hj;
    simpl in *; try discriminate; try lia.
  - injection Hi as ->. now apply insert_Permutation.
  - f_equiv. apply IH; [lia | assumption | assumption].
Qed.

Lemma swapIfBefore_length i j events :
  length (swapIfBefore i j events) = length events.
Proof.
  unfold swapIfBefore.
  destruct (events !! i) as [ei |]; [| reflexivity].
  destruct (events !! j) as [ej |]; [| reflexivity].
  destruct (Before _ _); [| reflexivity].
  now rewrite !length_insert.
Qed.

Lemma swapIfBefore_Permutation i j events :
  i < j -> swapIfBefore i j events ≡ₚ events.
Proof.
  intros Hij. unfold swapIfBefore.
  destruct (events !! i) as [ei |] eqn:Hi; [| reflexivity].
  destruct (events !! j) as [ej |] eqn:Hj; [| reflexivity].
  destruct (Before _ _); [| reflexivity].
  now apply swap_Permutation.
Qed.

Lemma swapIfBefore_other i j p events :
  p <> i -> p <> j -> swapIfBefore i j events !! p = events !! p.
Proof.
  intros Hpi Hpj. unfold swapIfBefore.
  destruct (events !! i) as [ei |]; [| reflexivity].
  destruct (events !! j) as [ej |]; [| reflexivity].
  destruct (Before _ _); [| reflexivity].
  rewrite !list_lookup_insert_ne by congruence. reflexivity.
Qed.

(** After the body of the inner loop, the event at [i] starts no later
    than it did, and no later than the event at [j]. *)
Lemma swapIfBefore_ends i j events a b :
  i < j -> events !! i = Some a -> events !! j = Some b ->
  exists a' b',
    swapIfBefore i j events !! i = Some a'
    /\ swapIfBefore i j events !! j = Some b'
    /\ (output.Start a' <= output.Start a)%Z
    /\ (output.Start a' <= output.Start b')%Z
    /\ ((a' = a /\ b' = b) \/ (a' = b /\ b' = a)).
Proof.
  intros Hij Hi Hj. unfold swapIfBefore. rewrite Hi, Hj. unfold Before.
  assert (Hli : i < length events) by (eapply lookup_lt_Some; eauto).
  assert (Hlj : j < length events) by (eapply lookup_lt_Some; eauto).
  destruct (Z.ltb_spec (output.Start b) (output.Start a)) as [Hlt | Hge].
  - exists b, a. split; [| split; [| split; [| split]]].
    + rewrite list_lookup_insert_ne by lia.
      now apply list_lookup_insert_eq.
    + apply list_lookup_insert_eq. now rewrite length_insert.
    + lia.
    + lia.
    + now right.
  - exists a, b. repeat split; auto; try lia.
Qed.

Lemma sortInner_spec i n :
  forall j events,
    i < j -> j + n = length events ->
    let events' := sortInner i j n events in
    length events' = length events
    /\ events' ≡ₚ events
    /\ (forall p, p < i -> events' !! p = events !! p)
    /\ (forall q b, i <= q -> events' !! q = Some b ->
                    exists q', i <= q' /\ events !! q' = Some b)
    /\ ((forall q a b, i < q -> q < j ->
                       events !! i = Some a -> events !! q = Some b ->
                       (output.Start a <= output.Start b)%Z) ->
        forall q a b, i < q ->
                      events' !! i = Some a -> events' !! q = Some b ->
                      (output.Start a <= output.Start b)%Z).
Proof.
  induction n as [| n IH]; intros j events Hij Hlen; simpl.
  - split; [reflexivity |]. split; [reflexivity |].
    split; [reflexivity |]. split; [eauto |].
    intros Hpre q a b Hq Ha Hb. apply (Hpre q a b); auto.
    apply lookup_lt_Some in Hb. lia.
  - set (events1 := swapIfBefore i j events).
    assert (Hlen1 : length events1 = length events)
      by apply swapIfBefore_length.
    destruct (IH (S j) events1) as (Hl & Hperm & Hpre' & Horig & Hmin);
      [lia | lia |].
    assert (Hlj : j < length events) by lia.
    assert (Hli : i < length events) by lia.
    destruct (lookup_lt_is_Some_2 events i Hli) as [ai Hai].
    destruct (lookup_lt_is_Some_2 events j Hlj) as [bj Hbj].
    destruct (swapIfBefore_ends i j events ai bj Hij Hai Hbj)
      as (a' & b' & Ha' & Hb' & Hle1 & Hle2 & Hcases).
    fold events1 in Ha', Hb'.
    split; [congruence |].
    split; [now rewrite Hperm; apply swapIfBefore_Permutation |].
    split; [| split].
    + intros p Hp. rewrite Hpre' by assumption.
      apply swapIfBefore_other; lia.
    + intros q b Hq Hb. destruct (Horig q b Hq Hb) as (q1 & Hq1 & Hb1).
      destruct (Nat.eq_dec q1 i) as [-> | Hne1].
      * rewrite Ha' in Hb1. injection Hb1 as <-.
        destruct Hcases as [[-> _] | [-> _]]; [exists i | exists j];
          split; auto; lia.
      * destruct (Nat.eq_dec q1 j) as [-> | Hne2].
        -- rewrite Hb' in Hb1. injection Hb1 as <-.
           destruct Hcases as [[_ ->] | [_ ->]]; [exists j | exists i];
             split; auto; lia.
        -- exists q1. split; [exact Hq1 |].
           unfold events1 in Hb1.
           now rewrite swapIfBefore_other in Hb1 by assumption.
    + intros Hpre. apply Hmin. intros q a b Hq Hqj Ha Hb.
      rewrite Ha' in Ha. injection Ha as <-.
      destruct (Nat.eq_dec q j) as [-> | Hne].
      * rewrite Hb' in Hb. injection Hb as <-. exact Hle2.
      * unfold events1 in Hb.
        rewrite swapIfBefore_other in Hb by lia.
        specialize (Hpre q ai b Hq ltac:(lia) Hai Hb). lia.
Qed.

Lemma sortOuter_spec n :
  forall i events,
    i + n = length events - 1 ->
    sortedUpTo i events ->
    let events' := sortOuter i n events in
    length events' = length events
    /\ events' ≡ₚ events
    /\ sortedUpTo (i + n) events'.
Proof.
  induction n as [| n IH]; intros i events Hlen Hinv; simpl.
  - rewrite Nat.add_0_r. auto.
  - set (events1 := sortInner i (S i) (length events - S i) events).
    destruct (sortInner_spec i (length events - S i) (S i) events)
      as (Hl1 & Hperm1 & Hpre1 & Horig1 & Hmin1); [lia | lia |].
    fold events1 in Hl1, Hperm1, Hpre1, Horig1, Hmin1.
    destruct (IH (S i) events1) as (Hl & Hperm & Hsorted).
    + lia.
    + intros p q a b Hp Hpq Ha Hb.
      destruct (Nat.eq_dec p i) as [-> | Hne].
      * apply (Hmin1 ltac:(intros; lia) q a b Hpq Ha Hb).
      * rewrite Hpre1 in Ha by lia.
        destruct (Nat.lt_ge_cases q i) as [Hqi | Hqi].
        -- rewrite Hpre1 in Hb by lia.
           apply (Hinv p q a b); auto; lia.
        -- destruct (Horig1 q b Hqi Hb) as (q' & Hq' & Hb').
           apply (Hinv p q' a b); auto; lia.
    + split; [congruence |]. split; [now rewrite Hperm |].
      now replace (i + S n) with (S i + n) by lia.
Qed.

(** [sortEventsByStart] returns its input rearranged in ascending
    order of start time. *)
Lemma sortEventsByStart_sorts events :
  sortEventsByStart events ≡ₚ events
  /\ ascendingByStart (sortEventsByStart events).
Proof.
  unfold sortEventsByStart.
  destruct (sortOuter_spec (length events - 1) 0 events)
    as (Hl & Hperm & Hsorted).
  - reflexivity.
  - intros p q a b Hp. lia.
  - split; [exact Hperm |].
    intros p q a b Hpq Ha Hb. apply (Hsorted p q a b); auto.
    apply lookup_lt_Some in Hb. simpl. lia.
Qed.

End SortEvents.

(* ================================================================= *)
(** ** The listings: what each command hands to the printer *)

(** X1. The calendar listing is sorted after the fan-in, whatever the
    order in which the accounts' goroutines finish: what is printed is
    the merged events rearranged in ascending order of start time. *)
Lemma calendar_listing_sorted W sched account allAccounts from to limit
  errs events :
  calListCmd W sched account allAccounts from to limit = Ok (errs, events) ->
  ascendingByStart events
  /\ exists accounts,
       selectAccounts W allAccounts account = Ok accounts
       /\ events
          ≡ₚ fst (fanIn (calListTask W from to limit) (sched accounts) [] []).
Proof.
  unfold calListCmd.
  destruct (config_Load W); [discriminate |].
  destruct (negb (cfg_HasAccounts W)); [discriminate |].
  destruct (selectAccounts W allAccounts account) as [accounts |];
    [| discriminate].
  destruct (fanIn _ _ _ _) as [allEvents errs'] eqn:Hfan.
  intros [= <- <-].
  destruct (sortEventsByStart_sorts allEvents) as [Hperm Hasc].
  split; [exact Hasc |].
  exists accounts. split; [reflexivity |]. rewrite Hfan. exact Hperm.
Qed.

Example calendar_listing_two_orders :
  calListCmd sampleWorld (fun l => l) "" true 0 100 25
  = Ok ([], [event "e1" "personal" 10; event "e2" "work" 30;
             event "e3" "personal" 40; event "e4" "work" 50])
  /\ calListCmd sampleWorld (@rev string) "" true 0 100 25
     = calListCmd sampleWorld (fun l => l) "" true 0 100 25.
Proof. split; reflexivity. Qed.

(** The mail listing is handed to the printer as the fan-in left it:
    no sort follows the barrier. *)
Lemma mail_listing_is_fan_in W sched account allAccounts query limit
  errs emails :
  mailReadCmd W sched account allAccounts query limit = Ok (errs, emails) ->
  exists accounts,
    selectAccounts W allAccounts account = Ok accounts
    /\ (emails, errs)
       = fanIn (mailReadTask W query limit) (sched accounts) [] [].
Proof.
  unfold mailReadCmd.
  destruct (config_Load W); [discriminate |].
  destruct (negb (cfg_HasAccounts W)); [discriminate |].
  destruct (selectAccounts W allAccounts account) as [accounts |];
    [| discriminate].
  destruct (fanIn _ _ _ _) as [allEmails errs'] eqn:Hfan.
  intros [= <- <-]. exists accounts. split; [reflexivity |].
  now rewrite Hfan.
Qed.

(** C6 at the input where the code departs from it.  [gcli mail read
    -a work] on a mailbox that the service lists newest first: the
    list printed has the later message before the earlier one, so it
    is not in ascending order of date.  With [--all], the list also
    changes with the order in which the accounts finish. *)
Theorem mail_listing_not_sorted :
  (exists emails,
     mailReadCmd sampleWorld (fun l => l) "work" false "" 25 = Ok ([], emails)
     /\ emails = [message "m2" "work" 200; message "m1" "work" 100]
     /\ ~ ascendingByDate emails)
  /\ mailReadCmd sampleWorld (fun l => l) "" true "" 25
     = Ok ([], [message "m2" "work" 200; message "m1" "work" 100;
                message "m3" "personal" 150])
  /\ mailReadCmd sampleWorld (@rev string) "" true "" 25
     = Ok ([], [message "m3" "personal" 150; message "m2" "work" 200;
                message "m1" "work" 100]).
Proof.
  split; [| split; reflexivity].
  eexists. split; [reflexivity |]. split; [reflexivity |].
  intros Hasc.
  specialize (Hasc 0%nat 1%nat (message "m2" "work" 200)
                (message "m1" "work" 100) ltac:(lia) eq_refl eq_refl).
  simpl in Hasc. lia.
Qed.

(* ================================================================= *)
(** ** Further properties of the design document *)

Lemma clearAllLoop_filter accountName emails remaining :
  clearAllLoop accountName emails remaining
  = remaining
    ++ List.filter (fun e => negb (Account e =? accountName)%string) emails.
Proof.
  revert remaining.
  induction emails as [| e rest IH]; intros remaining; simpl.
  - now rewrite app_nil_r.
  - destruct (negb (Account e =? accountName)%string);
      rewrite IH; [now rewrite <- app_assoc | reflexivity].
Qed.

(** X3. [ClearAllScheduledEmails] without a filter rewrites the store
    as the empty collection; with a filter it keeps, in order, exactly
    the records of the other accounts. *)
Theorem clear_all_semantics accountName d emails :
  LoadScheduledEmails d = Ok emails ->
  let kept :=
    if (accountName =? "")%string then []
    else List.filter (fun e => negb (Account e =? accountName)%string) emails in
  ClearAllScheduledEmails accountName d = SaveScheduledEmails kept d
  /\ (writable d ->
      ClearAllScheduledEmails accountName d = (Ok tt, rewritten kept d))
  /\ (accountName = "" -> kept = [])
  /\ (accountName <> "" ->
      forall e, In e kept <-> In e emails /\ Account e <> accountName).
Proof.
  intros Hload kept.
  assert (Hrun : ClearAllScheduledEmails accountName d
                 = SaveScheduledEmails kept d).
  { unfold ClearAllScheduledEmails, kept. rewrite Hload.
    destruct (accountName =? "")%string; [reflexivity |].
    now rewrite clearAllLoop_filter. }
  split; [exact Hrun |]. split; [| split].
  - intros Hw. rewrite Hrun. now apply Save_writable.
  - intros ->. reflexivity.
  - intros Hne e. unfold kept. apply String.eqb_neq in Hne. rewrite Hne.
    rewrite filter_In, negb_true_iff, String.eqb_neq. reflexivity.
Qed.

Lemma clear_all_semantics_witness :
  ClearAllScheduledEmails "work" (diskOf sampleStore)
  = (Ok tt,
     rewritten
       [mail "3" "personal" 3 true "";
        mail "5" "personal" 2 false "quota exceeded";
        mail "6" "personal" 6 false ""]
       (diskOf sampleStore)).
Proof.
  apply (clear_all_semantics "work" (diskOf sampleStore) sampleStore eq_refl).
  repeat split.
Defined.

(** X2. A dry run contacts no collaborator, prints no summary and
    leaves the disk as it was, whatever is due. *)
Theorem dry_run_is_noop W account now clock d :
  let run := mailScheduledSendCmd W account true now clock d in
  snd run = d
  /\ calls (fst run) = []
  /\ summary (fst run) = None
  /\ (forall pending,
        GetPendingScheduledEmails account now d = Ok pending ->
        ret (fst run) = Ok tt /\ found (fst run) = pending).
Proof.
  unfold mailScheduledSendCmd.
  destruct (GetPendingScheduledEmails account now d) as [pending | m].
  - destruct (length pending =? 0)%nat; cbn;
      (split; [reflexivity |]; split; [reflexivity |];
       split; [reflexivity |]; intros p [= <-]; split; reflexivity).
  - cbn. split; [reflexivity |]. split; [reflexivity |].
    split; [reflexivity | discriminate].
Qed.

Lemma calendar_listing_sorted_witness :
  ascendingByStart
    [event "e1" "personal" 10; event "e2" "work" 30;
     event "e3" "personal" 40; event "e4" "work" 50].
Proof.
  apply (calendar_listing_sorted sampleWorld (@rev string) "" true 0 100 25 []
           [event "e1" "personal" 10; event "e2" "work" 30;
            event "e3" "personal" 40; event "e4" "work" 50] eq_refl).
Defined.

Lemma schedule_creates_pending_witness :
  exists r,
    LoadScheduledEmails
      (snd (mailScheduleCmd sampleWorld sampleFlags 1735120800000000000
              1700000000000000000 1700000000000000001 (diskOf sampleStore)))
    = Ok (sampleStore ++ [r])
    /\ ID r = generateID 1700000000000000000
    /\ CreatedAt r = 1700000000000000001
    /\ Sent r = false /\ Error r = ""
    /\ 1735120800000000000 <= ScheduledAt r.
Proof.
  eapply (schedule_creates_pending sampleWorld sampleFlags 1735120800000000000
            1700000000000000000 1700000000000000001 (diskOf sampleStore)).
  - reflexivity.
  - vm_compute. reflexivity.
Defined.

(* ================================================================= *)
(** ** The store: what an update touches, and what stays distinct *)

Lemma updateLoop_split id updateFn emails :
  In id (map ID emails) ->
  exists before e after,
    emails = before ++ e :: after
    /\ ID e = id
    /\ ~ In id (map ID before)
    /\ updateLoop id updateFn emails = Some (before ++ updateFn e :: after).
Proof.
  induction emails as [| x rest IH]; simpl; intros Hin; [contradiction |].
  destruct (String.eqb_spec (ID x) id) as [Heq | Hne].
  - exists [], x, rest. simpl. auto.
  - destruct Hin as [Heq | Hin]; [contradiction |].
    destruct (IH Hin) as (before & e & after & -> & He & Hb & Hu).
    exists (x :: before), e, after. simpl. rewrite Hu.
    repeat split; auto. intros [Hx | Hx]; auto.
Qed.

(** X5. [UpdateScheduledEmail], and so each of the two Mark
    operations, saves the collection with one record changed: the
    first whose id is the one asked for.  The records before it have
    other ids, the records after it are untouched even when they
    share the id, and the number and order of records stay. *)
Theorem update_first_match id updateFn d emails :
  LoadScheduledEmails d = Ok emails ->
  In id (map ID emails) ->
  exists before e after,
    emails = before ++ e :: after
    /\ ID e = id
    /\ ~ In id (map ID before)
    /\ UpdateScheduledEmail id updateFn d
       = SaveScheduledEmails (before ++ updateFn e :: after) d
    /\ length (before ++ updateFn e :: after) = length emails.
Proof.
  intros Hload Hin.
  destruct (updateLoop_split id updateFn emails Hin)
    as (before & e & after & Heq & He & Hb & Hu).
  exists before, e, after. repeat split; auto.
  - unfold UpdateScheduledEmail. now rewrite Hload, Hu.
  - rewrite Heq, !length_app. reflexivity.
Qed.

Lemma update_first_match_witness :
  exists before e after,
    sharedIdStore = before ++ e :: after
    /\ ID e = "7"
    /\ ~ In "7" (map ID before)
    /\ UpdateScheduledEmail "7" (set_Error "boom") (diskOf sharedIdStore)
       = SaveScheduledEmails (before ++ set_Error "boom" e :: after)
           (diskOf sharedIdStore)
    /\ length (before ++ set_Error "boom" e :: after) = length sharedIdStore.
Proof.
  apply (update_first_match "7" (set_Error "boom") (diskOf sharedIdStore)
           sharedIdStore eq_refl).
  simpl. now left.
Defined.

Lemma Save_Load emails l d emails' :
  LoadScheduledEmails d = Ok emails ->
  LoadScheduledEmails (snd (SaveScheduledEmails l d)) = Ok emails' ->
  emails' = l \/ emails' = emails.
Proof.
  intros Hload.
  destruct (Save_cases l d) as [Hs | (m & d' & Hs & [-> | [m' Hd']])];
    rewrite Hs; simpl.
  - rewrite Load_rewritten by (eapply Load_Ok_pathErr; eauto).
    intros [= <-]. now left.
  - rewrite Hload. intros [= <-]. now right.
  - rewrite Hd'. discriminate.
Qed.

Lemma Update_ids id updateFn d emails emails' :
  (forall e, ID (updateFn e) = ID e) ->
  LoadScheduledEmails d = Ok emails ->
  LoadScheduledEmails (snd (UpdateScheduledEmail id updateFn d)) = Ok emails' ->
  map ID emails' = map ID emails.
Proof.
  intros Hid Hload. unfold UpdateScheduledEmail. rewrite Hload.
  destruct (updateLoop id updateFn emails) as [upd |] eqn:Hupd; simpl.
  - intros Hl'. destruct (Save_Load emails upd d emails' Hload Hl') as [-> | ->];
      [| reflexivity].
    apply updateLoop_Forall2 in Hupd. clear Hload Hl'.
    induction Hupd as [| e e' l l' He _ IH]; simpl; [reflexivity |].
    rewrite IH. destruct He as [-> | ->]; now rewrite ?Hid.
  - rewrite Hload. now intros [= <-].
Qed.

Lemma Update_idsDistinct id updateFn d :
  (forall e, ID (updateFn e) = ID e) ->
  idsDistinct d -> idsDistinct (snd (UpdateScheduledEmail id updateFn d)).
Proof.
  intros Hid Hd emails' Hl'.
  destruct (LoadScheduledEmails d) as [emails | m] eqn:Hload.
  - rewrite (Update_ids id updateFn d emails emails' Hid Hload Hl').
    now apply Hd.
  - unfold UpdateScheduledEmail in Hl'. rewrite Hload in Hl'. simpl in Hl'.
    congruence.
Qed.

Lemma filter_idsDistinct (keep : ScheduledEmailData -> bool) d emails :
  idsDistinct d ->
  LoadScheduledEmails d = Ok emails ->
  idsDistinct (snd (SaveScheduledEmails (List.filter keep emails) d)).
Proof.
  intros Hd Hload emails' Hl'.
  destruct (Save_Load emails _ d emails' Hload Hl') as [-> | ->].
  - apply NoDup_map_filter. now apply Hd.
  - now apply Hd.
Qed.

Lemma markStep_idsDistinct W t e d :
  idsDistinct d -> idsDistinct (markStep W t e d).
Proof.
  intros Hd. unfold markStep, MarkScheduledEmailSent, MarkScheduledEmailError.
  destruct (attemptOf W e); now apply Update_idsDistinct.
Qed.

Lemma markSteps_idsDistinct W clock pending :
  forall i d, idsDistinct d -> idsDistinct (markSteps W clock i pending d).
Proof.
  induction pending as [| e rest IH]; intros i d Hd; simpl; [exact Hd |].
  apply IH. now apply markStep_idsDistinct.
Qed.

(** X6. Distinct ids are an invariant of everything that touches the
    store after [Add]: the two Mark operations, the two Clear
    operations and a whole run of the dispatcher leave the ids of a
    store pairwise distinct when they were. *)
Theorem ids_stay_distinct d :
  idsDistinct d ->
  (forall id messageID now,
     idsDistinct (snd (MarkScheduledEmailSent id messageID now d)))
  /\ (forall id errMsg, idsDistinct (snd (MarkScheduledEmailError id errMsg d)))
  /\ (forall accountName,
        idsDistinct (snd (ClearSentScheduledEmails accountName d)))
  /\ (forall accountName,
        idsDistinct (snd (ClearAllScheduledEmails accountName d)))
  /\ (forall W account dryRun now clock,
        idsDistinct (snd (mailScheduledSendCmd W account dryRun now clock d))).
Proof.
  intros Hd. split; [| split; [| split; [| split]]].
  - intros id messageID now. now apply Update_idsDistinct.
  - intros id errMsg. now apply Update_idsDistinct.
  - intros accountName. unfold ClearSentScheduledEmails.
    destruct (LoadScheduledEmails d) as [emails | m] eqn:Hload; [| exact Hd].
    rewrite clearSentLoop_filter. now apply filter_idsDistinct.
  - intros accountName. unfold ClearAllScheduledEmails.
    destruct (LoadScheduledEmails d) as [emails | m] eqn:Hload; [| exact Hd].
    destruct (accountName =? "")%string.
    + intros emails' Hl'.
      destruct (Save_Load emails [] d emails' Hload Hl') as [-> | ->];
        [constructor | now apply Hd].
    + rewrite clearAllLoop_filter. now apply filter_idsDistinct.
  - intros W account dryRun now clock. unfold mailScheduledSendCmd.
    destruct (GetPendingScheduledEmails account now d) as [pending | m];
      [| exact Hd].
    destruct (length pending =? 0)%nat; [exact Hd |].
    destruct dryRun; [exact Hd |].
    destruct (config_Load W); [exact Hd |].
    rewrite sendLoop_spec. simpl. now apply markSteps_idsDistinct.
Qed.

Lemma ids_stay_distinct_witness :
  idsDistinct
    (snd (mailScheduledSendCmd sampleWorld "" false 11 sampleClock
            (diskOf sampleStore))).
Proof.
  apply (ids_stay_distinct (diskOf sampleStore)).
  intros emails [= <-]. exact sampleStore_ids_distinct.
Defined.

(* ================================================================= *)
(** ** The store: clearing, listing and adding against the due list *)

Lemma filter_filter_implied {A} (p q : A -> bool) (l : list A) :
  (forall x, p x = true -> q x = true) ->
  List.filter p (List.filter q l) = List.filter p l.
Proof.
  intros Himp. induction l as [| x l IH]; simpl; [reflexivity |].
  destruct (q x) eqn:Hq; simpl.
  - now rewrite IH.
  - destruct (p x) eqn:Hp; [| exact IH].
    apply Himp in Hp. congruence.
Qed.

Lemma pendingb_keptb a accountName now e :
  pendingb accountName now e = true -> keptb a e = true.
Proof.
  unfold pendingb, keptb. destruct (Sent e); simpl; [discriminate | reflexivity].
Qed.

Lemma Save_Ok_inv l d d' :
  SaveScheduledEmails l d = (Ok tt, d') ->
  d' = rewritten l d /\ ensureErr d = None /\ pathErr d = None
  /\ marshalErr d l = None /\ writeErr d = None.
Proof.
  unfold SaveScheduledEmails, getScheduledPath, rewritten.
  destruct (ensureErr d); [discriminate |].
  destruct (pathErr d); [discriminate |].
  destruct (marshalErr d l); [discriminate |].
  destruct (writeErr d) as [[m r] |]; [discriminate |].
  intros [= <-]. auto.
Qed.

(** X7. A [ClearSent] that succeeds never changes what is due: for
    every account filter of the clearing, and every account filter
    and clock reading of the query, [GetPendingScheduledEmails]
    answers after it as before it.  Clearing a second time succeeds
    and changes nothing more. *)
Theorem clear_sent_keeps_due clearAccount account now d d' :
  ClearSentScheduledEmails clearAccount d = (Ok tt, d') ->
  GetPendingScheduledEmails account now d'
  = GetPendingScheduledEmails account now d
  /\ exists d'',
       ClearSentScheduledEmails clearAccount d' = (Ok tt, d'')
       /\ LoadScheduledEmails d'' = LoadScheduledEmails d'.
Proof.
  unfold ClearSentScheduledEmails.
  destruct (LoadScheduledEmails d) as [emails | m] eqn:Hload; [| discriminate].
  rewrite clearSentLoop_filter. simpl. intros Hs.
  apply Save_Ok_inv in Hs as (-> & He & Hp & Hm & Hw).
  set (kept := List.filter (keptb clearAccount) emails) in *.
  assert (Hl' : LoadScheduledEmails (rewritten kept d) = Ok kept)
    by now apply Load_rewritten.
  split.
  - rewrite (GetPending_filter account now _ kept Hl').
    rewrite (GetPending_filter account now d emails Hload).
    f_equal. apply filter_filter_implied.
    intros e. apply pendingb_keptb.
  - rewrite Hl', clearSentLoop_filter. simpl.
    assert (Hk : List.filter (keptb clearAccount) kept = kept).
    { unfold kept. now apply filter_filter_implied. }
    rewrite Hk.
    exists (rewritten kept (rewritten kept d)). split.
    + unfold SaveScheduledEmails, getScheduledPath, rewritten. simpl.
      now rewrite He, Hp, Hm, Hw.
    + apply Load_rewritten. exact Hp.
Qed.

Lemma clear_sent_keeps_due_witness :
  GetPendingScheduledEmails "" 11
    (rewritten (List.filter (keptb "work") sampleStore) (diskOf sampleStore))
  = GetPendingScheduledEmails "" 11 (diskOf sampleStore).
Proof.
  apply (clear_sent_keeps_due "work" "" 11 (diskOf sampleStore)).
  reflexivity.
Defined.

Lemma byAccountLoop_filter accountName emails result :
  byAccountLoop accountName emails result
  = result ++ map toListing (List.filter (ofAccount accountName) emails).
Proof.
  revert result.
  induction emails as [| e rest IH]; intros result; simpl.
  - now rewrite app_nil_r.
  - unfold ofAccount at 1.
    destruct ((accountName =? "")%string || (Account e =? accountName)%string);
      rewrite IH; [simpl; now rewrite <- app_assoc | reflexivity].
Qed.

Lemma filter_all {A} (p : A -> bool) (l : list A) :
  (forall x, p x = true) -> List.filter p l = l.
Proof.
  intros Hp. induction l as [| x l IH]; simpl; [reflexivity |].
  now rewrite Hp, IH.
Qed.

(** X8. [GetScheduledEmailsByAccount] returns, in store order, the
    listing entry of every record of the account asked for, and of
    every record of the store when no account is asked for: with an
    empty account name the listing is as long as the store. *)
Theorem list_by_account accountName d emails :
  LoadScheduledEmails d = Ok emails ->
  exists listed,
    GetScheduledEmailsByAccount accountName d = Ok listed
    /\ listed
       = map toListing (List.filter (ofAccount accountName) emails)
    /\ (forall x,
          In x listed
          <-> exists e, In e emails /\ x = toListing e
                        /\ (accountName <> "" -> Account e = accountName))
    /\ (accountName = "" -> listed = map toListing emails)
    /\ (length listed <= length emails)%nat.
Proof.
  intros Hload. eexists. split; [| split; [reflexivity | split; [| split]]].
  - unfold GetScheduledEmailsByAccount. rewrite Hload.
    now rewrite byAccountLoop_filter.
  - intros x. rewrite in_map_iff. split.
    + intros (e & <- & He). apply filter_In in He as [He Ha].
      exists e. repeat split; auto.
      intros Hne. unfold ofAccount in Ha.
      apply String.eqb_neq in Hne. rewrite Hne in Ha. simpl in Ha.
      now apply String.eqb_eq.
    + intros (e & He & -> & Ha). exists e. split; [reflexivity |].
      apply filter_In. split; [exact He |]. unfold ofAccount.
      destruct (String.eqb_spec accountName ""); [reflexivity |].
      simpl. apply String.eqb_eq. now apply Ha.
  - intros ->. now rewrite filter_all.
  - rewrite length_map. apply List.filter_length_le.
Qed.

Lemma list_by_account_witness :
  exists listed,
    GetScheduledEmailsByAccount "personal" (diskOf sampleStore) = Ok listed
    /\ listed
       = map toListing
           [mail "3" "personal" 3 true "";
            mail "5" "personal" 2 false "quota exceeded";
            mail "6" "personal" 6 false ""].
Proof.
  destruct (list_by_account "personal" (diskOf sampleStore) sampleStore eq_refl)
    as (listed & H1 & H2 & _).
  exists listed. split; [exact H1 | exact H2].
Defined.

Lemma pendingOnlyLoop_filter emails pending :
  pendingOnlyLoop emails pending
  = pending
    ++ List.filter
         (fun e => negb (outputScheduled.Sent e)
                   && (outputScheduled.Error e =? "")%string) emails.
Proof.
  revert pending.
  induction emails as [| e rest IH]; intros pending; simpl.
  - now rewrite app_nil_r.
  - destruct (negb (outputScheduled.Sent e)
              && (outputScheduled.Error e =? "")%string);
      rewrite IH; [now rewrite <- app_assoc | reflexivity].
Qed.

Lemma filter_map_commute {A B} (f : A -> B) (p : B -> bool) (l : list A) :
  List.filter p (map f l) = map f (List.filter (fun x => p (f x)) l).
Proof.
  induction l as [| x l IH]; simpl; [reflexivity |].
  destruct (p (f x)); simpl; now rewrite IH.
Qed.

Lemma sublist_map {A B} (f : A -> B) (l1 l2 : list A) :
  sublist l1 l2 -> sublist (map f l1) (map f l2).
Proof.
  induction 1; simpl; now constructor.
Qed.

Lemma sublist_filter_implied {A} (p q : A -> bool) (l : list A) :
  (forall x, p x = true -> q x = true) ->
  sublist (List.filter p l) (List.filter q l).
Proof.
  intros Himp. induction l as [| x l IH]; simpl; [constructor |].
  destruct (p x) eqn:Hp.
  - rewrite (Himp x Hp). now constructor.
  - destruct (q x); [now constructor | exact IH].
Qed.

(** X9. What [mail scheduled list --pending] shows and what the
    dispatcher would send.  The listing keeps exactly the entries
    whose status cell reads Pending; every record the dispatcher finds
    due for the same account is among them, in the same order; and a
    record scheduled for later is listed as pending though it is not
    due. *)
Theorem pending_listing_covers_due accountName now d emails :
  LoadScheduledEmails d = Ok emails ->
  exists listed due,
    mailScheduledListCmd accountName true d = Ok listed
    /\ GetPendingScheduledEmails accountName now d = Ok due
    /\ sublist (map toListing due) listed
    /\ (forall x,
          In x listed
          <-> exists e, In e emails /\ x = toListing e
                        /\ ofAccount accountName e = true
                        /\ scheduledStatus x = "⏳ Pending")
    /\ (forall e, In e emails -> ofAccount accountName e = true ->
                  Sent e = false -> Error e = "" -> now <= ScheduledAt e ->
                  In (toListing e) listed /\ ~ In e due).
Proof.
  intros Hload.
  set (pen := fun e : ScheduledEmailData =>
                negb (Sent e) && (Error e =? "")%string).
  assert (Hlist : mailScheduledListCmd accountName true d
                  = Ok (map toListing
                          (List.filter pen
                             (List.filter (ofAccount accountName) emails)))).
  { unfold mailScheduledListCmd, GetScheduledEmailsByAccount. rewrite Hload.
    rewrite byAccountLoop_filter, pendingOnlyLoop_filter. simpl.
    now rewrite filter_map_commute. }
  assert (Hdue : List.filter (pendingb accountName now) emails
                 = List.filter (fun e => pen e && (ScheduledAt e <? now))
                     (List.filter (ofAccount accountName) emails)).
  { clear. induction emails as [| e l IH]; simpl; [reflexivity |].
    unfold pendingb at 1, ofAccount at 1, pen.
    destruct ((accountName =? "")%string || (Account e =? accountName)%string);
      simpl.
    - rewrite andb_true_r, IH. reflexivity.
    - rewrite andb_false_r. exact IH. }
  eexists _, _. split; [exact Hlist |].
  split; [exact (GetPending_filter accountName now d emails Hload) |].
  split; [| split].
  - rewrite Hdue. apply sublist_map.
    apply sublist_filter_implied.
    intros e He. now apply andb_true_iff in He as [He _].
  - intros x. rewrite in_map_iff. split.
    + intros (e & <- & He). apply filter_In in He as [He Hp].
      apply filter_In in He as [He Ha].
      exists e. repeat split; auto.
      unfold pen in Hp. apply andb_true_iff in Hp as [Hs Herr].
      apply negb_true_iff in Hs.
      unfold scheduledStatus, toListing. simpl. now rewrite Hs, Herr.
    + intros (e & He & -> & Ha & Hst). exists e. split; [reflexivity |].
      apply filter_In. split; [apply filter_In; now split |].
      unfold pen. unfold scheduledStatus, toListing in Hst. simpl in Hst.
      destruct (Sent e); [discriminate |].
      destruct (Error e =? "")%string; [reflexivity | discriminate].
  - intros e He Ha Hs Herr Hlater. split.
    + apply in_map. apply filter_In. split; [apply filter_In; now split |].
      unfold pen. rewrite Hs. apply String.eqb_eq in Herr. now rewrite Herr.
    + intros Hin. apply filter_In in Hin as [_ Hp].
      apply pendingb_spec in Hp as (_ & _ & Hlt & _). lia.
Qed.

Lemma pending_listing_covers_due_witness :
  exists listed due,
    mailScheduledListCmd "work" true (diskOf sampleStore) = Ok listed
    /\ GetPendingScheduledEmails "work" 10 (diskOf sampleStore) = Ok due
    /\ sublist (map toListing due) listed
    /\ listed = map toListing [mail "1" "work" 5 false "";
                               mail "2" "work" 10 false ""]
    /\ due = [mail "1" "work" 5 false ""].
Proof.
  destruct (pending_listing_covers_due "work" 10 (diskOf sampleStore)
              sampleStore eq_refl)
    as (listed & due & H1 & H2 & H3 & _).
  exists listed, due. split; [exact H1 |]. split; [exact H2 |].
  split; [exact H3 |].
  split.
  - vm_compute in H1. now injection H1 as <-.
  - vm_compute in H2. now injection H2 as <-.
Defined.

(** X10. A record just added moves into the due list by the clock
    alone: whatever was due stays due in the same order, a record
    scheduled at or after the reading changes nothing, and a record
    added without an error is due, last in the list, as soon as the
    reading is past its time and the account filter lets it through. *)
Theorem add_then_due tID tCreated email account now d d' due :
  GetPendingScheduledEmails account now d = Ok due ->
  AddScheduledEmail tID tCreated email d = (Ok tt, d') ->
  let r := addedRecord tID tCreated email in
  GetPendingScheduledEmails account now d'
  = Ok (due ++ (if pendingb account now r then [r] else []))
  /\ (now <= ScheduledAt email ->
      GetPendingScheduledEmails account now d' = Ok due)
  /\ (Error email = "" -> ScheduledAt email < now ->
      account = "" \/ Account email = account ->
      GetPendingScheduledEmails account now d' = Ok (due ++ [r])).
Proof.
  intros Hdue Hadd r.
  apply GetPending_Load in Hdue as (emails & Hload & ->).
  rewrite (Add_unfold _ _ _ _ _ Hload) in Hadd.
  apply Save_Ok_inv in Hadd as (-> & _ & Hp & _).
  fold r.
  assert (Hrun : GetPendingScheduledEmails account now
                   (rewritten (emails ++ [r]) d)
                 = Ok (List.filter (pendingb account now) emails
                       ++ (if pendingb account now r then [r] else []))).
  { rewrite (GetPending_filter account now _ (emails ++ [r]))
      by now apply Load_rewritten.
    rewrite List.filter_app. reflexivity. }
  split; [exact Hrun |]. split.
  - intros Hlater. rewrite Hrun.
    assert (Hr : pendingb account now r = false).
    { destruct (pendingb account now r) eqn:Hr; [| reflexivity].
      apply pendingb_spec in Hr as (_ & _ & Hlt & _). simpl in Hlt. lia. }
    now rewrite Hr, app_nil_r.
  - intros Herr Hpast Hacc. rewrite Hrun.
    assert (Hr : pendingb account now r = true).
    { apply pendingb_spec. repeat split; simpl; auto.
      intros Hne. now destruct Hacc. }
    now rewrite Hr.
Qed.

Lemma add_then_due_witness :
  GetPendingScheduledEmails "work" 600
    (rewritten (sampleStore ++ [addedRecord 100 200 (mail "" "work" 500 false "")])
       (diskOf sampleStore))
  = Ok [mail "1" "work" 5 false ""; mail "2" "work" 10 false "";
        addedRecord 100 200 (mail "" "work" 500 false "")].
Proof.
  apply (add_then_due 100 200 (mail "" "work" 500 false "") "work" 600
           (diskOf sampleStore)
           (rewritten
              (sampleStore ++ [addedRecord 100 200 (mail "" "work" 500 false "")])
              (diskOf sampleStore))
           [mail "1" "work" 5 false ""; mail "2" "work" 10 false ""]);
    [reflexivity | reflexivity | reflexivity | simpl; lia | now right].
Defined.

(* ================================================================= *)
(** ** The dispatcher: sent and failed stay apart *)

Lemma marked_exclusive W account now e e' :
  pendingb account now e = true -> markedAs W e e' -> exclusive e'.
Proof.
  intros Hp Hm. apply pendingb_spec in Hp as (Hs & Herr & _).
  unfold markedAs in Hm. unfold exclusive.
  destruct (attemptOf W e) as [msgID | err].
  - destruct Hm as [Hsame _]. intros _.
    destruct Hsame as (_ & _ & _ & _ & _ & _ & _ & _ & _ & _ & _ & He).
    congruence.
  - subst e'. simpl. congruence.
Qed.

(** X11. On a writable disk and a store with pairwise distinct ids in
    which no record is both sent and marked with an error, a run of
    the dispatcher (dry or not) leaves a store of the same length in
    which, again, no record is both sent and marked with an error:
    the Mark calls of a run land on records that were due. *)
Theorem dispatch_keeps_exclusive W account dryRun now clock d emails :
  LoadScheduledEmails d = Ok emails ->
  writable d ->
  List.NoDup (map ID emails) ->
  Forall exclusive emails ->
  exists emails',
    LoadScheduledEmails
      (snd (mailScheduledSendCmd W account dryRun now clock d)) = Ok emails'
    /\ Forall exclusive emails'
    /\ length emails' = length emails.
Proof.
  intros Hload Hw Hnd Hex.
  unfold mailScheduledSendCmd.
  rewrite (GetPending_filter account now d emails Hload).
  destruct (length (List.filter (pendingb account now) emails) =? 0)%nat;
    [now exists emails |].
  destruct dryRun; [now exists emails |].
  destruct (config_Load W); [now exists emails |].
  rewrite sendLoop_spec. simpl.
  destruct (markSteps_store W account now clock d emails Hload Hw Hnd)
    as (emails' & Hl' & _ & Hall).
  exists emails'. split; [exact Hl' |].
  clear Hload Hl' Hnd. split.
  - induction Hall as [| e e' l l' He _ IH]; [constructor |].
    inversion Hex as [| ? ? Hxe Hxl]; subst.
    constructor; [| now apply IH].
    destruct (pendingb account now e) eqn:Hp.
    + eapply marked_exclusive; eauto.
    + now subst e'.
  - symmetry. eapply Forall2_length; eauto.
Qed.

Lemma dispatch_keeps_exclusive_witness :
  exists emails',
    LoadScheduledEmails
      (snd (mailScheduledSendCmd sampleWorld "" false 11 sampleClock
              (diskOf sampleStore))) = Ok emails'
    /\ Forall exclusive emails'
    /\ length emails' = length sampleStore.
Proof.
  apply (dispatch_keeps_exclusive sampleWorld "" false 11 sampleClock
           (diskOf sampleStore) sampleStore eq_refl).
  - repeat split.
  - exact sampleStore_ids_distinct.
  - repeat constructor; unfold exclusive; simpl; congruence.
Defined.

(** Distinct ids are needed: of two due records that share an id, the
    first is marked sent by its own attempt and then marked with the
    error of the second. *)
Example shared_id_sent_and_failed :
  exists r rest,
    LoadScheduledEmails
      (snd (mailScheduledSendCmd sampleWorld "" false 11 sampleClock
              (diskOf sharedIdStore))) = Ok (r :: rest)
    /\ Sent r = true /\ Error r = "failed to send draft: quota exceeded".
Proof.
  eexists _, _. split; [vm_compute; reflexivity |]. split; reflexivity.
Qed.

(** X12. What is due only grows as the clock moves on.  On the same
    store, the records due at a reading are due at every later
    reading, in the same order; the ones that join them were scheduled
    between the two readings; and the records due for one account are
    among those due with no account named. *)
Theorem due_grows_with_clock account now later d due :
  GetPendingScheduledEmails account now d = Ok due ->
  now <= later ->
  exists dueLater dueAll,
    GetPendingScheduledEmails account later d = Ok dueLater
    /\ GetPendingScheduledEmails "" later d = Ok dueAll
    /\ sublist due dueLater
    /\ sublist dueLater dueAll
    /\ (forall e, In e dueLater -> ~ In e due -> now <= ScheduledAt e < later).
Proof.
  intros Hdue Hle.
  apply GetPending_Load in Hdue as (emails & Hload & ->).
  exists (List.filter (pendingb account later) emails),
         (List.filter (pendingb "" later) emails).
  split; [now apply GetPending_filter |].
  split; [now apply GetPending_filter |].
  split; [| split].
  - apply sublist_filter_implied. intros e He.
    apply pendingb_spec in He as (Hs & Herr & Hlt & Ha).
    apply pendingb_spec. repeat split; auto. lia.
  - apply sublist_filter_implied. intros e He.
    apply pendingb_spec in He as (Hs & Herr & Hlt & Ha).
    apply pendingb_spec. repeat split; auto. intros Hne. now contradiction Hne.
  - intros e Hin Hnot. apply filter_In in Hin as [Hin Hp].
    apply pendingb_spec in Hp as (Hs & Herr & Hlt & Ha).
    split; [| exact Hlt].
    destruct (Z.lt_ge_cases (ScheduledAt e) now) as [Hbefore | Hge];
      [| exact Hge].
    exfalso. apply Hnot. apply filter_In. split; [exact Hin |].
    apply pendingb_spec. repeat split; auto.
Qed.

Lemma due_grows_with_clock_witness :
  exists dueLater dueAll,
    GetPendingScheduledEmails "work" 11 (diskOf sampleStore) = Ok dueLater
    /\ GetPendingScheduledEmails "" 11 (diskOf sampleStore) = Ok dueAll
    /\ sublist [mail "1" "work" 5 false ""] dueLater
    /\ sublist dueLater dueAll.
Proof.
  destruct (due_grows_with_clock "work" 10 11 (diskOf sampleStore)
              [mail "1" "work" 5 false ""] eq_refl)
    as (dueLater & dueAll & H1 & H2 & H3 & H4 & _); [lia |].
  exists dueLater, dueAll. repeat split; assumption.
Defined.

(* ================================================================= *)
(** ** The clear command and the schedule command: what reaches the store *)

Lemma sublist_List_filter {A} (p : A -> bool) (l : list A) :
  sublist (List.filter p l) l.
Proof.
  induction l as [| x l IH]; simpl; [constructor |].
  destruct (p x); now constructor.
Qed.

(** X13. [gcli mail scheduled clear] succeeds only with [--sent] or
    [--all].  What it leaves is the store's records in their order
    with some taken out, never a record of an account other than the
    one named; [--sent] wins over [--all], so that with [--sent] no
    unsent record is taken out; with [--all] alone nothing of the
    account named (or nothing at all, with no account named) is
    left. *)
Theorem clear_command_flags accountName sentOnly all d d' emails :
  LoadScheduledEmails d = Ok emails ->
  mailScheduledClearCmd accountName sentOnly all d = (Ok tt, d') ->
  (sentOnly = true \/ all = true)
  /\ exists kept,
       LoadScheduledEmails d' = Ok kept
       /\ sublist kept emails
       /\ (forall e, In e emails -> ofAccount accountName e = false ->
                     In e kept)
       /\ (sentOnly = true ->
           kept = List.filter (keptb accountName) emails
           /\ forall e, In e emails -> Sent e = false -> In e kept)
       /\ (sentOnly = false ->
           forall e, In e kept -> ofAccount accountName e = false).
Proof.
  intros Hload. unfold mailScheduledClearCmd.
  pose proof (Load_Ok_pathErr d emails Hload) as Hp.
  destruct sentOnly.
  - unfold ClearSentScheduledEmails. rewrite Hload, clearSentLoop_filter.
    simpl.
    destruct (SaveScheduledEmails _ d) as [[[] | m] d1] eqn:Hs; [| discriminate].
    intros [= <-]. apply Save_Ok_inv in Hs as (-> & _).
    split; [now left |]. eexists. split; [now apply Load_rewritten |].
    split; [apply sublist_List_filter |]. split; [| split].
    + intros e He Ha. apply filter_In. split; [exact He |].
      unfold ofAccount in Ha. apply orb_false_iff in Ha as [Ha1 Ha2].
      unfold keptb. rewrite Ha1, Ha2. simpl. apply orb_true_r.
    + intros _. split; [reflexivity |].
      intros e He Hs. apply filter_In. split; [exact He |].
      unfold keptb. now rewrite Hs.
    + discriminate.
  - destruct all; [| discriminate].
    unfold ClearAllScheduledEmails. rewrite Hload.
    destruct (String.eqb_spec accountName "") as [-> | Hne].
    + destruct (SaveScheduledEmails [] d) as [[[] | m] d1] eqn:Hs;
        [| discriminate].
      intros [= <-]. apply Save_Ok_inv in Hs as (-> & _).
      split; [now right |]. exists []. split; [now apply Load_rewritten |].
      split; [apply sublist_nil_l |]. split; [| split].
      * intros e _ Ha. discriminate Ha.
      * discriminate.
      * intros _ e [].
    + rewrite clearAllLoop_filter. simpl.
      destruct (SaveScheduledEmails _ d) as [[[] | m] d1] eqn:Hs;
        [| discriminate].
      intros [= <-]. apply Save_Ok_inv in Hs as (-> & _).
      split; [now right |]. eexists. split; [now apply Load_rewritten |].
      split; [apply sublist_List_filter |]. split; [| split].
      * intros e He Ha. apply filter_In. split; [exact He |].
        unfold ofAccount in Ha. apply orb_false_iff in Ha as [_ Ha2].
        now rewrite Ha2.
      * discriminate.
      * intros _ e He. apply filter_In in He as [_ He].
        apply negb_true_iff in He. unfold ofAccount. rewrite He.
        apply String.eqb_neq in Hne. now rewrite Hne.
Qed.

Lemma clear_command_flags_witness :
  exists kept,
    LoadScheduledEmails
      (snd (mailScheduledClearCmd "work" true true (diskOf sampleStore)))
    = Ok kept
    /\ kept = List.filter (keptb "work") sampleStore
    /\ In (mail "1" "work" 5 false "") kept.
Proof.
  destruct (clear_command_flags "work" true true (diskOf sampleStore)
              (snd (mailScheduledClearCmd "work" true true (diskOf sampleStore)))
              sampleStore eq_refl eq_refl)
    as (_ & kept & Hl & _ & _ & Hsent & _).
  destruct (Hsent eq_refl) as [Hk Hin].
  exists kept. split; [exact Hl |]. split; [exact Hk |].
  apply Hin; [simpl; now left | reflexivity].
Defined.

(** X14. The schedule command touches the store of scheduled emails
    in its last step only.  A run whose calls do not include
    [AddScheduledEmail] fails and leaves the store file as it was; a
    run that reaches [AddScheduledEmail] has by then created the draft
    on the mail service, so that when the store then refuses the
    record the command fails with "failed to schedule email" and the
    draft stays behind.  The disk [d] stands for the store file
    alone; the token file and the configuration directory, which
    opening the session may write, are no part of it. *)
Theorem schedule_touches_store_last W fl now tID tCreated d r log d' :
  mailScheduleCmd W fl now tID tCreated d = (r, log, d') ->
  ((forall s, ~ In (CallAddScheduledEmail s) log) ->
   d' = d /\ exists m, r = Err m)
  /\ (forall s, In (CallAddScheduledEmail s) log ->
      exists name acc client draft,
        log = [CallConfigLoad; CallGetAccount (flagAccount fl);
               CallNewClient name; CallCreateDraft name draft;
               CallAddScheduledEmail s]
        /\ cfg_GetAccount W (flagAccount fl) = Ok (name, acc)
        /\ NewClient W name acc = Ok client
        /\ CreateDraft client draft = Ok (DraftID s)
        /\ dTo draft = flagTo fl /\ dSubject draft = flagSubject fl
        /\ dBody draft = flagBody fl
        /\ (forall m, r = Err m ->
            exists m', AddScheduledEmail tID tCreated s d = (Err m', d')
                       /\ m = wrapErr "failed to schedule email: " m')).
Proof.
  unfold mailScheduleCmd.
  destruct (length (flagTo fl) =? 0)%nat;
    [intros [= <- <- <-]; split; [eauto | intros s []] |].
  destruct (flagSubject fl =? "")%string;
    [intros [= <- <- <-]; split; [eauto | intros s []] |].
  destruct (flagBody fl =? "")%string;
    [intros [= <- <- <-]; split; [eauto | intros s []] |].
  destruct (flagAt fl =? "")%string;
    [intros [= <- <- <-]; split; [eauto | intros s []] |].
  destruct (parseDateTime W (flagAt fl)) as [scheduledAt | m0];
    [| intros [= <- <- <-]; split; [eauto | intros s []] ].
  destruct (Before scheduledAt now);
    [intros [= <- <- <-]; split; [eauto | intros s []] |].
  destruct (config_Load W) as [mc |];
    [intros [= <- <- <-]; split; [eauto |];
     intros s [Hs | []]; discriminate Hs |].
  destruct (cfg_GetAccount W (flagAccount fl)) as [[name acc] | m1] eqn:Hacc;
    [| intros [= <- <- <-]; split; [eauto |];
       intros s [Hs | [Hs | []]]; discriminate Hs ].
  destruct (NewClient W name acc) as [client | m2] eqn:Hclient;
    [| intros [= <- <- <-]; split; [eauto |];
       intros s [Hs | [Hs | [Hs | []]]]; discriminate Hs ].
  cbv zeta.
  destruct (CreateDraft client _) as [draftID | m3] eqn:Hdraft;
    [| intros [= <- <- <-]; split; [eauto |];
       intros s [Hs | [Hs | [Hs | [Hs | []]]]]; discriminate Hs ].
  destruct (AddScheduledEmail tID tCreated _ d) as [[[] | m4] d1] eqn:Hadd;
    intros [= <- <- <-]; (split;
      [intros Hno; exfalso; eapply Hno; simpl; do 4 right; left; reflexivity |]);
    intros s [Hs | [Hs | [Hs | [Hs | [Hs | []]]]]]; try discriminate Hs;
    injection Hs as <-;
    exists name, acc, client; eexists;
    (split; [reflexivity |]); (split; [first [reflexivity | exact Hacc] |]);
    (split; [exact Hclient |]); (split; [exact Hdraft |]);
    (split; [reflexivity |]); (split; [reflexivity |]);
    (split; [reflexivity |]).
  - discriminate.
  - intros m [= <-]. eauto.
Qed.

Lemma schedule_touches_store_last_witness :
  let d := mkDisk (Garbled "unexpected end of JSON input") None None
             (fun _ => None) None 0 in
  let run := mailScheduleCmd sampleWorld sampleFlags 1735120800000000000 1 2 d in
  exists name draft m',
    In (CallCreateDraft name draft) (snd (fst run))
    /\ fst (fst run) = Err (wrapErr "failed to schedule email: " m')
    /\ snd run = d.
Proof.
  intros d run.
  destruct (schedule_touches_store_last sampleWorld sampleFlags
              1735120800000000000 1 2 d (fst (fst run)) (snd (fst run))
              (snd run) eq_refl) as [_ H].
  destruct (H (mkScheduledEmailData "" "work" "draft-new" ["user@example.com"]
                 [] [] "Hello" "Message" false 1735120800000000000 zeroTime
                 false zeroTime ""))
    as (name & acc & client & draft & Hlog & _ & _ & _ & _ & _ & _ & Herr).
  { vm_compute. do 4 right. left. reflexivity. }
  destruct (Herr ("failed to schedule email: failed to parse scheduled emails: "
                  ++ "unexpected end of JSON input")%string eq_refl)
    as (m' & _ & Hm).
  exists name, draft, m'. split; [| split].
  - rewrite Hlog. simpl. do 3 right. left. reflexivity.
  - rewrite <- Hm. reflexivity.
  - reflexivity.
Defined.

(* ================================================================= *)
(** ** Parsing the schedule time *)

Lemma parseDateTimeLoop_Err W formats s m :
  parseDateTimeLoop W formats s = Err m ->
  m = ("could not parse datetime: " ++ s)%string
  /\ forall f, In f formats -> exists m', time_Parse W f s = Err m'.
Proof.
  induction formats as [| f rest IH]; simpl.
  - intros [= <-]. split; [reflexivity | intros f []].
  - destruct (time_Parse W f s) as [t | m'] eqn:Hp.
    + destruct (_ || _); discriminate.
    + intros H. destruct (IH H) as [-> Hall]. split; [reflexivity |].
      intros f' [<- | Hin]; eauto.
Qed.

Lemma parseDateTimeLoop_first W before format after s t :
  (forall f, In f before -> exists m, time_Parse W f s = Err m) ->
  time_Parse W format s = Ok t ->
  parseDateTimeLoop W (before ++ format :: after) s
  = if (format =? "2006-01-02T15:04:05")%string
       || (format =? "2006-01-02 15:04:05")%string
       || (format =? "2006-01-02T15:04")%string
       || (format =? "2006-01-02 15:04")%string
    then Ok (time_Local W t) else Ok t.
Proof.
  intros Hbefore Hok.
  induction before as [| f rest IH]; simpl.
  - now rewrite Hok.
  - destruct (Hbefore f (or_introl eq_refl)) as [m Hm]. rewrite Hm.
    apply IH. intros f' Hf'. apply Hbefore. now right.
Qed.

(** X15. [parseDateTime] takes the first layout of its list that the
    input parses under.  It fails, with "could not parse datetime:"
    and the input, exactly when no layout accepts the input; a time
    that carries its zone (RFC 3339) is returned as parsed; a time
    accepted by one of the four layouts without a zone, the earlier
    layouts having refused the input, is read as local time. *)
Theorem parse_date_time_layouts W s :
  (parseDateTime W s = Err ("could not parse datetime: " ++ s)%string
   <-> forall format, In format dateTimeFormats ->
                      exists m, time_Parse W format s = Err m)
  /\ (forall m, parseDateTime W s = Err m ->
                m = ("could not parse datetime: " ++ s)%string)
  /\ (forall t, time_Parse W "2006-01-02T15:04:05Z07:00" s = Ok t ->
                parseDateTime W s = Ok t)
  /\ (forall before format after t,
        dateTimeFormats = before ++ format :: after ->
        before <> [] ->
        (forall f, In f before -> exists m, time_Parse W f s = Err m) ->
        time_Parse W format s = Ok t ->
        parseDateTime W s = Ok (time_Local W t)).
Proof.
  split; [| split; [| split]].
  - split.
    + intros H. now apply parseDateTimeLoop_Err in H as [_ H].
    + intros H. unfold parseDateTime.
      destruct (parseDateTimeLoop W dateTimeFormats s) as [t | m] eqn:Hrun.
      * exfalso. revert Hrun. generalize dateTimeFormats H.
        intros formats Hall.
        induction formats as [| f rest IH]; simpl; [discriminate |].
        destruct (Hall f (or_introl eq_refl)) as [m Hm]. rewrite Hm.
        apply IH. intros f' Hf'. apply Hall. now right.
      * now apply parseDateTimeLoop_Err in Hrun as [-> _].
  - intros m H. now apply parseDateTimeLoop_Err in H as [-> _].
  - intros t Hok. unfold parseDateTime, dateTimeFormats. simpl.
    now rewrite Hok.
  - intros before format after t Heq Hne Hbefore Hok.
    unfold parseDateTime. rewrite Heq.
    rewrite (parseDateTimeLoop_first W before format after s t Hbefore Hok).
    destruct before as [| b0 before]; [contradiction |].
    unfold dateTimeFormats in Heq. injection Heq as _ Heq.
    destruct before as [| b1 before]; simpl in Heq;
      [injection Heq as <- _; reflexivity | injection Heq as _ Heq].
    destruct before as [| b2 before]; simpl in Heq;
      [injection Heq as <- _; reflexivity | injection Heq as _ Heq].
    destruct before as [| b3 before]; simpl in Heq;
      [injection Heq as <- _; reflexivity | injection Heq as _ Heq].
    destruct before as [| b4 before]; simpl in Heq;
      [injection Heq as <- _; reflexivity | injection Heq as _ Heq].
    destruct before; discriminate Heq.
Qed.

(* ================================================================= *)
(** ** The mail listing: what the fan-in keeps *)

Lemma fanIn_spec {X : Type} (task : string -> result (list X)) finished :
  forall all errs,
    fanIn task finished all errs
    = (all ++ resultsOf task finished, errs ++ failuresOf task finished).
Proof.
  induction finished as [| name rest IH]; intros all errs; simpl.
  - now rewrite !app_nil_r.
  - destruct (task name) as [xs | m]; rewrite IH; simpl;
      now rewrite <- ?app_assoc.
Qed.

Lemma failuresOf_length {X : Type} (task : string -> result (list X)) names :
  length (failuresOf task names) = length (List.filter (failsFor task) names).
Proof.
  induction names as [| name rest IH]; simpl; [reflexivity |].
  unfold failsFor at 1. destruct (task name); simpl; now rewrite IH.
Qed.

Lemma failuresOf_In {X : Type} (task : string -> result (list X)) names m :
  In m (failuresOf task names) <-> exists name, In name names /\ task name = Err m.
Proof.
  unfold failuresOf. rewrite in_flat_map. split.
  - intros (name & Hin & Hm). exists name. split; [exact Hin |].
    destruct (task name); [contradiction |].
    destruct Hm as [-> | []]. reflexivity.
  - intros (name & Hin & Hm). exists name. split; [exact Hin |].
    rewrite Hm. now left.
Qed.

Lemma resultsOf_In {X : Type} (task : string -> result (list X)) names x :
  In x (resultsOf task names)
  <-> exists name xs, In name names /\ task name = Ok xs /\ In x xs.
Proof.
  unfold resultsOf. rewrite in_flat_map. split.
  - intros (name & Hin & Hx). exists name.
    destruct (task name) as [xs |]; [| contradiction]. eauto.
  - intros (name & xs & Hin & Hok & Hx). exists name. split; [exact Hin |].
    now rewrite Hok.
Qed.

Lemma mailReadTask_Err W query limit name m :
  mailReadTask W query limit name = Err m ->
  exists m0, m = ("[" ++ name ++ "] " ++ m0)%string.
Proof.
  unfold mailReadTask.
  destruct (cfg_GetAccount W name) as [[n acc] | m1];
    [| intros [= <-]; eauto].
  destruct (NewClient W name acc) as [client | m2]; [| intros [= <-]; eauto].
  destruct (ListMessages client query limit) as [emails | m3];
    [discriminate | intros [= <-]; eauto].
Qed.

(** X16. [mail read] loses nothing in its fan-in.  When every account
    started finishes once, in whatever order, the list handed to the
    printer holds exactly the messages of the accounts that answered
    (a rearrangement of them by whole accounts), an account that
    fails takes nothing away from the others, and there is one error
    per failing account, tagged with that account's name. *)
Theorem mail_fan_in_complete W sched account allAccounts query limit
  errs emails :
  (forall l, sched l ≡ₚ l) ->
  mailReadCmd W sched account allAccounts query limit = Ok (errs, emails) ->
  exists accounts,
    selectAccounts W allAccounts account = Ok accounts
    /\ emails ≡ₚ resultsOf (mailReadTask W query limit) accounts
    /\ errs ≡ₚ failuresOf (mailReadTask W query limit) accounts
    /\ length errs
       = length (List.filter (failsFor (mailReadTask W query limit)) accounts)
    /\ (forall name xs x,
          In name accounts -> mailReadTask W query limit name = Ok xs ->
          In x xs -> In x emails)
    /\ (forall m, In m errs ->
          exists name m0,
            In name accounts /\ m = ("[" ++ name ++ "] " ++ m0)%string).
Proof.
  intros Hsched Hrun.
  destruct (mail_listing_is_fan_in _ _ _ _ _ _ _ _ Hrun)
    as (accounts & Hsel & Hfan).
  rewrite fanIn_spec in Hfan. simpl in Hfan. injection Hfan as -> ->.
  set (task := mailReadTask W query limit).
  assert (Hres : resultsOf task (sched accounts) ≡ₚ resultsOf task accounts)
    by (unfold resultsOf; now rewrite (Hsched accounts)).
  assert (Herrs : failuresOf task (sched accounts) ≡ₚ failuresOf task accounts)
    by (unfold failuresOf; now rewrite (Hsched accounts)).
  exists accounts. split; [exact Hsel |]. split; [exact Hres |].
  split; [exact Herrs |]. split; [| split].
  - rewrite (Permutation_length Herrs). apply failuresOf_length.
  - intros name xs x Hin Hok Hx.
    apply (Permutation_in x (Permutation_sym Hres)).
    apply resultsOf_In. eauto.
  - intros m Hm. apply (Permutation_in m Herrs) in Hm.
    apply failuresOf_In in Hm as (name & Hin & Herr).
    apply mailReadTask_Err in Herr as [m0 ->]. eauto.
Qed.

Lemma mail_fan_in_complete_witness :
  let W :=
    sampleWorldWith None
      (fun name =>
         if (name =? "work")%string
         then Ok (name, config.mkAccountConfig "id" "secret" "")
         else Err ("account '" ++ name ++ "' not found")%string) in
  exists accounts,
    selectAccounts W true "" = Ok accounts
    /\ [message "m2" "work" 200; message "m1" "work" 100]
       ≡ₚ resultsOf (mailReadTask W "" 25) accounts
    /\ ["[personal] account 'personal' not found"]
       ≡ₚ failuresOf (mailReadTask W "" 25) accounts.
Proof.
  intros W.
  destruct (mail_fan_in_complete W (fun l => l) "" true "" 25
              ["[personal] account 'personal' not found"]
              [message "m2" "work" 200; message "m1" "work" 100])
    as (accounts & H1 & H2 & H3 & _).
  - intros l. reflexivity.
  - reflexivity.
  - exists accounts. repeat split; assumption.
Defined.

(* ================================================================= *)
(** ** Cutting strings *)

Lemma string_length_append (s t : string) :
  String.length (s ++ t)%string = (String.length s + String.length t)%nat.
Proof.
  induction s as [| c s IH]; simpl; [reflexivity | now rewrite IH].
Qed.

Lemma sliceTo_length n s :
  (n <= String.length s)%nat -> String.length (sliceTo n s) = n.
Proof.
  unfold sliceTo. revert s.
  induction n as [| n IH]; intros s Hn.
  - destruct s; reflexivity.
  - destruct s as [| c s]; simpl in *; [lia |].
    rewrite IH by lia. reflexivity.
Qed.

Lemma sliceTo_prefix n s : String.prefix (sliceTo n s) s = true.
Proof.
  unfold sliceTo. revert s.
  induction n as [| n IH]; intros s.
  - destruct s; reflexivity.
  - destruct s as [| c s]; simpl; [reflexivity |].
    destruct (ascii_dec c c); [apply IH | contradiction].
Qed.

(** X17. The two string cutters keep within the length asked for.
    Each fails (the slice expression panics) exactly on a negative
    length; otherwise a string that fits is returned as it is, and a
    longer one is cut to exactly the length asked for: by [truncate]
    to its first bytes followed by three dots when the length is over
    three, to its first bytes alone otherwise; by [truncateString] to
    its first bytes. *)
Theorem truncate_bounds s maxLen :
  (truncate s maxLen = None <-> maxLen < 0)
  /\ (truncateString s maxLen = None <-> maxLen < 0)
  /\ (forall r, truncate s maxLen = Some r ->
        Z.of_nat (String.length r) <= maxLen
        /\ (Z.of_nat (String.length s) <= maxLen -> r = s)
        /\ (maxLen < Z.of_nat (String.length s) ->
            Z.of_nat (String.length r) = maxLen
            /\ (maxLen <= 3 -> String.prefix r s = true)
            /\ (3 < maxLen ->
                exists head,
                  r = (head ++ "...")%string /\ String.prefix head s = true)))
  /\ (forall r, truncateString s maxLen = Some r ->
        Z.of_nat (String.length r) <= maxLen
        /\ String.prefix r s = true
        /\ (Z.of_nat (String.length s) <= maxLen -> r = s)
        /\ (maxLen < Z.of_nat (String.length s) ->
            Z.of_nat (String.length r) = maxLen)).
Proof.
  unfold truncate, truncateString.
  destruct (Z.leb_spec (Z.of_nat (String.length s)) maxLen) as [Hfit | Hlong].
  - split; [split; [discriminate | lia] |].
    split; [split; [discriminate | lia] |].
    split; intros r [= <-].
    + split; [exact Hfit |]. split; [reflexivity | lia].
    + split; [exact Hfit |]. split; [| split; [reflexivity | lia]].
      clear. induction s as [| c s IH]; simpl; [reflexivity |].
      destruct (ascii_dec c c); [exact IH | contradiction].
  - destruct (Z.ltb_spec maxLen 0) as [Hneg | Hpos].
    + assert (Hle : (maxLen <=? 3) = true) by (apply Z.leb_le; lia).
      rewrite Hle.
      split; [split; [intros _; exact Hneg | reflexivity] |].
      split; [split; [intros _; exact Hneg | reflexivity] |].
      split; intros r; discriminate.
    + assert (Hcut : forall n, 0 <= n <= maxLen ->
                Z.of_nat (String.length (sliceTo (Z.to_nat n) s)) = n).
      { intros n Hn. rewrite sliceTo_length; lia. }
      split.
      { split; [| lia]. destruct (maxLen <=? 3); discriminate. }
      split; [split; [discriminate | lia] |].
      split.
      * destruct (Z.leb_spec maxLen 3) as [Hsmall | Hbig]; intros r [= <-].
        -- rewrite Hcut by lia. split; [lia |]. split; [lia |].
           intros _. split; [reflexivity |].
           split; [intros _; apply sliceTo_prefix | lia].
        -- rewrite string_length_append, Nat2Z.inj_add, Hcut by lia.
           simpl String.length.
           split; [lia |]. split; [lia |].
           intros _. split; [lia |]. split; [lia |].
           intros _. eexists. split; [reflexivity | apply sliceTo_prefix].
      * intros r [= <-]. rewrite Hcut by lia.
        split; [lia |]. split; [apply sliceTo_prefix |]. split; lia.
Qed.

(* ================================================================= *)
(** ** Reading a message: tags and addresses *)

Lemma stripHTMLLoop_acc inTag runes :
  forall result,
    stripHTMLLoop inTag runes result = result ++ stripHTMLLoop inTag runes [].
Proof.
  revert inTag.
  induction runes as [| r rest IH]; intros inTag result; simpl.
  - now rewrite app_nil_r.
  - destruct (r =? 60); [apply IH |].
    destruct (r =? 62); [apply IH |].
    destruct inTag; simpl; [apply IH |].
    rewrite (IH false (result ++ [r])), (IH false [r]).
    now rewrite <- app_assoc.
Qed.

Lemma stripHTMLLoop_no_brackets inTag runes :
  Forall (fun r => r <> 60 /\ r <> 62) (stripHTMLLoop inTag runes []).
Proof.
  revert inTag.
  induction runes as [| r rest IH]; intros inTag; simpl; [constructor |].
  destruct (Z.eqb_spec r 60); [apply IH |].
  destruct (Z.eqb_spec r 62); [apply IH |].
  destruct inTag; simpl; [apply IH |].
  rewrite stripHTMLLoop_acc. simpl. constructor; [now split | apply IH].
Qed.

Lemma stripHTMLLoop_sublist inTag runes :
  sublist (stripHTMLLoop inTag runes []) runes.
Proof.
  revert inTag.
  induction runes as [| r rest IH]; intros inTag; simpl; [constructor |].
  destruct (r =? 60); [constructor; apply IH |].
  destruct (r =? 62); [constructor; apply IH |].
  destruct inTag; simpl; [constructor; apply IH |].
  rewrite stripHTMLLoop_acc. simpl. constructor. apply IH.
Qed.

Lemma stripHTMLLoop_plain runes :
  Forall (fun r => r <> 60 /\ r <> 62) runes ->
  stripHTMLLoop false runes [] = runes.
Proof.
  induction 1 as [| r rest [H60 H62] _ IH]; simpl; [reflexivity |].
  apply Z.eqb_neq in H60, H62. rewrite H60, H62.
  rewrite stripHTMLLoop_acc, IH. reflexivity.
Qed.

Lemma stripHTMLLoop_open before after :
  forall inTag result,
    stripHTMLLoop inTag (before ++ 60 :: after) result
    = stripHTMLLoop true after (stripHTMLLoop inTag before result).
Proof.
  induction before as [| r rest IH]; intros inTag result; simpl.
  - reflexivity.
  - destruct (r =? 60); [apply IH |].
    destruct (r =? 62); [apply IH |].
    destruct inTag; simpl; apply IH.
Qed.

Lemma stripHTMLLoop_unclosed after :
  ~ In 62 after -> forall result, stripHTMLLoop true after result = result.
Proof.
  induction after as [| r rest IH]; intros Hno result; simpl; [reflexivity |].
  destruct (r =? 60); [apply IH; intros H; apply Hno; now right |].
  destruct (Z.eqb_spec r 62) as [-> | _]; [exfalso; apply Hno; now left |].
  apply IH. intros H. apply Hno. now right.
Qed.

(** X18. [stripHTML], on the runes its loop ranges over, leaves no
    angle bracket: the runes it writes hold neither ['<'] nor ['>'],
    are runes of the input in their order, and are all written again
    when stripped a second time; of an input without angle brackets
    every rune is written.  A ['<'] that is never closed takes the
    rest of the text with it. *)
Theorem strip_html_properties runes :
  ~ In 60 (stripHTMLRunes runes)
  /\ ~ In 62 (stripHTMLRunes runes)
  /\ sublist (stripHTMLRunes runes) runes
  /\ stripHTMLRunes (stripHTMLRunes runes) = stripHTMLRunes runes
  /\ (~ In 60 runes /\ ~ In 62 runes -> stripHTMLRunes runes = runes)
  /\ (forall before after,
        runes = before ++ 60 :: after -> ~ In 62 after ->
        stripHTMLRunes runes = stripHTMLRunes before).
Proof.
  unfold stripHTMLRunes.
  pose proof (stripHTMLLoop_no_brackets false runes) as Hno.
  split; [| split; [| split; [| split; [| split]]]].
  - intros Hin. rewrite List.Forall_forall in Hno.
    now destruct (Hno 60 Hin).
  - intros Hin. rewrite List.Forall_forall in Hno.
    now destruct (Hno 62 Hin).
  - apply stripHTMLLoop_sublist.
  - now apply stripHTMLLoop_plain.
  - intros [H60 H62]. apply stripHTMLLoop_plain.
    apply List.Forall_forall. intros r Hr. split; intros ->; contradiction.
  - intros before after -> Hopen.
    rewrite stripHTMLLoop_open. now apply stripHTMLLoop_unclosed.
Qed.






(* ================================================================= *)
(** ** Reading a message: attachments and body *)

Lemma MessagePart_nested_ind (P : gmailapi.MessagePart -> Prop) :
  (forall m f b ps, Forall P ps -> P (gmailapi.mkMessagePart m f b ps)) ->
  forall p, P p.
Proof.
  intros H. fix IH 1. intros [m f b ps]. apply H.
  revert ps. fix IHps 1. intros [| p ps]; constructor; [apply IH | apply IHps].
Qed.

Lemma extractAttachmentNames_eq payload :
  extractAttachmentNames payload
  = (if negb (gmailapi.Filename payload =? "")%string
     then [gmailapi.Filename payload] else [])
    ++ flat_map extractAttachmentNames (gmailapi.Parts payload).
Proof.
  destruct payload as [m f b ps]. simpl.
  generalize (if negb (f =? "")%string then [f] else []).
  induction ps as [| p ps IH]; intros names; simpl.
  - now rewrite app_nil_r.
  - rewrite IH. now rewrite <- app_assoc.
Qed.

Lemma hasAttachLoop_true parts :
  hasAttachLoop parts = true
  <-> exists part, In part parts /\ gmailapi.Filename part <> "".
Proof.
  induction parts as [| p ps IH]; simpl.
  - split; [discriminate | intros (part & [] & _)].
  - destruct (String.eqb_spec (gmailapi.Filename p) "") as [He | Hne]; simpl.
    + rewrite IH. split.
      * intros (part & Hin & Hf). eauto.
      * intros (part & [<- | Hin] & Hf); [contradiction | eauto].
    + split; [eauto | reflexivity].
Qed.

(** X20. The attachment names of a message are the file names of all
    its parts, at any depth, that have one, the message's own
    included; none of them is empty.  The attachment mark of the
    message list looks at the parts one level down only: where it is
    set there are names, but a message can have names and no mark. *)
Theorem attachment_names_all_depths payload :
  (forall name,
     In name (extractAttachmentNames payload)
     <-> name <> ""
         /\ exists part, partOf part payload /\ gmailapi.Filename part = name)
  /\ (summaryHasAttach payload = true
      <-> exists part, In part (gmailapi.Parts payload)
                       /\ gmailapi.Filename part <> "")
  /\ (summaryHasAttach payload = true -> extractAttachmentNames payload <> [])
  /\ summaryHasAttach nestedAttachment = false
  /\ extractAttachmentNames nestedAttachment = ["report.pdf"].
Proof.
  assert (Hnames : forall p name,
            In name (extractAttachmentNames p)
            <-> name <> ""
                /\ exists part, partOf part p /\ gmailapi.Filename part = name).
  { intros p name. split.
    - revert name. induction p as [m f b ps IH] using MessagePart_nested_ind.
      intros name. rewrite extractAttachmentNames_eq, in_app_iff. simpl.
      intros [Hown | Hnested].
      + destruct (String.eqb_spec f "") as [| Hne]; simpl in Hown;
          [contradiction |].
        destruct Hown as [<- | []]. split; [exact Hne |].
        eexists. split; [apply partOf_self | reflexivity].
      + apply in_flat_map in Hnested as (child & Hin & Hname).
        rewrite List.Forall_forall in IH.
        destruct (IH child Hin name Hname) as (Hne & part & Hpart & Hf).
        split; [exact Hne |]. exists part. split; [| exact Hf].
        eapply partOf_nested; eauto.
    - intros (Hne & part & Hpart & Hf).
      induction Hpart as [p | q child p Hin _ IH];
        rewrite extractAttachmentNames_eq, in_app_iff.
      + left. rewrite Hf. apply String.eqb_neq in Hne. rewrite Hne.
        simpl. now left.
      + right. apply in_flat_map. exists child. split; [exact Hin |].
        now apply IH. }
  split; [apply Hnames |]. split; [apply hasAttachLoop_true |].
  split; [| split; reflexivity].
  intros Hmark Hnil. apply hasAttachLoop_true in Hmark as (part & Hin & Hf).
  assert (Hname : In (gmailapi.Filename part) (extractAttachmentNames payload)).
  { apply Hnames. split; [exact Hf |]. exists part. split; [| reflexivity].
    eapply partOf_nested; [exact Hin | apply partOf_self]. }
  rewrite Hnil in Hname. contradiction.
Qed.

Lemma firstBodyOfType_usable decode mime parts :
  firstBodyOfType decode mime parts
  = match List.filter
            (fun p => (gmailapi.MimeType p =? mime)%string
                      && match usableBody decode p with
                         | Some _ => true | None => false end) parts with
    | [] => None
    | part :: _ => usableBody decode part
    end.
Proof.
  induction parts as [| p ps IH]; simpl; [reflexivity |].
  destruct (gmailapi.MimeType p =? mime)%string; simpl; [| exact IH].
  unfold usableBody at 1.
  destruct (gmailapi.Body p) as [data |] eqn:Hbody; [| exact IH].
  destruct (negb (data =? "")%string) eqn:Hdata; [| exact IH].
  destruct (decode data) as [text |] eqn:Hdecode; [| exact IH].
  simpl. unfold usableBody. now rewrite Hbody, Hdata, Hdecode.
Qed.

Lemma firstBodyOfType_first decode mime before part after text :
  gmailapi.MimeType part = mime ->
  usableBody decode part = Some text ->
  (forall p, In p before -> gmailapi.MimeType p = mime ->
             usableBody decode p = None) ->
  firstBodyOfType decode mime (before ++ part :: after) = Some text.
Proof.
  intros Hmime Huse Hbefore. rewrite firstBodyOfType_usable.
  rewrite List.filter_app.
  assert (Hnone : List.filter
            (fun p => (gmailapi.MimeType p =? mime)%string
                      && match usableBody decode p with
                         | Some _ => true | None => false end) before = []).
  { induction before as [| p ps IH]; simpl; [reflexivity |].
    destruct (String.eqb_spec (gmailapi.MimeType p) mime) as [Hm | _]; simpl.
    - rewrite (Hbefore p (or_introl eq_refl) Hm).
      apply IH. intros q Hq. apply Hbefore. now right.
    - apply IH. intros q Hq. apply Hbefore. now right. }
  rewrite Hnone. simpl.
  apply String.eqb_eq in Hmime. now rewrite Hmime, Huse.
Qed.

Lemma firstBodyOfType_none decode mime parts :
  (forall p, In p parts -> gmailapi.MimeType p = mime ->
             usableBody decode p = None) ->
  firstBodyOfType decode mime parts = None.
Proof.
  intros Hnone. induction parts as [| p ps IH]; simpl; [reflexivity |].
  assert (Hps : firstBodyOfType decode mime ps = None).
  { apply IH. intros q Hq. apply Hnone. now right. }
  destruct (String.eqb_spec (gmailapi.MimeType p) mime) as [Hm | _];
    [| exact Hps].
  pose proof (Hnone p (or_introl eq_refl) Hm) as Hu. unfold usableBody in Hu.
  destruct (gmailapi.Body p) as [data |]; [| exact Hps].
  destruct (negb (data =? "")%string); [| exact Hps].
  now rewrite Hu.
Qed.

Lemma extractBody_eq decode strip m f body parts :
  extractBody decode strip (gmailapi.mkMessagePart m f body parts)
  = match usableBody decode (gmailapi.mkMessagePart m f body parts) with
    | Some text => text
    | None =>
        match firstBodyOfType decode "text/plain" parts with
        | Some text => text
        | None =>
            match firstBodyOfType decode "text/html" parts with
            | Some text => strip text
            | None => firstNonEmpty (map (extractBody decode strip) parts)
            end
        end
    end.
Proof.
  unfold usableBody. simpl.
  destruct (match body with
            | Some data => if negb (data =? "")%string then decode data else None
            | None => None
            end); [reflexivity |].
  destruct (firstBodyOfType decode "text/plain" parts); [reflexivity |].
  destruct (firstBodyOfType decode "text/html" parts); [reflexivity |].
  induction parts as [| p ps IH]; simpl; [reflexivity |].
  destruct (negb (extractBody decode strip p =? "")%string);
    [reflexivity | exact IH].
Qed.

(** X21. Where [extractBody] takes the text from.  A body of the
    message itself that decodes is the text.  Failing that, the first
    part one level down of type text/plain whose body decodes is the
    text, wherever the text/html parts stand; with no such part, the
    first text/html part whose body decodes, with its tags stripped;
    with neither, the first part whose own extraction is not empty;
    and the empty string when nothing is found. *)
Theorem extract_body_preference decode strip m f body parts :
  let payload := gmailapi.mkMessagePart m f body parts in
  (forall text, usableBody decode payload = Some text ->
                extractBody decode strip payload = text)
  /\ (usableBody decode payload = None ->
      (forall before part after text,
         parts = before ++ part :: after ->
         gmailapi.MimeType part = "text/plain" ->
         usableBody decode part = Some text ->
         (forall p, In p before -> gmailapi.MimeType p = "text/plain" ->
                    usableBody decode p = None) ->
         extractBody decode strip payload = text)
      /\ ((forall p, In p parts -> gmailapi.MimeType p = "text/plain" ->
                     usableBody decode p = None) ->
          (forall before part after text,
             parts = before ++ part :: after ->
             gmailapi.MimeType part = "text/html" ->
             usableBody decode part = Some text ->
             (forall p, In p before -> gmailapi.MimeType p = "text/html" ->
                        usableBody decode p = None) ->
             extractBody decode strip payload = strip text)
          /\ ((forall p, In p parts -> gmailapi.MimeType p = "text/html" ->
                         usableBody decode p = None) ->
              extractBody decode strip payload
              = firstNonEmpty (map (extractBody decode strip) parts)
              /\ ((forall p, In p parts -> extractBody decode strip p = "") ->
                  extractBody decode strip payload = "")))).
Proof.
  intros payload. unfold payload. split.
  - intros text Huse. now rewrite extractBody_eq, Huse.
  - intros Hdirect. split.
    + intros before part after text -> Hmime Huse Hbefore.
      rewrite extractBody_eq, Hdirect.
      now rewrite (firstBodyOfType_first decode "text/plain" before part after
                     text Hmime Huse Hbefore).
    + intros Hplain. split.
      * intros before part after text Heq Hmime Huse Hbefore.
        rewrite extractBody_eq, Hdirect.
        rewrite (firstBodyOfType_none decode "text/plain" parts Hplain).
        rewrite Heq.
        now rewrite (firstBodyOfType_first decode "text/html" before part
                       after text Hmime Huse Hbefore).
      * intros Hhtml.
        assert (Hrun : extractBody decode strip
                         (gmailapi.mkMessagePart m f body parts)
                       = firstNonEmpty (map (extractBody decode strip) parts)).
        { rewrite extractBody_eq, Hdirect.
          rewrite (firstBodyOfType_none decode "text/plain" parts Hplain).
          now rewrite (firstBodyOfType_none decode "text/html" parts Hhtml). }
        split; [exact Hrun |].
        intros Hempty. rewrite Hrun. clear Hrun Hplain Hhtml Hdirect.
        induction parts as [| p ps IH]; simpl; [reflexivity |].
        rewrite (Hempty p (or_introl eq_refl)). simpl.
        apply IH. intros q Hq. apply Hempty. now right.
Qed.

(* ================================================================= *)
(** ** The calendar: summaries and updates *)

Lemma listEventsLoop_map W accountName calendarID items :
  forall summaries,
    listEventsLoop W accountName calendarID items summaries
    = summaries ++ map (stamped W accountName calendarID) items.
Proof.
  induction items as [| ev rest IH]; intros summaries; simpl.
  - now rewrite app_nil_r.
  - rewrite IH. now rewrite <- app_assoc.
Qed.

(** X22. What the calendar listing makes of the events of a response.
    There is one summary per event, in the order of the response, each
    with the id, title, location and status of its event and the
    account and calendar of the client.  The start of a summary is
    read off the start of the event: a date-time, when there is one,
    is parsed and is the start, or the start is the zero time when it
    does not parse, whatever the date says, and the summary is not
    all-day; with no date-time, a date that parses is the start and
    makes the summary all-day; in every other case the start is the
    zero time and the summary is not all-day.  The end is read off the
    end of the event in the same way. *)
Theorem event_summaries W accountName calendarID items :
  let summaries := listEventsLoop W accountName calendarID items [] in
  length summaries = length items
  /\ Forall (fun s => output.evAccount s = accountName
                      /\ output.CalendarID s = calendarID) summaries
  /\ Forall2 (fun ev s =>
       (output.evID s = gcal.Id ev
        /\ output.Summary s = gcal.Summary ev
        /\ output.Location s = gcal.Location ev
        /\ output.Status s = gcal.Status ev)
       /\ (output.AllDay s = true
           <-> exists start,
                 gcal.Start ev = Some start
                 /\ gcal.DateTime start = ""
                 /\ gcal.Date start <> ""
                 /\ time_Parse W "2006-01-02" (gcal.Date start)
                    = Ok (output.Start s))
       /\ (forall start t,
             gcal.Start ev = Some start -> gcal.DateTime start <> "" ->
             time_Parse W "2006-01-02T15:04:05Z07:00" (gcal.DateTime start)
             = Ok t ->
             output.Start s = t /\ output.AllDay s = false)
       /\ (forall start m,
             gcal.Start ev = Some start -> gcal.DateTime start <> "" ->
             time_Parse W "2006-01-02T15:04:05Z07:00" (gcal.DateTime start)
             = Err m ->
             output.Start s = zeroTime /\ output.AllDay s = false)
       /\ (forall start t,
             gcal.Start ev = Some start -> gcal.DateTime start = "" ->
             gcal.Date start <> "" ->
             time_Parse W "2006-01-02" (gcal.Date start) = Ok t ->
             output.Start s = t /\ output.AllDay s = true)
       /\ (gcal.Start ev = None
           \/ (exists start,
                 gcal.Start ev = Some start /\ gcal.DateTime start = ""
                 /\ (gcal.Date start = ""
                     \/ exists m, time_Parse W "2006-01-02" (gcal.Date start)
                                  = Err m)) ->
           output.Start s = zeroTime /\ output.AllDay s = false)
       /\ (forall e t,
             gcal.End_ ev = Some e -> gcal.DateTime e <> "" ->
             time_Parse W "2006-01-02T15:04:05Z07:00" (gcal.DateTime e)
             = Ok t ->
             output.End_ s = t)
       /\ (forall e m,
             gcal.End_ ev = Some e -> gcal.DateTime e <> "" ->
             time_Parse W "2006-01-02T15:04:05Z07:00" (gcal.DateTime e)
             = Err m ->
             output.End_ s = zeroTime)
       /\ (forall e t,
             gcal.End_ ev = Some e -> gcal.DateTime e = "" ->
             gcal.Date e <> "" ->
             time_Parse W "2006-01-02" (gcal.Date e) = Ok t ->
             output.End_ s = t)
       /\ (gcal.End_ ev = None
           \/ (exists e,
                 gcal.End_ ev = Some e /\ gcal.DateTime e = ""
                 /\ (gcal.Date e = ""
                     \/ exists m, time_Parse W "2006-01-02" (gcal.Date e)
                                  = Err m)) ->
           output.End_ s = zeroTime))
       items summaries.
Proof.
  intros summaries. unfold summaries. rewrite listEventsLoop_map. simpl.
  split; [apply length_map |].
  split.
  { apply List.Forall_forall. intros s Hs.
    apply in_map_iff in Hs as (ev & <- & _). split; reflexivity. }
  induction items as [| ev rest IH]; simpl; constructor; [| exact IH].
  clear IH. split; [repeat split |].
  assert (Hstart :
    forall start,
      gcal.Start ev = Some start ->
      summaryStart W (gcal.Start ev)
      = if negb (gcal.DateTime start =? "")%string then
          match time_Parse W "2006-01-02T15:04:05Z07:00" (gcal.DateTime start)
          with Ok t => (t, false) | Err _ => (zeroTime, false) end
        else if negb (gcal.Date start =? "")%string then
          match time_Parse W "2006-01-02" (gcal.Date start)
          with Ok t => (t, true) | Err _ => (zeroTime, false) end
        else (zeroTime, false)).
  { intros start ->. reflexivity. }
  assert (Hend :
    forall e,
      gcal.End_ ev = Some e ->
      summaryEnd W (gcal.End_ ev)
      = if negb (gcal.DateTime e =? "")%string then
          match time_Parse W "2006-01-02T15:04:05Z07:00" (gcal.DateTime e)
          with Ok t => t | Err _ => zeroTime end
        else if negb (gcal.Date e =? "")%string then
          match time_Parse W "2006-01-02" (gcal.Date e)
          with Ok t => t | Err _ => zeroTime end
        else zeroTime).
  { intros e ->. reflexivity. }
  unfold stamped, eventToSummary. simpl.
  split; [| split; [| split; [| split; [| split; [| split;
    [| split; [| split]]]]]]].
  - split.
    + destruct (gcal.Start ev) as [start |] eqn:Hs; [| discriminate].
      rewrite (Hstart start eq_refl).
      destruct (String.eqb_spec (gcal.DateTime start) "") as [Hdt | Hdt]; simpl.
      * destruct (String.eqb_spec (gcal.Date start) "") as [Hd | Hd]; simpl;
          [discriminate |].
        destruct (time_Parse W "2006-01-02" (gcal.Date start)) as [t | m]
          eqn:Hparse; simpl; [| discriminate].
        intros _. exists start. auto.
      * destruct (time_Parse W "2006-01-02T15:04:05Z07:00" _); discriminate.
    + intros (start & Hs & Hdt & Hd & Hparse).
      rewrite (Hstart start Hs).
      apply String.eqb_eq in Hdt. apply String.eqb_neq in Hd.
      rewrite Hdt, Hd. simpl. now rewrite Hparse.
  - intros start t Hs Hdt Hparse. rewrite (Hstart start Hs).
    apply String.eqb_neq in Hdt. rewrite Hdt. simpl. now rewrite Hparse.
  - intros start m Hs Hdt Hparse. rewrite (Hstart start Hs).
    apply String.eqb_neq in Hdt. rewrite Hdt. simpl. now rewrite Hparse.
  - intros start t Hs Hdt Hd Hparse. rewrite (Hstart start Hs).
    apply String.eqb_eq in Hdt. apply String.eqb_neq in Hd.
    rewrite Hdt, Hd. simpl. now rewrite Hparse.
  - intros [Hs | (start & Hs & Hdt & Hd)].
    + rewrite Hs. split; reflexivity.
    + rewrite (Hstart start Hs). apply String.eqb_eq in Hdt. rewrite Hdt.
      simpl. destruct Hd as [Hd | [m Hparse]].
      * apply String.eqb_eq in Hd. rewrite Hd. split; reflexivity.
      * destruct (negb (gcal.Date start =? "")%string);
          [rewrite Hparse |]; split; reflexivity.
  - intros e t He Hdt Hparse. rewrite (Hend e He).
    apply String.eqb_neq in Hdt. rewrite Hdt. simpl. now rewrite Hparse.
  - intros e m He Hdt Hparse. rewrite (Hend e He).
    apply String.eqb_neq in Hdt. rewrite Hdt. simpl. now rewrite Hparse.
  - intros e t He Hdt Hd Hparse. rewrite (Hend e He).
    apply String.eqb_eq in Hdt. apply String.eqb_neq in Hd.
    rewrite Hdt, Hd. simpl. now rewrite Hparse.
  - intros [He | (e & He & Hdt & Hd)].
    + now rewrite He.
    + rewrite (Hend e He). apply String.eqb_eq in Hdt. rewrite Hdt.
      simpl. destruct Hd as [Hd | [m Hparse]].
      * apply String.eqb_eq in Hd. now rewrite Hd.
      * destruct (negb (gcal.Date e =? "")%string);
          [now rewrite Hparse | reflexivity].
Qed.

(** X23. [UpdateEvent] changes the fields the input sets and no
    other.  The event it submits has the id and the status of the
    event it fetched.  Each of title, description and location is the
    input's when the input sets it and the fetched event's otherwise,
    whatever the other fields of the input are; so is the list of
    attendees; the start and the end are the fetched event's when the
    input leaves them zero, and otherwise the input's, as a date for
    an all-day input and as a date-time for any other.  So no field
    that was set comes out empty, an input with nothing set resubmits
    the event as fetched, and an all-day input that sets the start
    alone leaves the end as it was.  When the update call fails the
    error is "failed to update event". *)
Theorem update_event_keeps_unset Get Update Format eventID input ev :
  Get eventID = Ok ev ->
  exists submitted,
    snd (UpdateEvent Get Update Format eventID input) = Some submitted
    /\ (fst (UpdateEvent Get Update Format eventID input) = Ok tt
        <-> exists u, Update eventID submitted = Ok u)
    /\ (forall m, Update eventID submitted = Err m ->
          fst (UpdateEvent Get Update Format eventID input)
          = Err (wrapErr "failed to update event: " m))
    /\ gcal.Id submitted = gcal.Id ev
    /\ gcal.Status submitted = gcal.Status ev
    /\ (inSummary input = "" -> gcal.Summary submitted = gcal.Summary ev)
    /\ (inSummary input <> "" -> gcal.Summary submitted = inSummary input)
    /\ (inDescription input = "" ->
        gcal.Description submitted = gcal.Description ev)
    /\ (inDescription input <> "" ->
        gcal.Description submitted = inDescription input)
    /\ (inLocation input = "" -> gcal.Location submitted = gcal.Location ev)
    /\ (inLocation input <> "" -> gcal.Location submitted = inLocation input)
    /\ (inStart input = zeroTime -> gcal.Start submitted = gcal.Start ev)
    /\ (inStart input <> zeroTime ->
        gcal.Start submitted
        = Some (if inAllDay input
                then gcal.mkEventDateTime ""
                       (Format "2006-01-02" (inStart input))
                else gcal.mkEventDateTime
                       (Format "2006-01-02T15:04:05Z07:00" (inStart input))
                       ""))
    /\ (inEnd input = zeroTime -> gcal.End_ submitted = gcal.End_ ev)
    /\ (inEnd input <> zeroTime ->
        gcal.End_ submitted
        = Some (if inAllDay input
                then gcal.mkEventDateTime ""
                       (Format "2006-01-02" (inEnd input))
                else gcal.mkEventDateTime
                       (Format "2006-01-02T15:04:05Z07:00" (inEnd input))
                       ""))
    /\ (inAttendees input = [] -> gcal.Attendees submitted = gcal.Attendees ev)
    /\ (inAttendees input <> [] ->
        gcal.Attendees submitted = inAttendees input)
    /\ (gcal.Summary ev <> "" -> gcal.Summary submitted <> "")
    /\ (gcal.Description ev <> "" -> gcal.Description submitted <> "")
    /\ (gcal.Location ev <> "" -> gcal.Location submitted <> "")
    /\ (gcal.Start ev <> None -> gcal.Start submitted <> None)
    /\ (gcal.End_ ev <> None -> gcal.End_ submitted <> None)
    /\ (gcal.Attendees ev <> [] -> gcal.Attendees submitted <> [])
    /\ (inSummary input = "" -> inDescription input = "" ->
        inLocation input = "" -> inStart input = zeroTime ->
        inEnd input = zeroTime -> inAttendees input = [] ->
        submitted = ev)
    /\ (inAllDay input = true -> inStart input <> zeroTime ->
        inEnd input = zeroTime ->
        gcal.Start submitted
        = Some (gcal.mkEventDateTime "" (Format "2006-01-02" (inStart input)))
        /\ gcal.End_ submitted = gcal.End_ ev).
Proof.
  intros Hget. exists (updatedEvent Format ev input).
  unfold UpdateEvent. rewrite Hget. cbv zeta.
  split; [destruct (Update eventID _); reflexivity |].
  split.
  { destruct (Update eventID _) as [[] | m] eqn:Hupd; simpl.
    - split; [eauto | reflexivity].
    - split; [discriminate | intros [u Hu]; discriminate]. }
  split.
  { intros m Hm. now rewrite Hm. }
  unfold updatedEvent, IsZero, inputDateTime. simpl.
  split; [reflexivity |]. split; [reflexivity |].
  split; [intros ->; reflexivity |].
  split; [intros H; apply String.eqb_neq in H; now rewrite H |].
  split; [intros ->; reflexivity |].
  split; [intros H; apply String.eqb_neq in H; now rewrite H |].
  split; [intros ->; reflexivity |].
  split; [intros H; apply String.eqb_neq in H; now rewrite H |].
  split; [intros ->; reflexivity |].
  split.
  { intros H. apply Z.eqb_neq in H. rewrite H. simpl.
    now destruct (inAllDay input). }
  split; [intros ->; reflexivity |].
  split.
  { intros H. apply Z.eqb_neq in H. rewrite H. simpl.
    now destruct (inAllDay input). }
  split; [intros ->; reflexivity |].
  split.
  { destruct (inAttendees input); [contradiction | reflexivity]. }
  split.
  { destruct (String.eqb_spec (inSummary input) ""); simpl; auto. }
  split.
  { destruct (String.eqb_spec (inDescription input) ""); simpl; auto. }
  split.
  { destruct (String.eqb_spec (inLocation input) ""); simpl; auto. }
  split.
  { destruct (negb (inStart input =? zeroTime)); [discriminate | auto]. }
  split.
  { destruct (negb (inEnd input =? zeroTime)); [discriminate | auto]. }
  split.
  { destruct (inAttendees input) as [| a l]; simpl; [auto | discriminate]. }
  split.
  - intros -> -> -> -> -> ->. simpl. now destruct ev.
  - intros Hall Hstart ->.
    apply Z.eqb_neq in Hstart. rewrite Hstart, Hall. split; reflexivity.
Qed.

Lemma update_event_keeps_unset_witness :
  let input := mkEventInput "" "" "Room 5" zeroTime zeroTime false [] in
  exists submitted,
    snd (UpdateEvent (fun _ => Ok sampleEvent) (fun _ _ => Ok tt)
           (fun _ _ => "") "ev-1" input) = Some submitted
    /\ gcal.Location submitted = "Room 5"
    /\ gcal.Summary submitted = "Review"
    /\ gcal.Description submitted = "Quarterly review"
    /\ gcal.Start submitted = gcal.Start sampleEvent
    /\ gcal.End_ submitted = gcal.End_ sampleEvent
    /\ gcal.Attendees submitted = ["a@example.com"].
Proof.
  intros input.
  destruct (update_event_keeps_unset (fun _ => Ok sampleEvent)
              (fun _ _ => Ok tt) (fun _ _ => ""%string) "ev-1" input
              sampleEvent eq_refl)
    as (submitted & Hsub & _ & _ & _ & _ & Hsum & _ & Hdesc & _ & _ & Hloc
        & Hstart & _ & Hend & _ & Hatt & _).
  exists submitted. split; [exact Hsub |].
  split; [apply Hloc; discriminate |].
  split; [apply Hsum; reflexivity |].
  split; [apply Hdesc; reflexivity |].
  split; [apply Hstart; reflexivity |].
  split; [apply Hend; reflexivity |].
  apply Hatt. reflexivity.
Defined.

(** When the fetch fails, [UpdateEvent] submits nothing. *)
Lemma update_event_fetch_fails Get Update Format eventID input m :
  Get eventID = Err m ->
  UpdateEvent Get Update Format eventID input
  = (Err (wrapErr "failed to get event: " m), None).
Proof.
  intros Hget. unfold UpdateEvent. now rewrite Hget.
Qed.

(* ================================================================= *)
(** ** The token files *)

Lemma LoadToken_set accountName path f td :
  tokenPath td accountName = Ok path ->
  LoadToken accountName (setTokenFile path f td)
  = match f with
    | NoToken =>
        Err ("no token found for account '" ++ accountName
             ++ "' - run 'gcli auth add " ++ accountName ++ "' first")%string
    | TokenUnreadable m => Err (wrapErr "failed to read token: " m)
    | TokenGarbled m => Err (wrapErr "failed to parse token: " m)
    | TokenStored token => Ok token
    end.
Proof.
  intros Hpath. unfold LoadToken, setTokenFile. simpl.
  now rewrite Hpath, String.eqb_refl.
Qed.

Lemma SaveToken_Ok accountName token td td' :
  SaveToken accountName token td = (Ok tt, td') ->
  exists path,
    tokenPath td accountName = Ok path
    /\ td' = setTokenFile path (TokenStored token) td.
Proof.
  unfold SaveToken.
  destruct (tokenEnsureErr td); [discriminate |].
  destruct (tokenPath td accountName) as [path | m]; [| discriminate].
  destruct (tokenMarshalErr td token); [discriminate |].
  destruct (tokenWriteErr td); [discriminate |].
  intros [= <-]. eauto.
Qed.

Lemma token_saved accountName token td td' :
  SaveToken accountName token td = (Ok tt, td') ->
  LoadToken accountName td' = Ok token /\ TokenExists accountName td' = true.
Proof.
  intros Hsave.
  apply SaveToken_Ok in Hsave as (path & Hpath & ->).
  split; [now rewrite (LoadToken_set _ _ _ _ Hpath) |].
  unfold TokenExists, setTokenFile. simpl.
  now rewrite Hpath, String.eqb_refl.
Qed.

(** X24. The life of a token file.  A token saved is the token
    loaded, and the account then counts as having a token; the token
    files of accounts stored under other paths are as they were; and
    once the file has been removed the account has no token, loading
    it fails with the advice to run [gcli auth add], and removing it
    again fails. *)
Theorem token_round_trip accountName token td td' :
  SaveToken accountName token td = (Ok tt, td') ->
  LoadToken accountName td' = Ok token
  /\ TokenExists accountName td' = true
  /\ (forall other p q,
        tokenPath td accountName = Ok p -> tokenPath td other = Ok q ->
        q <> p ->
        LoadToken other td' = LoadToken other td
        /\ TokenExists other td' = TokenExists other td)
  /\ (forall td'',
        RemoveToken accountName td' = (Ok tt, td'') ->
        TokenExists accountName td'' = false
        /\ LoadToken accountName td''
           = Err ("no token found for account '" ++ accountName
                  ++ "' - run 'gcli auth add " ++ accountName
                  ++ "' first")%string
        /\ exists m, RemoveToken accountName td'' = (Err m, td'')).
Proof.
  intros Hsave.
  apply SaveToken_Ok in Hsave as (path & Hpath & ->).
  split; [now rewrite (LoadToken_set _ _ _ _ Hpath) |].
  split.
  { unfold TokenExists, setTokenFile. simpl.
    now rewrite Hpath, String.eqb_refl. }
  split.
  - intros other p q Hp Hq Hne. rewrite Hpath in Hp. injection Hp as <-.
    unfold LoadToken, TokenExists, setTokenFile. simpl. rewrite Hq.
    apply String.eqb_neq in Hne. rewrite Hne. split; reflexivity.
  - intros td''. unfold RemoveToken. simpl. rewrite Hpath.
    simpl. rewrite String.eqb_refl.
    destruct (tokenRemoveErr td) as [m |] eqn:Hrm; [discriminate |].
    intros [= <-].
    unfold TokenExists, LoadToken, setTokenFile. simpl.
    rewrite Hpath, String.eqb_refl. split; [reflexivity |].
    split; [reflexivity |]. eexists. reflexivity.
Qed.

Lemma token_round_trip_witness :
  LoadToken "work" (snd (SaveToken "work" sampleToken sampleTokenDisk))
  = Ok sampleToken
  /\ TokenExists "work" (snd (SaveToken "work" sampleToken sampleTokenDisk))
     = true
  /\ TokenExists "personal"
       (snd (SaveToken "work" sampleToken sampleTokenDisk)) = false.
Proof.
  destruct (token_round_trip "work" sampleToken sampleTokenDisk
              (snd (SaveToken "work" sampleToken sampleTokenDisk)) eq_refl)
    as (Hload & Hexists & Hother & _).
  split; [exact Hload |]. split; [exact Hexists |].
  destruct (Hother "personal" "tokens/work.json" "tokens/personal.json"
              eq_refl eq_refl) as [_ ->]; [discriminate | reflexivity].
Defined.

(** X25. [GetClient] and the stored token.  It fails only when the
    token does not load or does not refresh, and then leaves the
    token files as they were.  Otherwise the client carries the
    refreshed token, whether or not that token could be saved; a
    refreshed token with the access token of the stored one is not
    written, whatever else of it has changed; one with another access
    token is the stored token afterwards when the save goes
    through. *)
Theorem get_client_outcomes refresh accountName td :
  (forall m, LoadToken accountName td = Err m ->
             GetClient refresh accountName td = (Err m, td))
  /\ (forall token m,
        LoadToken accountName td = Ok token -> refresh token = Err m ->
        GetClient refresh accountName td
        = (Err (wrapErr "failed to refresh token: " m), td))
  /\ (forall token newToken,
        LoadToken accountName td = Ok token -> refresh token = Ok newToken ->
        fst (GetClient refresh accountName td) = Ok newToken
        /\ (oauth2.AccessToken newToken = oauth2.AccessToken token ->
            snd (GetClient refresh accountName td) = td)
        /\ (oauth2.AccessToken newToken <> oauth2.AccessToken token ->
            snd (GetClient refresh accountName td)
            = snd (SaveToken accountName newToken td)
            /\ (fst (SaveToken accountName newToken td) = Ok tt ->
                LoadToken accountName (snd (GetClient refresh accountName td))
                = Ok newToken)))
  /\ (forall m, fst (GetClient refresh accountName td) = Err m ->
                snd (GetClient refresh accountName td) = td).
Proof.
  unfold GetClient. split; [| split; [| split]].
  - intros m ->. reflexivity.
  - intros token m -> ->. reflexivity.
  - intros token newToken -> ->.
    destruct (String.eqb_spec (oauth2.AccessToken newToken)
                (oauth2.AccessToken token)) as [Heq | Hne]; simpl.
    + split; [reflexivity |]. split; [reflexivity | contradiction].
    + split; [reflexivity |]. split; [contradiction |].
      intros _. split; [reflexivity |].
      intros Hok.
      destruct (SaveToken accountName newToken td) as [r td'] eqn:Hsave.
      simpl in *. subst r.
      now destruct (token_saved accountName newToken td td' Hsave).
  - destruct (LoadToken accountName td) as [token | m0]; [| reflexivity].
    destruct (refresh token) as [newToken | m1]; [| reflexivity].
    destruct (negb _); discriminate.
Qed.

(* ================================================================= *)
(** ** The dispatcher: one account at a time *)

(** X26. A run of the dispatcher for a named account stays within
    that account: every record it finds due is of the account, every
    draft it asks the mail service to send is the draft of a stored
    record of the account and is sent through the account, and, on a
    writable disk and a store with pairwise distinct ids, the records
    of the other accounts are afterwards as they were. *)
Theorem dispatch_account_isolation W account dryRun now clock d emails :
  LoadScheduledEmails d = Ok emails ->
  account <> "" ->
  let run := mailScheduledSendCmd W account dryRun now clock d in
  (forall e, In e (found (fst run)) -> In e emails /\ Account e = account)
  /\ (forall name draftID,
        In (name, draftID) (sendsOf (calls (fst run))) ->
        name = account
        /\ exists e, In e emails /\ Account e = account /\ DraftID e = draftID)
  /\ (writable d -> List.NoDup (map ID emails) ->
      exists emails',
        LoadScheduledEmails (snd run) = Ok emails'
        /\ Forall2 (fun e e' => Account e <> account -> e' = e) emails emails').
Proof.
  intros Hload Hne run.
  set (pending := List.filter (pendingb account now) emails).
  assert (Hpending : forall e, In e pending ->
                               In e emails /\ Account e = account).
  { intros e He. apply filter_In in He as [Hin Hp].
    apply pendingb_spec in Hp as (_ & _ & _ & Ha). auto. }
  assert (Hsame : Forall2 (fun e e' : ScheduledEmailData =>
                             Account e <> account -> e' = e) emails emails).
  { apply Forall2_same. reflexivity. }
  unfold run, mailScheduledSendCmd.
  rewrite (GetPending_filter account now d emails Hload). fold pending.
  destruct (length pending =? 0)%nat.
  { simpl. split; [exact Hpending |]. split; [intros ? ? [] |]. eauto. }
  destruct dryRun.
  { simpl. split; [exact Hpending |]. split; [intros ? ? [] |]. eauto. }
  destruct (config_Load W).
  { simpl. split; [exact Hpending |]. split; [intros ? ? [] |]. eauto. }
  rewrite sendLoop_spec. simpl.
  split; [exact Hpending |]. split.
  - intros name draftID Hin.
    rewrite sendsOf_flat_map in Hin.
    apply in_map_iff in Hin as (e & [= <- <-] & He).
    apply filter_In in He as [He _].
    destruct (Hpending e He) as [Hin Ha]. split; [exact Ha |]. eauto.
  - intros Hw Hnd.
    destruct (markSteps_store W account now clock d emails Hload Hw Hnd)
      as (emails' & Hl' & _ & Hall).
    exists emails'. split; [exact Hl' |].
    clear Hload Hl' Hnd Hsame Hpending.
    induction Hall as [| e e' l l' He _ IH]; constructor; [| exact IH].
    intros Hother.
    destruct (pendingb account now e) eqn:Hp; [| exact He].
    apply pendingb_spec in Hp as (_ & _ & _ & Ha).
    now contradiction Hother; apply Ha.
Qed.

Lemma dispatch_account_isolation_witness :
  let run :=
    mailScheduledSendCmd sampleWorld "work" false 11 sampleClock
      (diskOf sampleStore) in
  (forall e, In e (found (fst run)) -> In e sampleStore /\ Account e = "work")
  /\ exists emails',
       LoadScheduledEmails (snd run) = Ok emails'
       /\ Forall2 (fun e e' => Account e <> "work" -> e' = e)
            sampleStore emails'.
Proof.
  intros run.
  destruct (dispatch_account_isolation sampleWorld "work" false 11 sampleClock
              (diskOf sampleStore) sampleStore eq_refl)
    as (Hfound & _ & Hdisk); [discriminate |].
  split; [exact Hfound |].
  apply Hdisk; [repeat split | exact sampleStore_ids_distinct].
Defined.

(* ================================================================= *)
(** ** The calendar listing: an agenda already in order *)

Lemma swapIfBefore_sorted i j events :
  (i < j)%nat -> ascendingByStart events -> swapIfBefore i j events = events.
Proof.
  intros Hij Hasc. unfold swapIfBefore.
  destruct (events !! i) as [ei |] eqn:Hi; [| reflexivity].
  destruct (events !! j) as [ej |] eqn:Hj; [| reflexivity].
  pose proof (Hasc i j ei ej Hij Hi Hj) as Hle.
  unfold Before. destruct (Z.ltb_spec (output.Start ej) (output.Start ei));
    [lia | reflexivity].
Qed.

Lemma sortInner_sorted i n :
  forall j events,
    (i < j)%nat -> ascendingByStart events -> sortInner i j n events = events.
Proof.
  induction n as [| n IH]; intros j events Hij Hasc; simpl; [reflexivity |].
  rewrite (swapIfBefore_sorted i j events Hij Hasc).
  apply IH; [lia | exact Hasc].
Qed.

Lemma sortOuter_sorted n :
  forall i events, ascendingByStart events -> sortOuter i n events = events.
Proof.
  induction n as [| n IH]; intros i events Hasc; simpl; [reflexivity |].
  rewrite (sortInner_sorted i _ (S i) events) by (auto; lia).
  now apply IH.
Qed.

(** X27. [sortEventsByStart] leaves a list that is already in
    ascending order of start time exactly as it is, events with equal
    starts included; sorting a second time changes nothing. *)
Theorem sort_keeps_sorted events :
  (ascendingByStart events -> sortEventsByStart events = events)
  /\ sortEventsByStart (sortEventsByStart events) = sortEventsByStart events.
Proof.
  assert (Hfix : forall l, ascendingByStart l -> sortEventsByStart l = l).
  { intros l Hasc. unfold sortEventsByStart. now apply sortOuter_sorted. }
  split; [apply Hfix |].
  apply Hfix. apply sortEventsByStart_sorts.
Qed.
